(** * mill: a single-tape Turing machine interpreter (src/mill.c)

    Shallow embedding of [mill.c]: the symbol table, the instruction
    lexer, the tape loader, the execution engine, the tape printer and the
    scan of the command line, followed by the properties of the
    specification and further properties read off the source.

    Conventions of the embedding.
    - [wchar_t] and [size_t] values are integers in [Z].  [size_t] is taken
      64 bits wide; its wrap-around is written out where the source
      computes with it ([size_add], [size_sub], [size_of_int]).
    - A [FILE*] opened for reading is the list of wide characters still to
      be read; [fgetwc] pops its head and yields [WEOF] on the empty list.
      A [FILE*] opened for writing is the list of characters written.
      Failures of the I/O layer itself are not modelled.
    - [iswspace] depends on the locale selected by [setlocale (LC_ALL, "")]
      and is a parameter of the parser.
    - The tape buffer [wchar_t buf[MILL_TAPE_SIZE]] is a total function from
      indices to cells; only indices below [tape_size] are ever read, and
      the field [_null] that follows the array is kept in the record. *)

From Stdlib Require Import String Ascii ZArith List Bool Lia FinFun.
Import ListNotations.
Local Open Scope Z_scope.

(** ** Constants *)

Definition MILL_TAPE_SIZE : Z := 1048576.   (* 0x100000 *)
Definition MILL_STATES_MAX : Z := 1024.
Definition MILL_STATE_MAX : Z := 32.
Definition MILL_INSTR_MAX : Z := 65536.     (* 0x10000 *)
Definition MILL_STEPS_MAX : Z := 1000000.

(** ** Machine integers and wide strings *)

#[warning="-notation-for-abbreviation"]
Notation wchar_t := Z (only parsing).
Definition wcs : Type := list wchar_t.

Definition SIZE_MOD : Z := 2 ^ 64.
Definition size_of_int (i : Z) : Z := i mod SIZE_MOD.
Definition size_add (a b : Z) : Z := (a + b) mod SIZE_MOD.
Definition size_sub (a b : Z) : Z := (a - b) mod SIZE_MOD.

Definition wchar_of_ascii (a : ascii) : wchar_t := Z.of_N (N_of_ascii a).
Definition L (s : string) : wcs := map wchar_of_ascii (list_ascii_of_string s).

(** The C string held in a character array: the cells before the first
    terminator. *)
Fixpoint cstr (a : wcs) : wcs :=
  match a with
  | [] => []
  | c :: rest => if c =? 0 then [] else c :: cstr rest
  end.

Definition wcslen (a : wcs) : Z := Z.of_nat (length (cstr a)).

Fixpoint wcs_eqb (a b : wcs) : bool :=
  match a, b with
  | [], [] => true
  | x :: a', y :: b' => (x =? y) && wcs_eqb a' b'
  | _, _ => false
  end.

(** [wcscmp (a, b) == 0] *)
Definition wcscmp0 (a b : wcs) : bool := wcs_eqb (cstr a) (cstr b).

(** ** Data model *)

Inductive HeadMove := HeadMove_none | HeadMove_left | HeadMove_right.

Record MillInstr := mkInstr {
  state_in : Z;
  char_in : wchar_t;
  state_out : Z;
  char_out : wchar_t;
  move : HeadMove
}.

(** [symbols[i]] points at the name copied into [symdata]; copied names are
    never overwritten, so the table is the list of the names together with
    the fill level of [symdata].  The field [size] is the length of the
    list. *)
Record SymTable := mkSymTable {
  symbols : list wcs;
  datasize : Z
}.

Definition sym_size (t : SymTable) : Z := Z.of_nat (length (symbols t)).

Record MillProgram := mkProgram {
  symtable : SymTable;
  syminit : Z;
  symhalt : Z;
  instructions : list MillInstr
}.

Definition instr_count (p : MillProgram) : Z :=
  Z.of_nat (length (instructions p)).

Record MillTape := mkTape {
  tape_size : Z;
  tape_pos : Z;
  tape_buf : Z -> wchar_t;
  _null : wchar_t
}.

(** Every [parse_error] call of the source has its own message. *)
Inductive ParseError :=
| InvalidMove (text : wcs)          (* "invalid move instruction %ls" *)
| SymbolLimit                       (* "symbol table limit reached" *)
| SymbolsExhausted                  (* "symbols buffer exhausted" *)
| SymbolTooLong (token : wcs)       (* "symbol is too long: %ls" *)
| UnexpectedChar (c : wchar_t)      (* "unexpected token: %lc" *)
| UnexpectedToken (token : wcs)     (* "unexpected token: %ls" *)
| ExpectingToken                    (* "expecting a token" *)
| TooManyInstructions.              (* "too many instructions" *)

Inductive result (A : Type) :=
| Ok (a : A)
| Err (e : ParseError).
Arguments Ok {A} a.
Arguments Err {A} e.

Definition bind {A B} (r : result A) (k : A -> result B) : result B :=
  match r with
  | Ok a => k a
  | Err e => Err e
  end.

Notation "x <- r ;; k" := (bind r (fun x => k))
  (at level 61, r at next level, right associativity).
Notation "' p <- r ;; k" := (bind r (fun p => k))
  (at level 61, p pattern, r at next level, right associativity).

(** ** parse_headmove *)

Definition parse_headmove (text : wcs) : result HeadMove :=
  let n := wcslen text in
  if negb (n =? 1) then Err (InvalidMove (cstr text))
  else
    let c := nth 0 text 0 in
    if c =? 76 (* 'L' *) then Ok HeadMove_left
    else if c =? 82 (* 'R' *) then Ok HeadMove_right
    else Err (InvalidMove (cstr text)).

(** ** symtable_insert *)

(** The lookup loop: index of the first stored name equal to [symbol],
    counting from [i]. *)
Fixpoint symtable_find (names : list wcs) (symbol : wcs) (i : Z) : option Z :=
  match names with
  | [] => None
  | s :: rest =>
      if wcscmp0 s symbol then Some i else symtable_find rest symbol (i + 1)
  end.

Definition symdata_max : Z := MILL_STATES_MAX * (MILL_STATE_MAX + 1).

Definition symtable_insert (t : SymTable) (symbol : wcs)
  : result (Z * SymTable) :=
  match symtable_find (symbols t) symbol 0 with
  | Some i => Ok (i, t)
  | None =>
      if sym_size t >=? MILL_STATES_MAX then Err SymbolLimit
      else
        let symsize := wcslen symbol + 1 in
        let symmax := symdata_max in
        if datasize t + symsize >? symmax then Err SymbolsExhausted
        else
          Ok (sym_size t,
              {| symbols := symbols t ++ [cstr symbol];
                 datasize := datasize t + symsize |})
  end.

(** ** mill_parse_instruction *)

(** The values taken by the lexer's [int state]: every assignment to it in
    the source is one of these literals. *)
Inductive LexState :=
| S0 | S1 | S2 | S3 | S4 | S5 | S6 | S7 | S8 | S9 | S10 | S11 | S12
| S20 | S100.

Definition state_num (s : LexState) : Z :=
  match s with
  | S0 => 0 | S1 => 1 | S2 => 2 | S3 => 3 | S4 => 4 | S5 => 5 | S6 => 6
  | S7 => 7 | S8 => 8 | S9 => 9 | S10 => 10 | S11 => 11 | S12 => 12
  | S20 => 20 | S100 => 100
  end.

(** The local variables of [mill_parse_instruction].  [token] holds the
    [toksize] characters accumulated so far; the terminator the source
    stores behind them is implicit. *)
Record Lexer := mkLexer {
  lx_state : LexState;
  lx_token : wcs;
  lx_data : MillInstr;
  lx_symtable : SymTable
}.

Definition toksize (l : Lexer) : Z := Z.of_nat (length (lx_token l)).

Definition set_state_in (d : MillInstr) (v : Z) : MillInstr :=
  mkInstr v (char_in d) (state_out d) (char_out d) (move d).
Definition set_char_in (d : MillInstr) (v : wchar_t) : MillInstr :=
  mkInstr (state_in d) v (state_out d) (char_out d) (move d).
Definition set_state_out (d : MillInstr) (v : Z) : MillInstr :=
  mkInstr (state_in d) (char_in d) v (char_out d) (move d).
Definition set_char_out (d : MillInstr) (v : wchar_t) : MillInstr :=
  mkInstr (state_in d) (char_in d) (state_out d) v (move d).
Definition set_move (d : MillInstr) (v : HeadMove) : MillInstr :=
  mkInstr (state_in d) (char_in d) (state_out d) (char_out d) v.

Definition instr_zero : MillInstr := mkInstr 0 0 0 0 HeadMove_none.

(** ['_'] names the blank cell. *)
Definition blank_of (c : wchar_t) : wchar_t := if c =? 95 then 0 else c.

Section Parser.

Variable iswspace : wchar_t -> bool.

(** One turn of the [switch (state)] on the character [c]. *)
Definition lex_char (l : Lexer) (c : wchar_t) : result Lexer :=
  let tmax := MILL_STATE_MAX in
  let st := lx_state l in
  let token := lx_token l in
  let data := lx_data l in
  let tab := lx_symtable l in
  let push s := Ok (mkLexer s (token ++ [c]) data tab) in
  let start s := if negb (iswspace c) then push s else Ok l in
  match st with
  | S0 => start S1
  | S1 =>
      if iswspace c then
        '(sid, tab') <- symtable_insert tab token ;;
        Ok (mkLexer S2 [] (set_state_in data sid) tab')
      else if toksize l >=? tmax then Err (SymbolTooLong (cstr token))
      else
        let token' := token ++ [c] in
        if (Z.of_nat (length token') =? 2) && wcscmp0 token' (L "//")
        then Ok (mkLexer S20 [] data tab)
        else Ok (mkLexer S1 token' data tab)
  | S2 => start S3
  | S3 =>
      if iswspace c then
        Ok (mkLexer S4 [] (set_char_in data (blank_of (nth 0 token 0))) tab)
      else Err (SymbolTooLong (cstr token))
  | S4 => start S5
  | S5 =>
      if iswspace c then
        '(sid, tab') <- symtable_insert tab token ;;
        Ok (mkLexer S6 [] (set_state_out data sid) tab')
      else if toksize l >=? tmax then Err (SymbolTooLong (cstr token))
      else push S5
  | S6 => start S7
  | S7 =>
      if iswspace c then
        Ok (mkLexer S8 [] (set_char_out data (blank_of (nth 0 token 0))) tab)
      else Err (SymbolTooLong (cstr token))
  | S8 => start S9
  | S9 =>
      if iswspace c then
        m <- parse_headmove token ;;
        Ok (mkLexer (if c =? 10 then S100 else S10) [] (set_move data m) tab)
      else if toksize l >=? tmax then Err (SymbolTooLong (cstr token))
      else
        let token' := token ++ [c] in
        let n := length token' in
        if (Z.of_nat n >=? 3)
           && (nth (n - 2) token' 0 =? 47) && (nth (n - 1) token' 0 =? 47)
        then
          let token'' := firstn (n - 2) token' in
          m <- parse_headmove token'' ;;
          Ok (mkLexer S12 token'' (set_move data m) tab)
        else Ok (mkLexer S9 token' data tab)
  | S10 =>
      if c =? 10 then Ok (mkLexer S100 token data tab)
      else if c =? 47 then push S11
      else if negb (iswspace c) then Err (UnexpectedChar c)
      else Ok l
  | S11 =>
      if c =? 47 then Ok (mkLexer S12 token data tab)
      else Err (UnexpectedToken (cstr (token ++ [c])))
  | S12 =>
      if c =? 10 then Ok (mkLexer S100 token data tab) else Ok l
  | S20 =>
      if c =? 10 then Ok (mkLexer S0 token data tab) else Ok l
  | S100 => Ok l
  end.

(** [for (; state < 100; ) { c = fgetwc (file); if (c == WEOF) break; ... }]
    The second component is what is left of the file. *)
Fixpoint lex_loop (l : Lexer) (file : wcs) : result Lexer * wcs :=
  if negb (state_num (lx_state l) <? 100) then (Ok l, file)
  else
    match file with
    | [] => (Ok l, [])
    | c :: rest =>
        match lex_char l c with
        | Ok l' => lex_loop l' rest
        | Err e => (Err e, rest)
        end
    end.

(** The [switch (state)] behind the loop: [None] is the return value 0 (end
    of input, no instruction), [Some] the return value 1. *)
Definition lex_finish (l : Lexer) : result (option MillInstr) :=
  match lx_state l with
  | S0 | S20 => Ok None
  | S1 | S2 | S3 | S4 | S5 | S6 | S7 | S8 => Err ExpectingToken
  | S9 =>
      m <- parse_headmove (lx_token l) ;;
      Ok (Some (set_move (lx_data l) m))
  | S11 => Err (UnexpectedToken (cstr (lx_token l)))
  | S10 | S12 | S100 => Ok (Some (lx_data l))
  end.

Definition mill_parse_instruction (file : wcs) (tab : SymTable)
  : result (option MillInstr * SymTable) * wcs :=
  let (r, rest) := lex_loop (mkLexer S0 [] instr_zero tab) file in
  (l <- r ;; i <- lex_finish l ;; Ok (i, lx_symtable l), rest).

(** ** mill_parse_program *)

(** The [for (;;)] loop.  Each turn that yields an instruction has read at
    least one character, so [S (length file)] turns always suffice
    ([parse_loop_total]); [None] is reported when the turns are used up. *)
Fixpoint parse_loop (fuel : nat) (file : wcs) (prog : MillProgram)
  : option (result MillProgram) :=
  match fuel with
  | O => None
  | S fuel' =>
      match mill_parse_instruction file (symtable prog) with
      | (Err e, _) => Some (Err e)
      | (Ok (None, tab), _) =>
          Some (Ok (mkProgram tab (syminit prog) (symhalt prog)
                      (instructions prog)))
      | (Ok (Some instr, tab), rest) =>
          if instr_count prog >=? MILL_INSTR_MAX
          then Some (Err TooManyInstructions)
          else parse_loop fuel' rest
                 (mkProgram tab (syminit prog) (symhalt prog)
                    (instructions prog ++ [instr]))
      end
  end.

Definition symtable_zero : SymTable := mkSymTable [] 0.

Definition mill_parse_program (file : wcs) : option (result MillProgram) :=
  match symtable_insert symtable_zero (L "INIT") with
  | Err e => Some (Err e)
  | Ok (i, tab1) =>
      match symtable_insert tab1 (L "HALT") with
      | Err e => Some (Err e)
      | Ok (h, tab2) =>
          parse_loop (S (length file)) file (mkProgram tab2 i h [])
      end
  end.

End Parser.

(** The classification of the "C" locale: space, \t, \n, \v, \f, \r. *)
Definition iswspace_C (c : wchar_t) : bool :=
  (c =? 32) || ((9 <=? c) && (c <=? 13)).

(** A classification of a wider locale: that of the "C" locale and the
    ideographic space U+3000. *)
Definition iswspace_wide (c : wchar_t) : bool :=
  iswspace_C c || (c =? 12288).

(** ** The tape *)

Definition buf_set (buf : Z -> wchar_t) (i : Z) (v : wchar_t) : Z -> wchar_t :=
  fun j => if j =? i then v else buf j.

Definition with_tape (tape : MillTape) (pos : Z) (buf : Z -> wchar_t)
  : MillTape :=
  mkTape (tape_size tape) pos buf (_null tape).

(** ** mill_read_tape *)

(** The characters [fgetws (buf, n, file)] consumes: at most [n - 1], up to
    and including the first newline. *)
Fixpoint fgetws_take (n : Z) (file : wcs) : wcs * wcs :=
  match file with
  | [] => ([], [])
  | c :: rest =>
      if n <=? 1 then ([], file)
      else if c =? 10 then ([c], rest)
      else let (cs, rest') := fgetws_take (n - 1) rest in (c :: cs, rest')
  end.

Fixpoint store_wcs (buf : Z -> wchar_t) (i : Z) (cs : wcs) : Z -> wchar_t :=
  match cs with
  | [] => buf
  | c :: rest => store_wcs (buf_set buf i c) (i + 1) rest
  end.

(** [fgetws]: [None] is the null pointer, returned at end of file before
    any character; otherwise the characters are stored from index 0 and a
    terminator is stored behind them. *)
Definition fgetws (buf : Z -> wchar_t) (n : Z) (file : wcs)
  : option (Z -> wchar_t) * wcs :=
  if n <=? 0 then (None, file)
  else
    match file with
    | [] => (None, [])
    | _ =>
        let (cs, rest) := fgetws_take n file in
        (Some (store_wcs buf 0 (cs ++ [0])), rest)
    end.

(** [None] is the return value 1. *)
Definition mill_read_tape (file : wcs) (tape : MillTape) : option MillTape :=
  match fst (fgetws (tape_buf tape) (tape_size tape) file) with
  | None => None
  | Some buf => Some (with_tape tape (tape_pos tape) buf)
  end.

(** ** mill_print_tape *)

Fixpoint seek_back (n : nat) (tape : MillTape) (start : Z) : Z :=
  match n with
  | O => start
  | S n' =>
      if tape_buf tape start =? 0 then start
      else seek_back n' tape (size_sub start 1 mod tape_size tape)
  end.

Fixpoint seek_fwd (n : nat) (tape : MillTape) (start : Z) : Z :=
  match n with
  | O => start
  | S n' =>
      if negb (tape_buf tape start =? 0) then start
      else seek_fwd n' tape (size_add start 1 mod tape_size tape)
  end.

(** The cell at offset [i] from [buf]: [_null] lies right behind the
    array. *)
Definition tape_mem (tape : MillTape) (i : Z) : wchar_t :=
  if i <? tape_size tape then tape_buf tape i else _null tape.

(** The characters [fputws (&tape->buf[i], file)] writes: the cells from
    [i] up to the first terminator.  [fuel] is the number of cells from [i]
    to [_null] inclusive; [None] means that none of them is a terminator. *)
Fixpoint fputws_from (fuel : nat) (tape : MillTape) (i : Z) : option wcs :=
  match fuel with
  | O => None
  | S fuel' =>
      let c := tape_mem tape i in
      if c =? 0 then Some []
      else option_map (cons c) (fputws_from fuel' tape (i + 1))
  end.

Definition fputws_buf (tape : MillTape) (i : Z) : option wcs :=
  fputws_from (Z.to_nat (tape_size tape + 1 - i)) tape i.

(** The result is the content of [file] after the call; [None] stands for
    an unterminated string. *)
Definition mill_print_tape (file : wcs) (tape : MillTape) : option wcs :=
  let n := Z.to_nat (tape_size tape) in
  let start := seek_back n tape 0 in
  let start := seek_fwd n tape start in
  match fputws_buf tape start with
  | None => None
  | Some s1 =>
      match
        (if (start >? 0) && negb (tape_buf tape 0 =? 0)
         then fputws_buf tape 0 else Some [])
      with
      | None => None
      | Some s2 => Some (file ++ s1 ++ s2 ++ [10])
      end
  end.

(** ** mill_run *)

(** What [mill_run] leaves behind: its return value, the tape, [*steps] and
    the diagnostic written to stderr. *)
Inductive RunOutcome :=
| Halted                          (* return 0, no message *)
| Unhandled (s : wcs) (c : wchar_t)
                                  (* "error: unhandled state %ls '%lc'" *)
| InvalidHeadMove                 (* "error: invalid head movement" *)
| TimedOut.                       (* "timed out after %zu instructions" *)

Record RunResult := mkRun {
  run_ret : Z;
  run_tape : MillTape;
  run_steps : Z;
  run_outcome : RunOutcome
}.

(** The variables that live across the turns of the outer loop. *)
Record Config := mkConfig {
  cf_pos : Z;
  cf_state : Z;
  cf_buf : Z -> wchar_t
}.

Inductive Turn :=
| Next (cf : Config)
| Return (r : RunResult).

Definition instr_matches (instr : MillInstr) (state : Z) (c : wchar_t) : bool :=
  (state_in instr =? state) && (char_in instr =? c).

(** The inner [for] loop up to the instruction whose test succeeds: its
    index and the instruction. *)
Fixpoint scan (instrs : list MillInstr) (i : Z) (state : Z) (c : wchar_t)
  : option (Z * MillInstr) :=
  match instrs with
  | [] => None
  | instr :: rest =>
      if instr_matches instr state c then Some (i, instr)
      else scan rest (i + 1) state c
  end.

Definition head_dp (m : HeadMove) : option Z :=
  match m with
  | HeadMove_left => Some (-1)
  | HeadMove_right => Some 1
  | HeadMove_none => None
  end.

(** [pos = (pos + dp) % tape->size] with [pos] a [size_t] and [dp] an
    [int]. *)
Definition head_move (size pos dp : Z) : Z :=
  size_add pos (size_of_int dp) mod size.

Definition symbol_name (prog : MillProgram) (state : Z) : wcs :=
  nth (Z.to_nat state) (symbols (symtable prog)) [].

(** The inner loop of the turn for the step counter [t]: the first
    instruction whose test succeeds is executed and ends the loop, either
    by [return] or by [break]. *)
Definition scan_turn (prog : MillProgram) (tape : MillTape) (t : Z)
  (cf : Config) : Turn :=
  let halt := symhalt prog in
  let pos := cf_pos cf in
  let c := cf_buf cf pos in
  match scan (instructions prog) 0 (cf_state cf) c with
  | None => Next cf
  | Some (_, instr) =>
      let buf := buf_set (cf_buf cf) pos (char_out instr) in
      let state := state_out instr in
      match head_dp (move instr) with
      | None =>
          Return (mkRun (-1) (with_tape tape pos buf) (t + 1) InvalidHeadMove)
      | Some dp =>
          let pos := head_move (tape_size tape) pos dp in
          if state =? halt
          then Return (mkRun 0 (with_tape tape pos buf) (t + 1) Halted)
          else Next (mkConfig pos state buf)
      end
  end.

(** One turn of the outer loop: the inner loop, then the test
    [pos == prev]. *)
Definition run_turn (prog : MillProgram) (tape : MillTape) (t : Z)
  (cf : Config) : Turn :=
  let prev := cf_pos cf in
  let c := cf_buf cf (cf_pos cf) in
  match scan_turn prog tape t cf with
  | Return r => Return r
  | Next cf' =>
      if cf_pos cf' =? prev then
        let s := symbol_name prog (cf_state cf') in
        let c := if c =? 0 then 95 else c in
        Return (mkRun (-1) (with_tape tape (cf_pos cf') (cf_buf cf'))
                  (t + 1) (Unhandled s c))
      else Next cf'
  end.

(** The outer loop; [fuel] is the number of turns left before [t] reaches
    [MILL_STEPS_MAX]. *)
Fixpoint run_loop (fuel : nat) (prog : MillProgram) (tape : MillTape)
  (t : Z) (cf : Config) : RunResult :=
  match fuel with
  | O =>
      mkRun 1 (with_tape tape (cf_pos cf) (cf_buf cf)) MILL_STEPS_MAX TimedOut
  | S fuel' =>
      match run_turn prog tape t cf with
      | Return r => r
      | Next cf' => run_loop fuel' prog tape (t + 1) cf'
      end
  end.

Definition init_config (prog : MillProgram) (tape : MillTape) : Config :=
  mkConfig (tape_pos tape) (syminit prog) (tape_buf tape).

Definition mill_run (prog : MillProgram) (tape : MillTape) : RunResult :=
  run_loop (Z.to_nat MILL_STEPS_MAX) prog tape 0 (init_config prog tape).

(** ** main *)

(** [static struct MillTape _Tape] with [_Tape.size] set by [main]. *)
Definition _Tape : MillTape := mkTape MILL_TAPE_SIZE 0 (fun _ => 0) 0.

Inductive MainResult :=
| ParseFailed (e : ParseError)
| ReadFailed
| RunFailed (r : RunResult)
| PrintFailed
| Done (r : RunResult) (output : wcs).

(** [main] behind the opening of its three files: the program text, the
    tape text, and what is written to the output file.  [None] only if the
    parse loop were not to finish. *)
Definition main (iswspace : wchar_t -> bool) (program_file tape_file : wcs)
  : option MainResult :=
  match mill_parse_program iswspace program_file with
  | None => None
  | Some (Err e) => Some (ParseFailed e)
  | Some (Ok prog) =>
      match mill_read_tape tape_file _Tape with
      | None => Some ReadFailed
      | Some tape =>
          let r := mill_run prog tape in
          if negb (run_ret r =? 0) then Some (RunFailed r)
          else
            match mill_print_tape [] (run_tape r) with
            | None => Some PrintFailed
            | Some out => Some (Done r out)
            end
      end
  end.

(** ** Auxiliary notions for the statements *)

(** The first [n] turns of the outer loop from the counter [t]: [Next cf] if
    none of them returned, with [cf] the configuration they lead to. *)
Fixpoint run_n (n : nat) (prog : MillProgram) (tape : MillTape) (t : Z)
  (cf : Config) : Turn :=
  match n with
  | O => Next cf
  | S n' =>
      match run_turn prog tape t cf with
      | Return r => Return r
      | Next cf' => run_n n' prog tape (t + 1) cf'
      end
  end.

(** The symbol as the diagnostic of a stall shows it. *)
Definition shown (c : wchar_t) : wchar_t := if c =? 0 then 95 else c.

(** Where the head is after a turn, whether the loop goes on or returns. *)
Definition turn_pos (x : Turn) : Z :=
  match x with
  | Next cf => cf_pos cf
  | Return r => tape_pos (run_tape r)
  end.

(** The tape [main] hands to [mill_run] when the tape file holds [text]
    (a line of fewer than [MILL_TAPE_SIZE] characters). *)
Definition tape_of (text : wcs) : MillTape :=
  with_tape _Tape 0 (store_wcs (fun _ => 0) 0 (text ++ [0])).

(** The programs of the scenarios, as [mill_parse_program] builds them
    ([parse_scenario1] and the like below). *)
Definition symtable_base : SymTable := mkSymTable [L "INIT"; L "HALT"] 10.

(** [INIT a HALT b R] *)
Definition prog_scenario1 : MillProgram :=
  mkProgram symtable_base 0 1 [mkInstr 0 97 1 98 HeadMove_right].

(** [INIT a INIT a R] *)
Definition prog_scenario3 : MillProgram :=
  mkProgram symtable_base 0 1 [mkInstr 0 97 0 97 HeadMove_right].

(** [INIT a HALT _ L] *)
Definition prog_scenario4 : MillProgram :=
  mkProgram symtable_base 0 1 [mkInstr 0 97 1 0 HeadMove_left].

(** [INIT a INIT a R] followed by [INIT _ INIT _ R]: a machine that runs to
    the right for ever. *)
Definition prog_forever : MillProgram :=
  mkProgram symtable_base 0 1
    [mkInstr 0 97 0 97 HeadMove_right; mkInstr 0 0 0 0 HeadMove_right].

(** [INIT a HALT b R] followed by [INIT a HALT c L]: the second instruction
    is shadowed by the first. *)
Definition prog_shadowed : MillProgram :=
  mkProgram symtable_base 0 1
    [mkInstr 0 97 1 98 HeadMove_right; mkInstr 0 97 1 99 HeadMove_left].

(** Invariants of the parser. *)
Definition move_ok (m : HeadMove) : Prop :=
  m = HeadMove_left \/ m = HeadMove_right.

(** Every stored name takes at most [MILL_STATE_MAX + 1] cells of
    [symdata]. *)
Definition tab_inv (t : SymTable) : Prop :=
  datasize t <= (MILL_STATE_MAX + 1) * sym_size t.

(** [t] holds the names of [t0] at the same indices. *)
Definition tab_ext (t0 t : SymTable) : Prop :=
  exists more, symbols t = symbols t0 ++ more.

Definition lex_inv (l : Lexer) : Prop :=
  toksize l <= MILL_STATE_MAX /\
  tab_inv (lx_symtable l) /\
  match lx_state l with
  | S0 | S2 | S4 | S6 | S8 | S20 => lx_token l = []
  | S10 => lx_token l = [] /\ move_ok (move (lx_data l))
  | S11 | S12 | S100 => move_ok (move (lx_data l))
  | S1 | S3 | S5 | S7 | S9 => True
  end.

Definition prog_inv (p : MillProgram) : Prop :=
  tab_inv (symtable p) /\
  tab_ext symtable_base (symtable p) /\
  syminit p = 0 /\ symhalt p = 1 /\
  Forall (fun i => move_ok (move i)) (instructions p).

(** The symbol tables that can arise: the empty table of a fresh
    [MillProgram], extended by successful insertions of names of at most
    [MILL_STATE_MAX] characters. *)
Inductive table_built : SymTable -> Prop :=
| built_zero : table_built symtable_zero
| built_insert t symbol i t' :
    table_built t -> wcslen symbol <= MILL_STATE_MAX ->
    symtable_insert t symbol = Ok (i, t') -> table_built t'.

(** The buffer a turn leaves behind. *)
Definition turn_buf (x : Turn) : Z -> wchar_t :=
  match x with
  | Next cf => cf_buf cf
  | Return r => tape_buf (run_tape r)
  end.

(** What executing the instruction [instr] at the step counter [t] does
    to the configuration [cf]: the cell under the head receives
    [char_out]; an invalid movement returns -1; otherwise the head moves,
    and the run returns 0 when [state_out] is the halt state and goes on
    in [state_out] when it is not. *)
Definition exec_instr (prog : MillProgram) (tape : MillTape) (t : Z)
  (cf : Config) (instr : MillInstr) : Turn :=
  let buf := buf_set (cf_buf cf) (cf_pos cf) (char_out instr) in
  match move instr with
  | HeadMove_left =>
      let pos := head_move (tape_size tape) (cf_pos cf) (-1) in
      if state_out instr =? symhalt prog
      then Return (mkRun 0 (with_tape tape pos buf) (t + 1) Halted)
      else Next (mkConfig pos (state_out instr) buf)
  | HeadMove_right =>
      let pos := head_move (tape_size tape) (cf_pos cf) 1 in
      if state_out instr =? symhalt prog
      then Return (mkRun 0 (with_tape tape pos buf) (t + 1) Halted)
      else Next (mkConfig pos (state_out instr) buf)
  | HeadMove_none =>
      Return (mkRun (-1) (with_tape tape (cf_pos cf) buf) (t + 1)
                InvalidHeadMove)
  end.

(** The instruction [ins] tests for the state [state] and the symbol
    [c]. *)
Definition tests_for (ins : MillInstr) (state : Z) (c : wchar_t) : Prop :=
  state_in ins = state /\ char_in ins = c.

(** No instruction of the program tests for [state] and [c]. *)
Definition unmatched (prog : MillProgram) (state : Z) (c : wchar_t) : Prop :=
  forall ins, In ins (instructions prog) -> ~ tests_for ins state c.

(** [ins] is the instruction of least index that tests for [state] and
    [c]: it stands at index [k], and no instruction before it does. *)
Definition first_match (prog : MillProgram) (state : Z) (c : wchar_t)
  (k : nat) (ins : MillInstr) : Prop :=
  nth_error (instructions prog) k = Some ins /\
  tests_for ins state c /\
  forall j a, (j < k)%nat -> nth_error (instructions prog) j = Some a ->
              ~ tests_for a state c.





(** ** The rendering as the specification words it

    1. scan backward from index 0, circularly and for at most [N] steps, to
       the first blank cell, the seam;
    2. scan forward from the seam, circularly, over the blank cells, to the
       start;
    3. emit the non-blank cells from the start up to the next blank cell or
       the end of the array;
    4. if the start is not index 0 and index 0 is not blank, emit the
       non-blank cells from index 0;
    5. append a newline.
    Indices are taken modulo [N] in the integers. *)

(** The least [j] in [k .. k+n-1] with [p j], and [k + n] if there is
    none. *)
Fixpoint least_from (p : Z -> bool) (k : Z) (n : nat) : Z :=
  match n with
  | O => k
  | S n' => if p k then k else least_from p (k + 1) n'
  end.

Definition spec_seam (N : Z) (buf : Z -> wchar_t) : Z :=
  let steps :=
    least_from (fun k => buf ((0 - k) mod N) =? 0) 0 (Z.to_nat N) in
  (0 - steps) mod N.

Definition spec_start (N : Z) (buf : Z -> wchar_t) : Z :=
  let seam := spec_seam N buf in
  let steps :=
    least_from (fun m => negb (buf ((seam + m) mod N) =? 0)) 0 (Z.to_nat N) in
  (seam + steps) mod N.

(** The non-blank cells from [i], at most [n] of them. *)
Fixpoint nonblank_run (buf : Z -> wchar_t) (i : Z) (n : nat) : wcs :=
  match n with
  | O => []
  | S n' => if buf i =? 0 then [] else buf i :: nonblank_run buf (i + 1) n'
  end.

Definition spec_run (N : Z) (buf : Z -> wchar_t) (i : Z) : wcs :=
  nonblank_run buf i (Z.to_nat (N - i)).

Definition render_spec (N : Z) (buf : Z -> wchar_t) : wcs :=
  let start := spec_start N buf in
  spec_run N buf start
  ++ (if (0 <? start) && negb (buf 0 =? 0) then spec_run N buf 0 else [])
  ++ [10].

(** [INIT a HALT b] with the move left at [HeadMove_none], as no parse
    delivers it. *)
Definition prog_nomove : MillProgram :=
  mkProgram symtable_base 0 1 [mkInstr 0 97 1 98 HeadMove_none].

(** The shape of the fields of an instruction line: white space between
    fields, and a state name of 1 to [MILL_STATE_MAX] characters none of
    which is white space. *)
Definition blanks (isw : wchar_t -> bool) (ws : wcs) : Prop :=
  ws <> [] /\ Forall (fun c => isw c = true) ws.

Definition word (isw : wchar_t -> bool) (cs : wcs) : Prop :=
  cs <> [] /\ Forall (fun c => isw c = false) cs /\
  Z.of_nat (length cs) <= MILL_STATE_MAX.

(** The lexer states that wait for the first character of a field. *)
Definition skipping (st : LexState) : bool :=
  match st with
  | S0 | S2 | S4 | S6 | S8 => true
  | _ => false
  end.

(** The state ids of an instruction are indices of the table. *)
Definition ids_ok (d : MillInstr) (t : SymTable) : Prop :=
  0 <= state_in d < sym_size t /\ 0 <= state_out d < sym_size t.

(** ** parse_args

    [argv] is the list of the arguments behind the program name.  The
    [FILE*] fields take the values [NULL], [stdin] and [stdout] here; the
    [int state] of the loop takes the values 0 to 3. *)

Inductive FilePtr := FileNull | FileStdin | FileStdout.

Definition file_eqb (a b : FilePtr) : bool :=
  match a, b with
  | FileNull, FileNull | FileStdin, FileStdin | FileStdout, FileStdout => true
  | _, _ => false
  end.

Record AppArgs := mkArgs {
  needs_help : Z;
  log_steps : Z;
  arg_program : option string;
  arg_tape : option string;
  arg_output : option string;
  arg_program_file : FilePtr;
  arg_tape_file : FilePtr;
  arg_output_file : FilePtr
}.

Definition args_zero : AppArgs :=
  mkArgs 0 0 None None None FileNull FileNull FileNull.

Inductive ArgState := A0 | A1 | A2 | A3.

(** [strcmp (a, s) == 0 || strcmp (a, l) == 0] *)
Definition arg_is (a s l : string) : bool :=
  String.eqb a s || String.eqb a l.

(** The body of the loop for the argument [a]. *)
Definition parse_arg (st : ArgState) (args : AppArgs) (a : string)
  : ArgState * AppArgs :=
  match st with
  | A0 =>
      if arg_is a "-h" "--help" then
        (A0, mkArgs 1 (log_steps args) (arg_program args) (arg_tape args)
               (arg_output args) (arg_program_file args)
               (arg_tape_file args) (arg_output_file args))
      else if arg_is a "-p" "--program" then (A1, args)
      else if arg_is a "-s" "--steps" then
        (A0, mkArgs (needs_help args) 1 (arg_program args) (arg_tape args)
               (arg_output args) (arg_program_file args)
               (arg_tape_file args) (arg_output_file args))
      else if arg_is a "-t" "--tape" then (A2, args)
      else if arg_is a "-o" "--output" then (A3, args)
      else (A0, args)
  | A1 =>
      (A0, mkArgs (needs_help args) (log_steps args) (Some a) (arg_tape args)
             (arg_output args)
             (if String.eqb a "-" then FileStdin else arg_program_file args)
             (arg_tape_file args) (arg_output_file args))
  | A2 =>
      (A0, mkArgs (needs_help args) (log_steps args) (arg_program args)
             (Some a) (arg_output args) (arg_program_file args)
             (if String.eqb a "-" then FileStdin else arg_tape_file args)
             (arg_output_file args))
  | A3 =>
      (A0, mkArgs (needs_help args) (log_steps args) (arg_program args)
             (arg_tape args) (Some a) (arg_program_file args)
             (arg_tape_file args)
             (if String.eqb a "-" then FileStdout else arg_output_file args))
  end.

Fixpoint args_loop (st : ArgState) (args : AppArgs) (argv : list string)
  : ArgState * AppArgs :=
  match argv with
  | [] => (st, args)
  | a :: rest =>
      let (st', args') := parse_arg st args a in args_loop st' args' rest
  end.

Inductive ArgError :=
| ExpectedProgram      (* "-p/--program: expected filename" *)
| ExpectedTape         (* "-t/--tape: expected filename" *)
| ConflictingTape.     (* "-t/--tape: conflicting filename" *)

(** The return value, [*args] and the message of [arg_error], if any. *)
Definition parse_args (argv : list string) : Z * AppArgs * option ArgError :=
  let args := snd (args_loop A0 args_zero argv) in
  if negb (needs_help args =? 0) then (0, args, None)
  else
    match arg_program args with
    | None => (1, args, Some ExpectedProgram)
    | Some _ =>
        let stdin_tape :=
          mkArgs (needs_help args) (log_steps args) (arg_program args)
            (arg_tape args) (arg_output args) (arg_program_file args)
            FileStdin (arg_output_file args) in
        match
          (match arg_tape args with
           | None =>
               if file_eqb (arg_program_file args) FileStdin
               then inl ExpectedTape else inr stdin_tape
           | Some _ => inr args
           end)
        with
        | inl e => (1, args, Some e)
        | inr args =>
            if negb (file_eqb (arg_program_file args) FileNull)
               && file_eqb (arg_program_file args) (arg_tape_file args)
            then (1, args, Some ConflictingTape)
            else
              match arg_output args with
              | None =>
                  (0, mkArgs (needs_help args) (log_steps args)
                        (arg_program args) (arg_tape args) (arg_output args)
                        (arg_program_file args) (arg_tape_file args)
                        FileStdout, None)
              | Some _ => (0, args, None)
              end
        end
    end.

(** The strings the loop knows in state 0. *)
Definition known_option (a : string) : bool :=
  arg_is a "-h" "--help" || arg_is a "-p" "--program"
  || arg_is a "-s" "--steps" || arg_is a "-t" "--tape"
  || arg_is a "-o" "--output".

Definition takes_value (a : string) : bool :=
  arg_is a "-p" "--program" || arg_is a "-t" "--tape"
  || arg_is a "-o" "--output".

(** The file pointers are among the values their options assign. *)
Definition args_inv (args : AppArgs) : Prop :=
  (arg_program_file args = FileNull \/ arg_program_file args = FileStdin) /\
  (arg_tape_file args = FileNull \/ arg_tape_file args = FileStdin) /\
  (arg_output_file args = FileNull \/ arg_output_file args = FileStdout).

(** * Properties of the engine *)

Lemma run_loop_run_n fuel prog tape t cf :
  run_loop fuel prog tape t cf =
  match run_n fuel prog tape t cf with
  | Return r => r
  | Next cf' =>
      mkRun 1 (with_tape tape (cf_pos cf') (cf_buf cf')) MILL_STEPS_MAX TimedOut
  end.
Proof.
  revert t cf; induction fuel as [|fuel IH]; intros t cf; simpl.
  - reflexivity.
  - destruct (run_turn prog tape t cf); [apply IH | reflexivity].
Qed.

Lemma run_n_add n m prog tape t cf cf' :
  run_n n prog tape t cf = Next cf' ->
  run_n (n + m) prog tape t cf = run_n m prog tape (t + Z.of_nat n) cf'.
Proof.
  revert t cf; induction n as [|n IH]; intros t cf H.
  - simpl in H. injection H as <-. simpl. now rewrite Z.add_0_r.
  - cbn [run_n Nat.add] in *.
    destruct (run_turn prog tape t cf) as [cf1|r]; [|discriminate].
    rewrite (IH _ _ H). f_equal. lia.
Qed.

Lemma run_loop_add n m prog tape t cf cf' :
  run_n n prog tape t cf = Next cf' ->
  run_loop (n + m) prog tape t cf = run_loop m prog tape (t + Z.of_nat n) cf'.
Proof.
  intros H. rewrite !run_loop_run_n. now rewrite (run_n_add _ m _ _ _ _ _ H).
Qed.

(** ** Arithmetic of the head *)

Lemma head_move_range size pos dp :
  0 < size -> 0 <= head_move size pos dp < size.
Proof. intros H. unfold head_move. apply Z.mod_pos_bound, H. Qed.

Lemma head_move_right pos :
  0 <= pos < MILL_TAPE_SIZE ->
  head_move MILL_TAPE_SIZE pos 1 =
  if pos + 1 =? MILL_TAPE_SIZE then 0 else pos + 1.
Proof.
  unfold head_move, size_add, size_of_int, SIZE_MOD, MILL_TAPE_SIZE.
  intros H. change (1 mod 2 ^ 64) with 1.
  rewrite (Z.mod_small (pos + 1)) by lia.
  destruct (Z.eqb_spec (pos + 1) 1048576) as [->|Hne].
  - reflexivity.
  - apply Z.mod_small; lia.
Qed.

Lemma head_move_left pos :
  0 <= pos < MILL_TAPE_SIZE ->
  head_move MILL_TAPE_SIZE pos (-1) =
  if pos =? 0 then MILL_TAPE_SIZE - 1 else pos - 1.
Proof.
  unfold head_move, size_add, size_of_int, SIZE_MOD, MILL_TAPE_SIZE.
  intros H. change (-1 mod 2 ^ 64) with (2 ^ 64 - 1).
  destruct (Z.eqb_spec pos 0) as [->|Hne].
  - reflexivity.
  - replace (pos + (2 ^ 64 - 1)) with (pos - 1 + 1 * 2 ^ 64) by lia.
    rewrite Z.mod_add by lia.
    rewrite (Z.mod_small (pos - 1)) by lia.
    apply Z.mod_small; lia.
Qed.

Lemma head_move_changes pos m dp :
  0 <= pos < MILL_TAPE_SIZE -> head_dp m = Some dp ->
  head_move MILL_TAPE_SIZE pos dp <> pos.
Proof.
  intros H Hm. destruct m; simpl in Hm; try discriminate;
    injection Hm as <-.
  - rewrite head_move_left by assumption.
    destruct (Z.eqb_spec pos 0); unfold MILL_TAPE_SIZE in *; lia.
  - rewrite head_move_right by assumption.
    destruct (Z.eqb_spec (pos + 1) MILL_TAPE_SIZE);
      unfold MILL_TAPE_SIZE in *; lia.
Qed.

(** ** The scan of the instruction list *)

Lemma scan_none instrs i state c :
  scan instrs i state c = None <->
  forall ins, In ins instrs -> instr_matches ins state c = false.
Proof.
  revert i; induction instrs as [|a rest IH]; intros i; simpl.
  - split; [intros _ ins [] | reflexivity].
  - destruct (instr_matches a state c) eqn:Ha.
    + split; [discriminate|]. intros H.
      specialize (H a (or_introl eq_refl)). congruence.
    + rewrite IH. split.
      * intros H ins [<-|Hin]; auto.
      * intros H ins Hin. apply H. now right.
Qed.

Lemma scan_some instrs i state c k ins :
  scan instrs i state c = Some (k, ins) ->
  i <= k /\
  nth_error instrs (Z.to_nat (k - i)) = Some ins /\
  instr_matches ins state c = true /\
  forall j a, (j < Z.to_nat (k - i))%nat -> nth_error instrs j = Some a ->
              instr_matches a state c = false.
Proof.
  revert i; induction instrs as [|a rest IH]; intros i; simpl.
  - discriminate.
  - destruct (instr_matches a state c) eqn:Ha.
    + intros H. injection H as <- <-. rewrite Z.sub_diag. simpl.
      repeat split; auto; try lia.
    + intros H. destruct (IH _ H) as (Hle & Hnth & Hm & Hbefore).
      replace (Z.to_nat (k - i)) with (S (Z.to_nat (k - (i + 1)))) by lia.
      simpl. repeat split; auto; try lia.
      intros [|j] b Hj Hb; simpl in Hb.
      * congruence.
      * apply (Hbefore j); [lia | assumption].
Qed.

Lemma scan_turn_next prog tape t cf cf' :
  tape_size tape = MILL_TAPE_SIZE ->
  0 <= cf_pos cf < MILL_TAPE_SIZE ->
  scan_turn prog tape t cf = Next cf' ->
  0 <= cf_pos cf' < MILL_TAPE_SIZE /\
  (cf_pos cf' = cf_pos cf <->
   scan (instructions prog) 0 (cf_state cf) (cf_buf cf (cf_pos cf)) = None).
Proof.
  intros Hsize Hpos. unfold scan_turn. rewrite Hsize.
  destruct (scan _ _ _ _) as [[k ins]|].
  - destruct (head_dp (move ins)) as [dp|] eqn:Hdp; [|discriminate].
    destruct (state_out ins =? symhalt prog); [discriminate|].
    intros H. injection H as <-. simpl. split.
    + apply head_move_range. reflexivity.
    + split; [|discriminate].
      intros H. now apply head_move_changes with (m := move ins) in H.
  - intros H. injection H as <-. tauto.
Qed.

Lemma run_turn_next prog tape t cf cf' :
  tape_size tape = MILL_TAPE_SIZE ->
  0 <= cf_pos cf < MILL_TAPE_SIZE ->
  run_turn prog tape t cf = Next cf' ->
  0 <= cf_pos cf' < MILL_TAPE_SIZE.
Proof.
  intros Hsize Hpos. unfold run_turn.
  destruct (scan_turn prog tape t cf) as [cf1|r] eqn:Hs; [|discriminate].
  destruct (cf_pos cf1 =? cf_pos cf); [discriminate|].
  intros H. injection H as <-.
  now destruct (scan_turn_next _ _ _ _ _ Hsize Hpos Hs).
Qed.

Lemma run_n_pos n prog tape t cf cf' :
  tape_size tape = MILL_TAPE_SIZE ->
  0 <= cf_pos cf < MILL_TAPE_SIZE ->
  run_n n prog tape t cf = Next cf' ->
  0 <= cf_pos cf' < MILL_TAPE_SIZE.
Proof.
  intros Hsize. revert t cf; induction n as [|n IH]; intros t cf Hpos; simpl.
  - intros H. now injection H as <-.
  - destruct (run_turn prog tape t cf) as [cf1|r] eqn:Ht; [|discriminate].
    apply IH. eapply run_turn_next; eassumption.
Qed.

Lemma run_turn_return_pos prog tape t cf r :
  tape_size tape = MILL_TAPE_SIZE ->
  0 <= cf_pos cf < MILL_TAPE_SIZE ->
  run_turn prog tape t cf = Return r ->
  0 <= tape_pos (run_tape r) < MILL_TAPE_SIZE.
Proof.
  intros Hsize Hpos. unfold run_turn.
  destruct (scan_turn prog tape t cf) as [cf1|r1] eqn:Hs.
  - destruct (Z.eqb_spec (cf_pos cf1) (cf_pos cf)) as [He|]; [|discriminate].
    intros H. injection H as <-. simpl. now rewrite He.
  - intros H. injection H as <-. revert Hs. unfold scan_turn.
    destruct (scan _ _ _ _) as [[k ins]|]; [|discriminate].
    destruct (head_dp (move ins)) as [dp|].
    + destruct (state_out ins =? symhalt prog); [|discriminate].
      intros H. injection H as <-. simpl. rewrite Hsize.
      apply head_move_range. reflexivity.
    + intros H. injection H as <-. exact Hpos.
Qed.

Lemma run_n_return_pos n prog tape t cf r :
  tape_size tape = MILL_TAPE_SIZE ->
  0 <= cf_pos cf < MILL_TAPE_SIZE ->
  run_n n prog tape t cf = Return r ->
  0 <= tape_pos (run_tape r) < MILL_TAPE_SIZE.
Proof.
  intros Hsize. revert t cf; induction n as [|n IH]; intros t cf Hpos; simpl.
  - discriminate.
  - destruct (run_turn prog tape t cf) as [cf1|r1] eqn:Ht.
    + apply IH. eapply run_turn_next; eassumption.
    + intros H. injection H as <-. eapply run_turn_return_pos; eassumption.
Qed.

Lemma run_turn_unmatched prog tape t cf :
  scan (instructions prog) 0 (cf_state cf) (cf_buf cf (cf_pos cf)) = None ->
  run_turn prog tape t cf =
  Return (mkRun (-1) (with_tape tape (cf_pos cf) (cf_buf cf)) (t + 1)
            (Unhandled (symbol_name prog (cf_state cf))
               (shown (cf_buf cf (cf_pos cf))))).
Proof.
  intros H. unfold run_turn, scan_turn. rewrite H.
  now rewrite Z.eqb_refl.
Qed.

Lemma run_turn_unhandled_iff prog tape t cf :
  tape_size tape = MILL_TAPE_SIZE ->
  0 <= cf_pos cf < MILL_TAPE_SIZE ->
  (exists r s c, run_turn prog tape t cf = Return r /\
                 run_outcome r = Unhandled s c) <->
  scan (instructions prog) 0 (cf_state cf) (cf_buf cf (cf_pos cf)) = None.
Proof.
  intros Hsize Hpos. split.
  - intros (r & s & c & Hr & Ho). revert Hr. unfold run_turn.
    destruct (scan_turn prog tape t cf) as [cf1|r1] eqn:Hs.
    + destruct (Z.eqb_spec (cf_pos cf1) (cf_pos cf)) as [He|]; [|discriminate].
      intros _. now apply (scan_turn_next _ _ _ _ _ Hsize Hpos Hs).
    + intros H. injection H as ->. revert Hs. unfold scan_turn.
      destruct (scan _ _ _ _) as [[k ins]|]; [|discriminate].
      destruct (head_dp (move ins)).
      * destruct (state_out ins =? symhalt prog); [|discriminate].
        intros H. injection H as <-. discriminate.
      * intros H. injection H as <-. discriminate.
  - intros H. rewrite (run_turn_unmatched _ _ _ _ H).
    eexists _, _, _. split; reflexivity.
Qed.

Lemma run_loop_unmatched fuel n prog tape t cf0 cf :
  (n < fuel)%nat ->
  run_n n prog tape t cf0 = Next cf ->
  scan (instructions prog) 0 (cf_state cf) (cf_buf cf (cf_pos cf)) = None ->
  run_loop fuel prog tape t cf0 =
  mkRun (-1) (with_tape tape (cf_pos cf) (cf_buf cf)) (t + Z.of_nat n + 1)
    (Unhandled (symbol_name prog (cf_state cf))
       (shown (cf_buf cf (cf_pos cf)))).
Proof.
  intros Hlt Hrun Hnone.
  destruct (Nat.le_exists_sub (S n) fuel Hlt) as (m & -> & _).
  replace (m + S n)%nat with (n + S m)%nat by lia.
  rewrite (run_loop_add _ _ _ _ _ _ _ Hrun). cbn [run_loop].
  now rewrite (run_turn_unmatched _ _ _ _ Hnone).
Qed.

(** ** Claims about the engine *)

Lemma tests_for_iff ins state c :
  instr_matches ins state c = true <-> tests_for ins state c.
Proof.
  unfold instr_matches, tests_for.
  rewrite andb_true_iff, !Z.eqb_eq. reflexivity.
Qed.

Lemma tests_for_false ins state c :
  instr_matches ins state c = false <-> ~ tests_for ins state c.
Proof.
  rewrite <- tests_for_iff. now destruct (instr_matches ins state c).
Qed.

Lemma scan_none_unmatched prog state c :
  scan (instructions prog) 0 state c = None <-> unmatched prog state c.
Proof.
  rewrite scan_none. unfold unmatched.
  split; intros H ins Hin; apply tests_for_false, H, Hin.
Qed.

Lemma scan_first instrs i state c k ins :
  nth_error instrs k = Some ins ->
  tests_for ins state c ->
  (forall j a, (j < k)%nat -> nth_error instrs j = Some a ->
               ~ tests_for a state c) ->
  scan instrs i state c = Some (i + Z.of_nat k, ins).
Proof.
  revert i k. induction instrs as [|x instrs IH]; intros i k Hnth Hm Hb.
  - destruct k; discriminate Hnth.
  - destruct k as [|k].
    + injection Hnth as ->. cbn [scan].
      rewrite (proj2 (tests_for_iff _ _ _) Hm).
      do 2 f_equal. lia.
    + cbn [scan].
      rewrite (proj2 (tests_for_false _ _ _) (Hb 0%nat x (Nat.lt_0_succ k) eq_refl)).
      rewrite (IH (i + 1) k Hnth Hm).
      * do 2 f_equal. lia.
      * intros j a Hj Ha. apply (Hb (S j) a); [lia | exact Ha].
Qed.

Lemma scan_turn_first prog tape t cf k ins :
  first_match prog (cf_state cf) (cf_buf cf (cf_pos cf)) k ins ->
  scan_turn prog tape t cf = exec_instr prog tape t cf ins.
Proof.
  intros (Hnth & Hm & Hb). unfold scan_turn, exec_instr.
  rewrite (scan_first _ 0 _ _ _ _ Hnth Hm Hb).
  destruct (move ins); reflexivity.
Qed.

Lemma run_turn_first prog tape t cf k ins :
  tape_size tape = MILL_TAPE_SIZE ->
  0 <= cf_pos cf < MILL_TAPE_SIZE ->
  first_match prog (cf_state cf) (cf_buf cf (cf_pos cf)) k ins ->
  run_turn prog tape t cf = exec_instr prog tape t cf ins.
Proof.
  intros Hsize Hpos Hfm. unfold run_turn.
  rewrite (scan_turn_first _ _ _ _ _ _ Hfm). unfold exec_instr.
  rewrite Hsize.
  destruct (move ins) eqn:Hmv; [reflexivity| |];
    (destruct (state_out ins =? symhalt prog); [reflexivity|]);
    cbn [cf_pos].
  - rewrite (proj2 (Z.eqb_neq _ _)
               (head_move_changes _ HeadMove_left (-1) Hpos eq_refl)).
    reflexivity.
  - rewrite (proj2 (Z.eqb_neq _ _)
               (head_move_changes _ HeadMove_right 1 Hpos eq_refl)).
    reflexivity.
Qed.

Lemma exec_instr_writes prog tape t cf ins :
  turn_buf (exec_instr prog tape t cf ins) (cf_pos cf) = char_out ins.
Proof.
  unfold exec_instr.
  destruct (move ins); [| |];
    try (destruct (state_out ins =? symhalt prog));
    cbn [turn_buf cf_buf run_tape tape_buf with_tape];
    unfold buf_set; now rewrite Z.eqb_refl.
Qed.

Lemma first_match_exists prog state c j b :
  nth_error (instructions prog) j = Some b ->
  tests_for b state c ->
  exists k ins, (k <= j)%nat /\ first_match prog state c k ins.
Proof.
  intros Hb Hm.
  destruct (scan (instructions prog) 0 state c) as [[k ins]|] eqn:Hs.
  - apply scan_some in Hs. rewrite Z.sub_0_r in Hs.
    destruct Hs as (_ & Hnth & Hmk & Hbefore).
    exists (Z.to_nat k), ins. split.
    + destruct (Nat.le_gt_cases (Z.to_nat k) j) as [Hle|Hgt]; [exact Hle|].
      specialize (Hbefore j b Hgt Hb).
      apply tests_for_false in Hbefore. contradiction.
    + split; [exact Hnth|]. split; [now apply tests_for_iff|].
      intros i a Hi Ha. apply tests_for_false. exact (Hbefore i a Hi Ha).
  - apply scan_none_unmatched in Hs.
    exfalso. apply (Hs b); [|exact Hm].
    apply nth_error_In with j. exact Hb.
Qed.

(** C2. First match in declaration order.  At every turn of a run of
    [main]'s tape, when [ins] is the instruction of least index in the
    file that tests for the current state and the symbol read, the turn
    does exactly what [ins] says: the inner loop and the whole turn equal
    the execution of [ins], and the cell under the head receives
    [char_out ins].  Hence when an instruction [b] has the same
    [(state_in, char_in)] as an earlier instruction [a], a turn at which
    [b] tests true executes an instruction that stands no later than [a],
    so before [b]: a later duplicate is never taken.  The scan agrees: it
    selects the least matching index, never the index of [b], and selects
    nothing exactly when no instruction tests true. *)
Theorem first_match_priority (prog : MillProgram) (tape : MillTape) :
  tape_size tape = MILL_TAPE_SIZE ->
  0 <= tape_pos tape < MILL_TAPE_SIZE ->
  (forall n cf k ins,
     run_n n prog tape 0 (init_config prog tape) = Next cf ->
     nth_error (instructions prog) k = Some ins ->
     (state_in ins = cf_state cf /\ char_in ins = cf_buf cf (cf_pos cf)) ->
     (forall j a, (j < k)%nat ->
                  nth_error (instructions prog) j = Some a ->
                  ~ (state_in a = cf_state cf /\
                     char_in a = cf_buf cf (cf_pos cf))) ->
     scan_turn prog tape (Z.of_nat n) cf
       = exec_instr prog tape (Z.of_nat n) cf ins /\
     run_turn prog tape (Z.of_nat n) cf
       = exec_instr prog tape (Z.of_nat n) cf ins /\
     turn_buf (run_turn prog tape (Z.of_nat n) cf) (cf_pos cf)
       = char_out ins) /\
  (forall i j a b,
     (i < j)%nat ->
     nth_error (instructions prog) i = Some a ->
     nth_error (instructions prog) j = Some b ->
     state_in a = state_in b -> char_in a = char_in b ->
     forall n cf,
       run_n n prog tape 0 (init_config prog tape) = Next cf ->
       (state_in b = cf_state cf /\ char_in b = cf_buf cf (cf_pos cf)) ->
       exists k ins,
         (k <= i)%nat /\
         nth_error (instructions prog) k = Some ins /\
         (state_in ins = cf_state cf /\
          char_in ins = cf_buf cf (cf_pos cf)) /\
         (forall j' a', (j' < k)%nat ->
                        nth_error (instructions prog) j' = Some a' ->
                        ~ (state_in a' = cf_state cf /\
                           char_in a' = cf_buf cf (cf_pos cf))) /\
         run_turn prog tape (Z.of_nat n) cf
           = exec_instr prog tape (Z.of_nat n) cf ins /\
         turn_buf (run_turn prog tape (Z.of_nat n) cf) (cf_pos cf)
           = char_out ins) /\
  (forall state c,
     match scan (instructions prog) 0 state c with
     | Some (k, ins) =>
         0 <= k /\
         nth_error (instructions prog) (Z.to_nat k) = Some ins /\
         instr_matches ins state c = true /\
         forall j a, (j < Z.to_nat k)%nat ->
                     nth_error (instructions prog) j = Some a ->
                     instr_matches a state c = false
     | None =>
         forall ins, In ins (instructions prog) ->
                     instr_matches ins state c = false
     end) /\
  (forall i j a b,
     (i < j)%nat ->
     nth_error (instructions prog) i = Some a ->
     nth_error (instructions prog) j = Some b ->
     state_in a = state_in b -> char_in a = char_in b ->
     forall n cf k ins,
       run_n n prog tape 0 (init_config prog tape) = Next cf ->
       scan (instructions prog) 0 (cf_state cf) (cf_buf cf (cf_pos cf))
         = Some (k, ins) ->
       k <> Z.of_nat j).
Proof.
  intros Hsize Hpos.
  assert (Hcfpos : forall n cf,
            run_n n prog tape 0 (init_config prog tape) = Next cf ->
            0 <= cf_pos cf < MILL_TAPE_SIZE).
  { intros n cf Hrun.
    eapply run_n_pos; [exact Hsize| |exact Hrun]. exact Hpos. }
  assert (Hfirst : forall n cf k ins,
            run_n n prog tape 0 (init_config prog tape) = Next cf ->
            first_match prog (cf_state cf) (cf_buf cf (cf_pos cf)) k ins ->
            scan_turn prog tape (Z.of_nat n) cf
              = exec_instr prog tape (Z.of_nat n) cf ins /\
            run_turn prog tape (Z.of_nat n) cf
              = exec_instr prog tape (Z.of_nat n) cf ins /\
            turn_buf (run_turn prog tape (Z.of_nat n) cf) (cf_pos cf)
              = char_out ins).
  { intros n cf k ins Hrun Hfm.
    split; [exact (scan_turn_first _ _ _ _ _ _ Hfm)|].
    assert (Hrt := run_turn_first _ _ (Z.of_nat n) _ _ _ Hsize
                     (Hcfpos n cf Hrun) Hfm).
    split; [exact Hrt|].
    rewrite Hrt. apply exec_instr_writes. }
  split; [|split; [|split]].
  - intros n cf k ins Hrun Hnth Hm Hb.
    apply (Hfirst n cf k ins Hrun).
    split; [exact Hnth|]. split; [exact Hm|exact Hb].
  - intros i j a b Hij Ha Hb Hst Hch n cf Hrun Hm.
    assert (Hma : tests_for a (cf_state cf) (cf_buf cf (cf_pos cf))).
    { destruct Hm as [Hm1 Hm2]. split; congruence. }
    destruct (first_match_exists _ _ _ _ _ Ha Hma) as (k & ins & Hk & Hfm).
    exists k, ins.
    destruct (Hfirst n cf k ins Hrun Hfm) as (_ & Hrt & Hw).
    destruct Hfm as (Hnth & Hmk & Hbefore).
    split; [exact Hk|]. split; [exact Hnth|]. split; [exact Hmk|].
    split; [exact Hbefore|]. split; [exact Hrt|exact Hw].
  - intros state c.
    destruct (scan (instructions prog) 0 state c) as [[k ins]|] eqn:Hs.
    + apply scan_some in Hs. rewrite Z.sub_0_r in Hs. exact Hs.
    + exact (proj1 (scan_none _ _ _ _) Hs).
  - intros i j a b Hij Ha Hb Hst Hch n cf k ins _ Hs ->.
    apply scan_some in Hs. rewrite Z.sub_0_r, Nat2Z.id in Hs.
    destruct Hs as (_ & Hnth & Hm & Hbefore).
    assert (ins = b) by congruence. subst ins.
    specialize (Hbefore i a Hij Ha).
    unfold instr_matches in *. rewrite Hst, Hch in Hbefore. congruence.
Qed.


(** C4. A turn at which no instruction of the program tests for the
    current state and the symbol read ends the run with the return value
    -1 and the diagnostic "unhandled state", which names the current state
    and shows the symbol read (the blank as ['_']); [*steps] is the turn's
    counter plus one.  The test [pos == prev] of the source succeeds
    exactly when no instruction of the list matched, and so does the
    diagnostic; the scan selects nothing exactly then. *)
Theorem stall_termination (prog : MillProgram) (tape : MillTape)
  (n : nat) (cf : Config) :
  tape_size tape = MILL_TAPE_SIZE ->
  0 <= tape_pos tape < MILL_TAPE_SIZE ->
  (n < Z.to_nat MILL_STEPS_MAX)%nat ->
  run_n n prog tape 0 (init_config prog tape) = Next cf ->
  let state := cf_state cf in
  let c := cf_buf cf (cf_pos cf) in
  let no_instruction_matches :=
    forall ins, In ins (instructions prog) ->
                ~ (state_in ins = state /\ char_in ins = c) in
  (no_instruction_matches ->
   mill_run prog tape =
   mkRun (-1) (with_tape tape (cf_pos cf) (cf_buf cf)) (Z.of_nat n + 1)
     (Unhandled (symbol_name prog state) (shown c))) /\
  (no_instruction_matches ->
   scan_turn prog tape (Z.of_nat n) cf = Next cf /\
   exists r, run_turn prog tape (Z.of_nat n) cf = Return r /\
             run_ret r = -1 /\
             run_outcome r = Unhandled (symbol_name prog state) (shown c)) /\
  (forall cf', scan_turn prog tape (Z.of_nat n) cf = Next cf' ->
     (cf_pos cf' = cf_pos cf <-> no_instruction_matches)) /\
  ((exists r s c', run_turn prog tape (Z.of_nat n) cf = Return r /\
                   run_outcome r = Unhandled s c') <->
   no_instruction_matches) /\
  (scan (instructions prog) 0 state c = None <-> no_instruction_matches).
Proof.
  intros Hsize Hpos Hn Hrun state c no_instruction_matches.
  assert (Hcf : 0 <= cf_pos cf < MILL_TAPE_SIZE)
    by (eapply run_n_pos; [exact Hsize| |exact Hrun]; exact Hpos).
  assert (Hiff : scan (instructions prog) 0 state c = None <->
                 no_instruction_matches)
    by exact (scan_none_unmatched prog state c).
  split; [|split; [|split; [|split]]].
  - intros Hnone. apply Hiff in Hnone. unfold mill_run.
    now rewrite (run_loop_unmatched _ _ _ _ _ _ _ Hn Hrun Hnone).
  - intros Hnone. apply Hiff in Hnone.
    assert (Hst : scan_turn prog tape (Z.of_nat n) cf = Next cf).
    { unfold scan_turn. fold state c. now rewrite Hnone. }
    split; [exact Hst|].
    unfold run_turn. rewrite Hst, Z.eqb_refl.
    eexists. split; [reflexivity|]. split; reflexivity.
  - intros cf' Hs. rewrite <- Hiff.
    now apply (scan_turn_next _ _ _ _ _ Hsize Hcf Hs).
  - rewrite <- Hiff. now apply run_turn_unhandled_iff.
  - exact Hiff.
Qed.


(** C5 (as amended). When none of the first 1,000,000 turns returns, the
    run ends with the return value 1 and the diagnostic "timed out",
    [*steps] is 1,000,000, and the tape and [tape->pos] are those the last
    turn left. *)
Theorem timeout_at_cap (prog : MillProgram) (tape : MillTape) (cf : Config) :
  run_n (Z.to_nat MILL_STEPS_MAX) prog tape 0 (init_config prog tape)
    = Next cf ->
  mill_run prog tape =
  mkRun 1 (with_tape tape (cf_pos cf) (cf_buf cf)) MILL_STEPS_MAX TimedOut.
Proof.
  intros H. unfold mill_run. now rewrite run_loop_run_n, H.
Qed.

(** C6. With the tape of [main], the head stays inside the buffer after
    every turn, up to the position [mill_run] stores on return, and the
    turn that moves left from index 0 puts the head on the last index. *)
Theorem head_wraparound (prog : MillProgram) (tape : MillTape) :
  tape_size tape = MILL_TAPE_SIZE ->
  0 <= tape_pos tape < MILL_TAPE_SIZE ->
  (forall n,
     0 <= turn_pos (run_n n prog tape 0 (init_config prog tape))
       < MILL_TAPE_SIZE) /\
  0 <= tape_pos (run_tape (mill_run prog tape)) < MILL_TAPE_SIZE /\
  (forall t cf k ins,
     cf_pos cf = 0 ->
     scan (instructions prog) 0 (cf_state cf) (cf_buf cf 0) = Some (k, ins) ->
     move ins = HeadMove_left ->
     turn_pos (run_turn prog tape t cf) = MILL_TAPE_SIZE - 1) /\
  head_move MILL_TAPE_SIZE 0 (-1) = MILL_TAPE_SIZE - 1.
Proof.
  intros Hsize Hpos.
  assert (Hn : forall n,
    0 <= turn_pos (run_n n prog tape 0 (init_config prog tape))
      < MILL_TAPE_SIZE).
  { intros n.
    destruct (run_n n prog tape 0 (init_config prog tape)) as [cf|r] eqn:Hr.
    - simpl. eapply run_n_pos; [exact Hsize| |exact Hr]. exact Hpos.
    - simpl. eapply run_n_return_pos; [exact Hsize| |exact Hr]. exact Hpos. }
  split; [exact Hn|]. split; [|split].
  - unfold mill_run. rewrite run_loop_run_n.
    specialize (Hn (Z.to_nat MILL_STEPS_MAX)).
    destruct (run_n _ _ _ _ _); exact Hn.
  - intros t cf k ins Hz Hs Hm. unfold run_turn, scan_turn.
    rewrite Hz, Hs, Hm, Hsize. simpl head_dp. cbv iota beta.
    change (head_move MILL_TAPE_SIZE 0 (-1)) with (MILL_TAPE_SIZE - 1).
    destruct (state_out ins =? symhalt prog); reflexivity.
  - reflexivity.
Qed.

(** * Properties of the symbol table *)

Lemma cstr_length a : (length (cstr a) <= length a)%nat.
Proof.
  induction a as [|c a IH]; simpl; [lia|].
  destruct (c =? 0); simpl; lia.
Qed.

Lemma cstr_idem a : cstr (cstr a) = cstr a.
Proof.
  induction a as [|c a IH]; simpl; [reflexivity|].
  destruct (c =? 0) eqn:Hc; simpl; [reflexivity|]. now rewrite Hc, IH.
Qed.

Lemma wcs_eqb_refl a : wcs_eqb a a = true.
Proof.
  induction a as [|c a IH]; simpl; [reflexivity|]. now rewrite Z.eqb_refl.
Qed.

Lemma wcs_eqb_eq a b : wcs_eqb a b = true <-> a = b.
Proof.
  revert b; induction a as [|x a IH]; intros [|y b]; simpl;
    try (split; [discriminate|discriminate]); [tauto|].
  rewrite andb_true_iff, Z.eqb_eq, IH. split.
  - intros [-> ->]. reflexivity.
  - intros H. injection H as -> ->. tauto.
Qed.

Lemma symtable_find_app a b symbol i :
  symtable_find (a ++ b) symbol i =
  match symtable_find a symbol i with
  | Some k => Some k
  | None => symtable_find b symbol (i + Z.of_nat (length a))
  end.
Proof.
  revert i; induction a as [|s a IH]; intros i; simpl.
  - now rewrite Z.add_0_r.
  - destruct (wcscmp0 s symbol); [reflexivity|].
    rewrite IH. destruct (symtable_find a symbol (i + 1)); [reflexivity|].
    f_equal. lia.
Qed.

Lemma symtable_insert_again t symbol i t' :
  symtable_insert t symbol = Ok (i, t') ->
  symtable_insert t' symbol = Ok (i, t').
Proof.
  unfold symtable_insert.
  destruct (symtable_find (symbols t) symbol 0) as [k|] eqn:Hf.
  - intros H. injection H as <- <-. now rewrite Hf.
  - destruct (sym_size t >=? MILL_STATES_MAX); [discriminate|].
    destruct (datasize t + (wcslen symbol + 1) >? symdata_max);
      [discriminate|].
    intros H. injection H as <- <-. cbn [symbols].
    rewrite symtable_find_app, Hf. cbn [symtable_find].
    unfold wcscmp0. rewrite cstr_idem, wcs_eqb_refl. reflexivity.
Qed.

Lemma tab_ext_refl t : tab_ext t t.
Proof. exists []. now rewrite app_nil_r. Qed.

Lemma tab_ext_trans a b c : tab_ext a b -> tab_ext b c -> tab_ext a c.
Proof.
  intros [m1 H1] [m2 H2]. exists (m1 ++ m2). now rewrite H2, H1, app_assoc.
Qed.

Lemma symtable_insert_inv t symbol :
  tab_inv t -> wcslen symbol <= MILL_STATE_MAX ->
  match symtable_insert t symbol with
  | Ok (_, t') => tab_inv t' /\ tab_ext t t'
  | Err e => e = SymbolLimit
  end.
Proof.
  unfold symtable_insert, tab_inv, sym_size, symdata_max.
  intros Hinv Hlen.
  destruct (symtable_find (symbols t) symbol 0).
  - split; [assumption | apply tab_ext_refl].
  - destruct (Z.geb_spec (Z.of_nat (length (symbols t))) MILL_STATES_MAX)
      as [Hfull|Hroom]; [reflexivity|].
    destruct (Z.gtb_spec (datasize t + (wcslen symbol + 1))
                (MILL_STATES_MAX * (MILL_STATE_MAX + 1))) as [Hex|Hfit].
    + exfalso. unfold MILL_STATES_MAX, MILL_STATE_MAX in *. lia.
    + cbn [symbols datasize]. split.
      * rewrite length_app. simpl length.
        unfold MILL_STATES_MAX, MILL_STATE_MAX in *. lia.
      * eexists. reflexivity.
Qed.

(** * Properties of the parser *)

Lemma parse_headmove_ok text m : parse_headmove text = Ok m -> move_ok m.
Proof.
  unfold parse_headmove, move_ok.
  destruct (negb (wcslen text =? 1)); [discriminate|].
  destruct (nth 0 text 0 =? 76); [intros H; injection H as <-; tauto|].
  destruct (nth 0 text 0 =? 82); [intros H; injection H as <-; tauto|].
  discriminate.
Qed.

Lemma parse_headmove_err text e :
  parse_headmove text = Err e -> e = InvalidMove (cstr text).
Proof.
  unfold parse_headmove.
  destruct (negb (wcslen text =? 1)); [congruence|].
  destruct (nth 0 text 0 =? 76); [discriminate|].
  destruct (nth 0 text 0 =? 82); [discriminate|]. congruence.
Qed.

Lemma wcslen_le a : wcslen a <= Z.of_nat (length a).
Proof. unfold wcslen. pose proof (cstr_length a). lia. Qed.

Section ParserProperties.

Variable iswspace : wchar_t -> bool.

Lemma lex_char_inv l c :
  lex_inv l ->
  match lex_char iswspace l c with
  | Ok l' => lex_inv l' /\ tab_ext (lx_symtable l) (lx_symtable l')
  | Err e => e <> SymbolsExhausted
  end.
Proof.
  destruct l as [st tok data tab]. unfold lex_inv, toksize.
  cbn [lx_state lx_token lx_data lx_symtable].
  intros (Htok & Htab & Hst).
  assert (Hname : wcslen tok <= MILL_STATE_MAX)
    by (pose proof (wcslen_le tok); lia).
  pose proof (symtable_insert_inv tab tok Htab Hname) as Hins.
  pose proof (tab_ext_refl tab) as Hrefl.
  unfold lex_char, toksize; cbn [lx_state lx_token lx_data lx_symtable];
  destruct st; cbn [bind];
  repeat (first
    [ progress subst
    | match goal with
      | H : _ /\ _ |- _ => destruct H
      | |- context [symtable_insert tab tok] =>
          destruct (symtable_insert tab tok) as [[? ?]|?]; cbn [bind]
      | |- context [parse_headmove ?t] =>
          let H := fresh "Hm" in
          destruct (parse_headmove t) eqn:H; cbn [bind];
          [apply parse_headmove_ok in H|apply parse_headmove_err in H]
      | |- context [if ?b then _ else _] => destruct b eqn:?
      end ]);
  cbn [lx_state lx_token lx_data lx_symtable move set_state_in set_char_in
       set_state_out set_char_out set_move];
  try discriminate;
  try (repeat split; auto; simpl length; unfold MILL_STATE_MAX in *; lia).
  all: repeat split; auto;
    try (rewrite ?length_app in *; simpl length in *;
         unfold MILL_STATE_MAX in *; lia).
  all: rewrite length_firstn; rewrite ?length_app in *; simpl length in *;
    unfold MILL_STATE_MAX in *; lia.
Qed.

Lemma lex_loop_inv l file :
  lex_inv l ->
  match lex_loop iswspace l file with
  | (Ok l', _) => lex_inv l' /\ tab_ext (lx_symtable l) (lx_symtable l')
  | (Err e, _) => e <> SymbolsExhausted
  end.
Proof.
  revert l; induction file as [|c rest IH]; intros l Hinv; simpl.
  - destruct (negb (state_num (lx_state l) <? 100));
      (split; [assumption | apply tab_ext_refl]).
  - destruct (negb (state_num (lx_state l) <? 100)).
    + split; [assumption | apply tab_ext_refl].
    + pose proof (lex_char_inv l c Hinv) as Hc.
      destruct (lex_char iswspace l c) as [l1|e]; [|exact Hc].
      destruct Hc as [Hinv1 Hext1].
      specialize (IH l1 Hinv1).
      destruct (lex_loop iswspace l1 rest) as [[l2|e] rest']; [|exact IH].
      destruct IH as [Hinv2 Hext2]. split; [assumption|].
      eapply tab_ext_trans; eassumption.
Qed.

(** What is left of the file is a suffix of it. *)
Lemma lex_loop_suffix l file :
  exists read, file = read ++ snd (lex_loop iswspace l file).
Proof.
  revert l; induction file as [|c rest IH]; intros l; simpl.
  - exists []. now destruct (negb (state_num (lx_state l) <? 100)).
  - destruct (negb (state_num (lx_state l) <? 100)).
    + now exists [].
    + destruct (lex_char iswspace l c) as [l1|e].
      * destruct (IH l1) as [read Hr]. exists (c :: read).
        simpl. now rewrite <- Hr.
      * now exists [c].
Qed.

(** From the initial state, an instruction is only delivered after at
    least one character has been read. *)
Lemma lex_loop_progress tab file l' rest i :
  lex_loop iswspace (mkLexer S0 [] instr_zero tab) file = (Ok l', rest) ->
  lex_finish l' = Ok (Some i) ->
  (length rest < length file)%nat.
Proof.
  destruct file as [|c file]; simpl.
  - intros H. injection H as <- <-. discriminate.
  - destruct (lex_char iswspace _ c) as [l1|e]; [|discriminate].
    intros H _. destruct (lex_loop_suffix l1 file) as [read Hr].
    rewrite H in Hr. simpl in Hr.
    apply (f_equal (@length _)) in Hr. rewrite length_app in Hr. lia.
Qed.

Lemma lex_finish_inv l :
  lex_inv l ->
  match lex_finish l with
  | Ok (Some i) => move_ok (move i)
  | Ok None => True
  | Err e => e <> SymbolsExhausted
  end.
Proof.
  destruct l as [st tok data tab]. unfold lex_inv, lex_finish.
  cbn [lx_state lx_token lx_data lx_symtable].
  intros (_ & _ & Hst). destruct st; try exact I; try discriminate;
    try tauto.
  destruct (parse_headmove tok) eqn:Hm; cbn [bind].
  - apply parse_headmove_ok in Hm. exact Hm.
  - apply parse_headmove_err in Hm. subst. discriminate.
Qed.

Lemma mill_parse_instruction_inv file tab :
  tab_inv tab ->
  match mill_parse_instruction iswspace file tab with
  | (Ok (oi, tab'), rest) =>
      tab_inv tab' /\ tab_ext tab tab' /\
      forall i, oi = Some i ->
                move_ok (move i) /\ (length rest < length file)%nat
  | (Err e, _) => e <> SymbolsExhausted
  end.
Proof.
  intros Htab. unfold mill_parse_instruction.
  assert (Hinit : lex_inv (mkLexer S0 [] instr_zero tab)).
  { unfold lex_inv, toksize. simpl. unfold MILL_STATE_MAX.
    repeat split; auto; lia. }
  pose proof (lex_loop_inv _ file Hinit) as Hloop.
  destruct (lex_loop iswspace _ file) as [[l'|e] rest] eqn:Hl; cbn [bind];
    [|exact Hloop].
  destruct Hloop as [Hinv Hext].
  pose proof (lex_finish_inv l' Hinv) as Hfin.
  destruct (lex_finish l') as [oi|e] eqn:Hf; cbn [bind]; [|exact Hfin].
  destruct Hinv as (_ & Htab' & _).
  split; [exact Htab'|]. split; [exact Hext|]. intros i ->. split.
  - exact Hfin.
  - eapply lex_loop_progress; eassumption.
Qed.

Lemma parse_loop_inv fuel file prog :
  prog_inv prog ->
  match parse_loop iswspace fuel file prog with
  | Some (Ok p) => prog_inv p
  | Some (Err e) => e <> SymbolsExhausted
  | None => True
  end.
Proof.
  revert file prog; induction fuel as [|fuel IH]; intros file prog Hinv;
    simpl; [exact I|].
  destruct Hinv as (Htab & Hext & Hi & Hh & Hmoves).
  pose proof (mill_parse_instruction_inv file (symtable prog) Htab) as Hp.
  destruct (mill_parse_instruction iswspace file (symtable prog))
    as [[[[instr|] tab']|e] rest]; [| |exact Hp].
  - destruct Hp as (Htab' & Hext' & Hinstr).
    destruct (instr_count prog >=? MILL_INSTR_MAX); [discriminate|].
    apply IH. unfold prog_inv. cbn [symtable syminit symhalt instructions].
    repeat split; auto.
    + eapply tab_ext_trans; eassumption.
    + apply Forall_app. split; [assumption|].
      constructor; [|constructor]. now apply Hinstr.
  - destruct Hp as (Htab' & Hext' & _).
    unfold prog_inv. cbn [symtable syminit symhalt instructions].
    repeat split; auto. eapply tab_ext_trans; eassumption.
Qed.

(** The parse loop finishes within [S (length file)] turns. *)
Lemma parse_loop_total fuel file prog :
  tab_inv (symtable prog) ->
  (length file < fuel)%nat ->
  parse_loop iswspace fuel file prog <> None.
Proof.
  revert file prog; induction fuel as [|fuel IH]; intros file prog Htab Hlt;
    [lia|]. simpl.
  pose proof (mill_parse_instruction_inv file (symtable prog) Htab) as Hp.
  destruct (mill_parse_instruction iswspace file (symtable prog))
    as [[[[instr|] tab']|e] rest]; try discriminate.
  destruct Hp as (Htab' & _ & Hinstr).
  destruct (instr_count prog >=? MILL_INSTR_MAX); [discriminate|].
  apply IH; [exact Htab'|].
  destruct (Hinstr instr eq_refl) as [_ Hlen]. lia.
Qed.

Lemma mill_parse_program_start file :
  mill_parse_program iswspace file =
  parse_loop iswspace (S (length file)) file (mkProgram symtable_base 0 1 []).
Proof. reflexivity. Qed.

Lemma prog_inv_start : prog_inv (mkProgram symtable_base 0 1 []).
Proof.
  unfold prog_inv, tab_inv. cbn. repeat split; auto; try lia.
  apply tab_ext_refl.
Qed.

Lemma mill_parse_program_total file :
  mill_parse_program iswspace file <> None.
Proof.
  rewrite mill_parse_program_start. apply parse_loop_total.
  - apply prog_inv_start.
  - lia.
Qed.

Lemma mill_parse_program_inv file :
  match mill_parse_program iswspace file with
  | Some (Ok p) => prog_inv p
  | Some (Err e) => e <> SymbolsExhausted
  | None => False
  end.
Proof.
  pose proof (mill_parse_program_total file) as Ht.
  rewrite mill_parse_program_start in *.
  pose proof (parse_loop_inv (S (length file)) file _ prog_inv_start) as Hi.
  destruct (parse_loop iswspace (S (length file)) file _) as [[p|e]|];
    auto.
Qed.

End ParserProperties.

(** The parser consults [iswspace] only on the characters of the file. *)
Lemma lex_char_agree isw isw' l c :
  isw c = isw' c -> lex_char isw l c = lex_char isw' l c.
Proof. intros H. unfold lex_char. now rewrite H. Qed.

Lemma lex_loop_agree isw isw' l file :
  (forall c, In c file -> isw c = isw' c) ->
  lex_loop isw l file = lex_loop isw' l file.
Proof.
  revert l; induction file as [|c rest IH]; intros l H; simpl.
  - reflexivity.
  - rewrite (lex_char_agree isw isw' l c) by (apply H; now left).
    destruct (negb (state_num (lx_state l) <? 100)); [reflexivity|].
    destruct (lex_char isw' l c); [|reflexivity].
    apply IH. intros c' Hc. apply H. now right.
Qed.

Lemma mill_parse_instruction_agree isw isw' file tab :
  (forall c, In c file -> isw c = isw' c) ->
  mill_parse_instruction isw file tab = mill_parse_instruction isw' file tab.
Proof.
  intros H. unfold mill_parse_instruction.
  now rewrite (lex_loop_agree isw isw' _ file H).
Qed.

Lemma mill_parse_instruction_rest isw file tab c :
  In c (snd (mill_parse_instruction isw file tab)) -> In c file.
Proof.
  unfold mill_parse_instruction.
  destruct (lex_loop_suffix isw (mkLexer S0 [] instr_zero tab) file)
    as [read Hr].
  destruct (lex_loop isw _ file) as [r rest]. simpl in *.
  intros Hc. rewrite Hr. apply in_or_app. now right.
Qed.

Lemma parse_loop_agree isw isw' fuel file prog :
  (forall c, In c file -> isw c = isw' c) ->
  parse_loop isw fuel file prog = parse_loop isw' fuel file prog.
Proof.
  revert file prog; induction fuel as [|fuel IH]; intros file prog H; simpl.
  - reflexivity.
  - rewrite <- (mill_parse_instruction_agree isw isw' file _ H).
    pose proof (mill_parse_instruction_rest isw file (symtable prog)) as Hr.
    destruct (mill_parse_instruction isw file (symtable prog))
      as [[[[instr|] tab']|e] rest]; try reflexivity.
    destruct (instr_count prog >=? MILL_INSTR_MAX); [reflexivity|].
    apply IH. intros c Hc. apply H, Hr, Hc.
Qed.

Lemma mill_parse_program_agree isw isw' file :
  (forall c, In c file -> isw c = isw' c) ->
  mill_parse_program isw file = mill_parse_program isw' file.
Proof.
  intros H. rewrite !mill_parse_program_start. now apply parse_loop_agree.
Qed.

(** ** The defensive branch of the engine *)

Lemma scan_in instrs i state c k ins :
  scan instrs i state c = Some (k, ins) -> In ins instrs.
Proof.
  intros H. apply scan_some in H. destruct H as (_ & Hn & _).
  eapply nth_error_In, Hn.
Qed.

Lemma run_turn_no_invalid prog tape t cf r :
  Forall (fun i => move_ok (move i)) (instructions prog) ->
  run_turn prog tape t cf = Return r ->
  run_outcome r <> InvalidHeadMove.
Proof.
  intros Hall. unfold run_turn, scan_turn.
  destruct (scan _ _ _ _) as [[k ins]|] eqn:Hs.
  - apply scan_in in Hs. rewrite Forall_forall in Hall.
    destruct (Hall ins Hs) as [-> | ->]; simpl.
    + destruct (state_out ins =? symhalt prog).
      * intros H. injection H as <-. discriminate.
      * destruct (_ =? _); [|discriminate].
        intros H. injection H as <-. discriminate.
    + destruct (state_out ins =? symhalt prog).
      * intros H. injection H as <-. discriminate.
      * destruct (_ =? _); [|discriminate].
        intros H. injection H as <-. discriminate.
  - destruct (_ =? _); [|discriminate].
    intros H. injection H as <-. discriminate.
Qed.

Lemma run_loop_no_invalid fuel prog tape t cf :
  Forall (fun i => move_ok (move i)) (instructions prog) ->
  run_outcome (run_loop fuel prog tape t cf) <> InvalidHeadMove.
Proof.
  intros Hall. revert t cf; induction fuel as [|fuel IH]; intros t cf; simpl.
  - discriminate.
  - destruct (run_turn prog tape t cf) as [cf'|r] eqn:Ht; [apply IH|].
    eapply run_turn_no_invalid; eassumption.
Qed.

Lemma table_built_inv t : table_built t -> tab_inv t.
Proof.
  induction 1 as [|t symbol i t' _ IH Hlen Hins].
  - unfold tab_inv. cbn. lia.
  - pose proof (symtable_insert_inv t symbol IH Hlen) as H.
    rewrite Hins in H. tauto.
Qed.

(** ** Claims about the symbol table and the parser *)

(** C7. Interning a name a second time yields the id of the first time and
    leaves the table as it is.  [mill_parse_program] interns [INIT] and
    [HALT] into the empty table, with the ids 0 and 1, before it reads the
    program text; every table that extends this one returns 0 and 1 for a
    further interning of these names; and in every program that parses,
    [syminit] and [symhalt] are 0 and 1 and the final table still returns 0
    and 1 for them. *)
Theorem interning_idempotent :
  (forall t symbol i t',
     symtable_insert t symbol = Ok (i, t') ->
     symtable_insert t' symbol = Ok (i, t')) /\
  (forall isw file,
     symtable_insert symtable_zero (L "INIT")
       = Ok (0, mkSymTable [L "INIT"] 5) /\
     symtable_insert (mkSymTable [L "INIT"] 5) (L "HALT")
       = Ok (1, symtable_base) /\
     mill_parse_program isw file =
     parse_loop isw (S (length file)) file
       (mkProgram symtable_base 0 1 [])) /\
  (forall t,
     tab_ext symtable_base t ->
     symtable_insert t (L "INIT") = Ok (0, t) /\
     symtable_insert t (L "HALT") = Ok (1, t)) /\
  (forall isw file prog,
     mill_parse_program isw file = Some (Ok prog) ->
     syminit prog = 0 /\ symhalt prog = 1 /\
     symtable_insert (symtable prog) (L "INIT") = Ok (0, symtable prog) /\
     symtable_insert (symtable prog) (L "HALT") = Ok (1, symtable prog)).
Proof.
  split; [|split; [|split]].
  - exact symtable_insert_again.
  - intros isw file. repeat split.
  - intros t [more Hext].
    split; unfold symtable_insert; rewrite Hext; reflexivity.
  - intros isw file prog Hp.
    pose proof (mill_parse_program_inv isw file) as Hinv.
    rewrite Hp in Hinv. destruct Hinv as (_ & [more Hext] & Hi & Hh & _).
    repeat split; auto; unfold symtable_insert; rewrite Hext; reflexivity.
Qed.

(** C8. Every instruction of a program that parses moves the head left or
    right, and [mill_run] on such a program never reports an invalid head
    movement. *)
Theorem parsed_moves_valid (isw : wchar_t -> bool) (file : wcs)
  (prog : MillProgram) (tape : MillTape) :
  mill_parse_program isw file = Some (Ok prog) ->
  Forall (fun i => move i = HeadMove_left \/ move i = HeadMove_right)
    (instructions prog) /\
  run_outcome (mill_run prog tape) <> InvalidHeadMove.
Proof.
  intros Hp.
  pose proof (mill_parse_program_inv isw file) as Hinv.
  rewrite Hp in Hinv. destruct Hinv as (_ & _ & _ & _ & Hmoves).
  split; [exact Hmoves|]. now apply run_loop_no_invalid.
Qed.

(** C10. In a table built by insertions of names of at most 32 characters
    that holds fewer than 1024 names, [symdata] has room for one more such
    name and its terminator, so that the insertion succeeds; such an
    insertion fails only with "symbol table limit reached"; and no parse of
    a program text fails with "symbols buffer exhausted". *)
Theorem symbols_buffer_never_exhausted :
  (forall t symbol,
     table_built t -> wcslen symbol <= MILL_STATE_MAX ->
     (sym_size t < MILL_STATES_MAX ->
      datasize t + (wcslen symbol + 1) <= symdata_max /\
      exists i t', symtable_insert t symbol = Ok (i, t')) /\
     (forall e, symtable_insert t symbol = Err e -> e = SymbolLimit)) /\
  (forall isw file e,
     mill_parse_program isw file = Some (Err e) -> e <> SymbolsExhausted).
Proof.
  split.
  - intros t symbol Hb Hlen. apply table_built_inv in Hb.
    pose proof (symtable_insert_inv t symbol Hb Hlen) as H. split.
    + intros Hroom. unfold tab_inv in Hb. split.
      * unfold symdata_max, MILL_STATES_MAX, MILL_STATE_MAX in *. lia.
      * revert H. unfold symtable_insert.
        destruct (symtable_find (symbols t) symbol 0); [eauto|].
        destruct (Z.geb_spec (sym_size t) MILL_STATES_MAX); [lia|].
        destruct (_ >? _); [discriminate | eauto].
    + intros e He. now rewrite He in H.
  - intros isw file e Hp.
    pose proof (mill_parse_program_inv isw file) as Hinv.
    now rewrite Hp in Hinv.
Qed.

(** * Properties of the tape loader *)

Lemma store_wcs_spec cs buf i j :
  store_wcs buf i cs j =
  if (i <=? j) && (j <? i + Z.of_nat (length cs))
  then nth (Z.to_nat (j - i)) cs 0 else buf j.
Proof.
  revert buf i; induction cs as [|c cs IH]; intros buf i.
  - simpl. destruct (i <=? j) eqn:H1, (j <? i + 0) eqn:H2; try reflexivity.
    lia.
  - cbn [store_wcs]. rewrite IH. unfold buf_set.
    change (length (c :: cs)) with (S (length cs)).
    destruct (Z.leb_spec (i + 1) j),
      (Z.ltb_spec j (i + 1 + Z.of_nat (length cs))), (Z.leb_spec i j),
      (Z.ltb_spec j (i + Z.of_nat (S (length cs)))); cbn [andb]; try lia.
    all: try (replace (Z.to_nat (j - i)) with (S (Z.to_nat (j - (i + 1))))
                by lia; reflexivity).
    all: destruct (Z.eqb_spec j i) as [->|]; try lia; try reflexivity.
    all: now rewrite Z.sub_diag.
Qed.


Lemma fgetws_take_length n text :
  (length (fst (fgetws_take n text)) <= length text)%nat /\
  (1 <= n -> Z.of_nat (length (fst (fgetws_take n text))) <= n - 1).
Proof.
  revert n; induction text as [|c text IH]; intros n; simpl.
  - split; [lia|]. lia.
  - destruct (Z.leb_spec n 1); simpl; [lia|].
    destruct (c =? 10); simpl; [lia|].
    specialize (IH (n - 1)).
    destruct (fgetws_take (n - 1) text) as [cs rest]. simpl in *. lia.
Qed.


Lemma tape_of_cell text i :
  tape_buf (tape_of text) i =
  if (0 <=? i) && (i <? Z.of_nat (length text))
  then nth (Z.to_nat i) text 0 else 0.
Proof.
  unfold tape_of. cbn [tape_buf with_tape]. rewrite store_wcs_spec.
  rewrite length_app, Z.sub_0_r, Z.add_0_l. simpl length.
  destruct (Z.leb_spec 0 i), (Z.ltb_spec i (Z.of_nat (length text + 1))),
    (Z.ltb_spec i (Z.of_nat (length text))); cbn [andb]; try lia;
    try reflexivity.
  - rewrite app_nth1 by lia. reflexivity.
  - rewrite app_nth2 by lia.
    replace (Z.to_nat i - length text)%nat with 0%nat by lia. reflexivity.
Qed.

(** ** The cells written by a run *)









(** * Properties of the tape printer *)

Section Render.

Variable sz : Z.
Variable pos : Z.
Variable buf : Z -> wchar_t.
Hypothesis sz_pos : 0 < sz.
Hypothesis sz_div : (sz | SIZE_MOD).

Lemma size_sub_mod x : size_sub x 1 mod sz = (x - 1) mod sz.
Proof. unfold size_sub. now apply Z.mod_mod_divide. Qed.

Lemma size_add_mod x : size_add x 1 mod sz = (x + 1) mod sz.
Proof. unfold size_add. now apply Z.mod_mod_divide. Qed.

Lemma seek_back_spec n k :
  seek_back n (mkTape sz pos buf 0) ((0 - k) mod sz) =
  (0 - least_from (fun k => buf ((0 - k) mod sz) =? 0) k n) mod sz.
Proof.
  revert k; induction n as [|n IH]; intros k; cbn [seek_back least_from].
  - reflexivity.
  - cbn [tape_buf tape_size].
    destruct (buf ((0 - k) mod sz) =? 0); [reflexivity|].
    rewrite size_sub_mod, Zminus_mod_idemp_l.
    replace (0 - k - 1) with (0 - (k + 1)) by lia. apply IH.
Qed.

Lemma seek_fwd_spec n s m :
  seek_fwd n (mkTape sz pos buf 0) ((s + m) mod sz) =
  (s + least_from (fun m => negb (buf ((s + m) mod sz) =? 0)) m n) mod sz.
Proof.
  revert m; induction n as [|n IH]; intros m; cbn [seek_fwd least_from].
  - reflexivity.
  - cbn [tape_buf tape_size].
    destruct (negb (buf ((s + m) mod sz) =? 0)); [reflexivity|].
    rewrite size_add_mod, Zplus_mod_idemp_l.
    replace (s + m + 1) with (s + (m + 1)) by lia. apply IH.
Qed.

Lemma fputws_from_spec m i :
  i + Z.of_nat m = sz ->
  fputws_from (S m) (mkTape sz pos buf 0) i = Some (nonblank_run buf i m).
Proof.
  revert i; induction m as [|m IH]; intros i Hi.
  - cbn [fputws_from nonblank_run]. unfold tape_mem.
    cbn [tape_buf tape_size _null].
    destruct (Z.ltb_spec i sz); [lia|]. reflexivity.
  - change (fputws_from (S (S m)) (mkTape sz pos buf 0) i)
      with (if tape_mem (mkTape sz pos buf 0) i =? 0 then Some []
            else option_map (cons (tape_mem (mkTape sz pos buf 0) i))
                   (fputws_from (S m) (mkTape sz pos buf 0) (i + 1))).
    rewrite (IH (i + 1)) by lia. cbn [nonblank_run option_map].
    unfold tape_mem. cbn [tape_buf tape_size _null].
    destruct (Z.ltb_spec i sz); [|lia].
    destruct (buf i =? 0); reflexivity.
Qed.

Lemma fputws_buf_spec i :
  0 <= i <= sz -> fputws_buf (mkTape sz pos buf 0) i = Some (spec_run sz buf i).
Proof.
  intros Hi. unfold fputws_buf, spec_run. cbn [tape_size].
  replace (Z.to_nat (sz + 1 - i)) with (S (Z.to_nat (sz - i))) by lia.
  apply fputws_from_spec. lia.
Qed.

Lemma print_start_spec :
  seek_fwd (Z.to_nat sz) (mkTape sz pos buf 0)
    (seek_back (Z.to_nat sz) (mkTape sz pos buf 0) 0) =
  spec_start sz buf.
Proof.
  unfold spec_start, spec_seam.
  pose proof (seek_back_spec (Z.to_nat sz) 0) as Hback.
  change ((0 - 0) mod sz) with 0 in Hback. rewrite Hback.
  set (seam := (0 - _) mod sz).
  replace seam with ((seam + 0) mod sz) at 1
    by (rewrite Z.add_0_r; apply Z.mod_mod; lia).
  apply seek_fwd_spec.
Qed.

Lemma mill_print_tape_spec file :
  mill_print_tape file (mkTape sz pos buf 0) = Some (file ++ render_spec sz buf).
Proof.
  unfold mill_print_tape, render_spec. cbn [tape_size].
  rewrite print_start_spec. cbn [tape_buf].
  assert (Hs : 0 <= spec_start sz buf < sz)
    by (unfold spec_start; apply Z.mod_pos_bound, sz_pos).
  rewrite fputws_buf_spec by lia. rewrite Z.gtb_ltb.
  destruct ((0 <? spec_start sz buf) && negb (buf 0 =? 0)).
  - rewrite fputws_buf_spec by lia. reflexivity.
  - reflexivity.
Qed.

(** An entirely blank buffer is rendered as the empty line. *)
Lemma render_spec_blank :
  (forall i, 0 <= i < sz -> buf i = 0) -> render_spec sz buf = [10].
Proof.
  intros Hb. unfold render_spec.
  assert (Hs : 0 <= spec_start sz buf < sz)
    by (unfold spec_start; apply Z.mod_pos_bound, sz_pos).
  rewrite (Hb 0) by lia. rewrite andb_false_r.
  unfold spec_run.
  replace (Z.to_nat (sz - spec_start sz buf))
    with (S (Z.to_nat (sz - spec_start sz buf - 1))) by lia.
  cbn [nonblank_run]. rewrite (Hb _ Hs). reflexivity.
Qed.

Lemma least_from_spec p k n :
  k <= least_from p k n <= k + Z.of_nat n /\
  (least_from p k n < k + Z.of_nat n -> p (least_from p k n) = true) /\
  (forall j, k <= j < least_from p k n -> p j = false).
Proof.
  revert k; induction n as [|n IH]; intros k; cbn [least_from].
  - repeat split; try lia.
  - destruct (p k) eqn:Hk.
    + repeat split; try lia. intros _. exact Hk.
    + destruct (IH (k + 1)) as (Hr & Hhit & Hmiss).
      repeat split; try lia.
      * intros H. apply Hhit. lia.
      * intros j Hj. destruct (Z.eq_dec j k) as [->|]; [exact Hk|].
        apply Hmiss. lia.
Qed.

Lemma neg_mod j : 0 < j < sz -> (0 - j) mod sz = sz - j.
Proof.
  intros Hj. replace (0 - j) with (sz - j + -1 * sz) by lia.
  rewrite Z.mod_add by lia. apply Z.mod_small. lia.
Qed.

(** The seam is the first blank cell met on the way 0, [sz-1], [sz-2],
    ... *)
Lemma spec_seam_first :
  let s := spec_seam sz buf in
  0 <= s < sz /\
  ((exists i, 0 <= i < sz /\ buf i = 0) -> buf s = 0) /\
  (s <> 0 -> buf 0 <> 0 /\ forall j, s < j < sz -> buf j <> 0).
Proof.
  unfold spec_seam. cbv zeta.
  set (p := fun k => buf ((0 - k) mod sz) =? 0).
  destruct (least_from_spec p 0 (Z.to_nat sz)) as (Hr & Hhit & Hmiss).
  set (k := least_from p 0 (Z.to_nat sz)) in *.
  rewrite Z2Nat.id, Z.add_0_l in * by lia.
  split; [apply Z.mod_pos_bound, sz_pos|].
  assert (Hcell : forall j, 0 <= j < k -> buf ((0 - j) mod sz) <> 0).
  { intros j Hj. specialize (Hmiss j Hj). unfold p in Hmiss.
    now apply Z.eqb_neq. }
  split.
  - intros (i & Hi & Hb). destruct (Z.eq_dec k sz) as [Hk|Hk].
    + exfalso. destruct (Z.eq_dec i 0) as [->|Hi0].
      * apply (Hcell 0); [lia | exact Hb].
      * apply (Hcell (sz - i)); [lia|].
        rewrite neg_mod by lia. now replace (sz - (sz - i)) with i by lia.
    + apply Z.eqb_eq. apply Hhit. lia.
  - intros Hs. destruct (Z.eq_dec k 0) as [Hk0|Hk0];
      [rewrite Hk0 in Hs; now destruct Hs|].
    destruct (Z.eq_dec k sz) as [Hk|Hk].
    { exfalso. apply Hs. rewrite Hk. replace (0 - sz) with (0 + -1 * sz) by lia.
      now rewrite Z.mod_add by lia. }
    rewrite neg_mod by lia. split.
    + apply (Hcell 0). lia.
    + intros j Hj. specialize (Hcell (sz - j)).
      rewrite neg_mod in Hcell by lia.
      replace (sz - (sz - j)) with j in Hcell by lia. apply Hcell. lia.
Qed.

(** The start is a non-blank cell unless the whole buffer is blank. *)
Lemma spec_start_nonblank :
  (exists i, 0 <= i < sz /\ buf i <> 0) -> buf (spec_start sz buf) <> 0.
Proof.
  intros (i & Hi & Hb). unfold spec_start. cbv zeta.
  set (seam := spec_seam sz buf).
  set (q := fun m => negb (buf ((seam + m) mod sz) =? 0)).
  destruct (least_from_spec q 0 (Z.to_nat sz)) as (Hr & Hhit & Hmiss).
  set (m := least_from q 0 (Z.to_nat sz)) in *.
  rewrite Z2Nat.id, Z.add_0_l in * by lia.
  destruct (Z.eq_dec m sz) as [Hm|Hm].
  - exfalso. specialize (Hmiss ((i - seam) mod sz)).
    pose proof (Z.mod_pos_bound (i - seam) sz sz_pos) as Hbound.
    unfold q in Hmiss. rewrite Zplus_mod_idemp_r in Hmiss.
    replace (seam + (i - seam)) with i in Hmiss by lia.
    rewrite (Z.mod_small i sz) in Hmiss by lia.
    apply Hb. apply Z.eqb_eq. apply negb_false_iff. apply Hmiss. lia.
  - specialize (Hhit ltac:(lia)). unfold q in Hhit.
    apply negb_true_iff in Hhit. now apply Z.eqb_neq.
Qed.

End Render.

(** ** Runs that return *)

Lemma run_n_return_add n m prog tape t cf r :
  run_n n prog tape t cf = Return r ->
  run_n (n + m) prog tape t cf = Return r.
Proof.
  revert t cf; induction n as [|n IH]; intros t cf; cbn [run_n Nat.add].
  - discriminate.
  - destruct (run_turn prog tape t cf); [apply IH | trivial].
Qed.

Lemma run_loop_return fuel n prog tape t cf r :
  (n <= fuel)%nat ->
  run_n n prog tape t cf = Return r ->
  run_loop fuel prog tape t cf = r.
Proof.
  intros Hle Hr. destruct (Nat.le_exists_sub n fuel Hle) as (m & -> & _).
  rewrite run_loop_run_n, Nat.add_comm.
  now rewrite (run_n_return_add _ m _ _ _ _ _ Hr).
Qed.

Lemma run_loop_buf fuel prog tape t cf :
  tape_buf (run_tape (run_loop fuel prog tape t cf)) =
  turn_buf (run_n fuel prog tape t cf).
Proof.
  rewrite run_loop_run_n. now destruct (run_n fuel prog tape t cf).
Qed.

Lemma tape_size_divides : (MILL_TAPE_SIZE | SIZE_MOD).
Proof. exists (2 ^ 44). reflexivity. Qed.

(** ** The scenarios *)

Lemma parse_scenario1 :
  mill_parse_program iswspace_C (L "INIT a HALT b R")
  = Some (Ok prog_scenario1).
Proof. vm_compute. reflexivity. Qed.

Lemma parse_scenario3 :
  mill_parse_program iswspace_C (L "INIT a INIT a R")
  = Some (Ok prog_scenario3).
Proof. vm_compute. reflexivity. Qed.

Lemma parse_scenario4 :
  mill_parse_program iswspace_C (L "INIT a HALT _ L")
  = Some (Ok prog_scenario4).
Proof. vm_compute. reflexivity. Qed.


Lemma read_tape_a : mill_read_tape (L "a") _Tape = Some (tape_of (L "a")).
Proof. reflexivity. Qed.

Lemma run_scenario1 :
  mill_run prog_scenario1 (tape_of (L "a")) =
  mkRun 0 (with_tape (tape_of (L "a")) 1
             (buf_set (tape_buf (tape_of (L "a"))) 0 98)) 1 Halted.
Proof.
  unfold mill_run. apply run_loop_return with (n := 1%nat).
  - unfold MILL_STEPS_MAX. lia.
  - reflexivity.
Qed.

Lemma run_scenario4 :
  mill_run prog_scenario4 (tape_of (L "a")) =
  mkRun 0 (with_tape (tape_of (L "a")) (MILL_TAPE_SIZE - 1)
             (buf_set (tape_buf (tape_of (L "a"))) 0 0)) 1 Halted.
Proof.
  unfold mill_run. apply run_loop_return with (n := 1%nat).
  - unfold MILL_STEPS_MAX. lia.
  - reflexivity.
Qed.

(** Two instructions for [(INIT, 'a')] with different outputs: the run
    takes the first, writes ['b'] and moves right. *)
Lemma run_shadowed :
  scan (instructions prog_shadowed) 0 0 97
    = Some (0, mkInstr 0 97 1 98 HeadMove_right) /\
  mill_run prog_shadowed (tape_of (L "a")) =
  mkRun 0 (with_tape (tape_of (L "a")) 1
             (buf_set (tape_buf (tape_of (L "a"))) 0 98)) 1 Halted.
Proof.
  split; [reflexivity|].
  unfold mill_run. apply run_loop_return with (n := 1%nat).
  - unfold MILL_STEPS_MAX. lia.
  - reflexivity.
Qed.

Lemma blank_scenario4 i :
  buf_set (tape_buf (tape_of (L "a"))) 0 0 i = 0.
Proof.
  unfold buf_set. destruct (Z.eqb_spec i 0); [reflexivity|].
  rewrite tape_of_cell. change (Z.of_nat (length (L "a"))) with 1.
  destruct (Z.leb_spec 0 i), (Z.ltb_spec i 1); cbn [andb]; try reflexivity.
  lia.
Qed.

Lemma main_agree isw isw' program_file tape_file :
  (forall c, In c program_file -> isw c = isw' c) ->
  main isw program_file tape_file = main isw' program_file tape_file.
Proof.
  intros H. unfold main. now rewrite (mill_parse_program_agree isw isw' _ H).
Qed.

Lemma least_from_hit p k n : p k = true -> least_from p k n = k.
Proof. intros H. destruct n; cbn [least_from]; [|rewrite H]; reflexivity. Qed.

(** ** Claims about the rendering and the scenarios *)

(** C1. Scenario 1, in every locale that classifies the characters of the
    program text as the "C" locale does: the program [INIT a HALT b R]
    parses to one instruction, the tape text [a] puts ['a'] into cell 0,
    the scan in state [INIT] on ['a'] selects that instruction, the run
    writes ['b'], moves right onto index 1, returns 0 (halted) with
    [*steps = 1], and the final tape is printed as ["b"] and a newline. *)
Theorem scenario1_end_to_end (isw : wchar_t -> bool) :
  (forall c, In c (L "INIT a HALT b R") -> isw c = iswspace_C c) ->
  let tape := tape_of (L "a") in
  let r := mill_run prog_scenario1 tape in
  mill_parse_program isw (L "INIT a HALT b R") = Some (Ok prog_scenario1) /\
  mill_read_tape (L "a") _Tape = Some tape /\
  tape_buf tape 0 = 97 /\
  scan (instructions prog_scenario1) 0 (syminit prog_scenario1) 97
    = Some (0, mkInstr 0 97 1 98 HeadMove_right) /\
  r = mkRun 0 (with_tape tape 1 (buf_set (tape_buf tape) 0 98)) 1 Halted /\
  mill_print_tape [] (run_tape r) = Some (L "b" ++ [10]) /\
  main isw (L "INIT a HALT b R") (L "a") = Some (Done r (L "b" ++ [10])).
Proof.
  intros Hisw tape r.
  assert (Hprint : mill_print_tape [] (run_tape r) = Some (L "b" ++ [10])).
  { subst r tape. rewrite run_scenario1. vm_compute. reflexivity. }
  split; [|split; [|split; [|split; [|split; [|split]]]]].
  - rewrite (mill_parse_program_agree isw iswspace_C _ Hisw).
    exact parse_scenario1.
  - exact read_tape_a.
  - reflexivity.
  - reflexivity.
  - exact run_scenario1.
  - exact Hprint.
  - rewrite (main_agree isw iswspace_C _ _ Hisw). unfold main.
    rewrite parse_scenario1, read_tape_a. fold tape. fold r.
    rewrite Hprint. subst r tape. now rewrite run_scenario1.
Qed.

(** C3. [mill_print_tape] writes what the five steps of the specification
    describe, for every content of the buffer of [main]; the seam is index
    0 when cell 0 is blank, and otherwise the first blank cell below the
    end of the array, with only non-blank cells above it; the start is a
    non-blank cell unless there is none; an entirely blank buffer is
    printed as the empty line, and this is what Scenario 4
    ([INIT a HALT _ L] on the tape [a]) prints after halting with the head
    on the last index. *)
Theorem render_algorithm :
  (forall buf pos file,
     mill_print_tape file (mkTape MILL_TAPE_SIZE pos buf 0)
     = Some (file ++ render_spec MILL_TAPE_SIZE buf)) /\
  (forall buf, buf 0 = 0 -> spec_seam MILL_TAPE_SIZE buf = 0) /\
  (forall buf,
     let seam := spec_seam MILL_TAPE_SIZE buf in
     0 <= seam < MILL_TAPE_SIZE /\
     ((exists i, 0 <= i < MILL_TAPE_SIZE /\ buf i = 0) -> buf seam = 0) /\
     (seam <> 0 ->
      buf 0 <> 0 /\ forall j, seam < j < MILL_TAPE_SIZE -> buf j <> 0)) /\
  (forall buf,
     (exists i, 0 <= i < MILL_TAPE_SIZE /\ buf i <> 0) ->
     buf (spec_start MILL_TAPE_SIZE buf) <> 0) /\
  (forall buf,
     (forall i, 0 <= i < MILL_TAPE_SIZE -> buf i = 0) ->
     render_spec MILL_TAPE_SIZE buf = [10]) /\
  (forall isw,
     (forall c, In c (L "INIT a HALT _ L") -> isw c = iswspace_C c) ->
     exists r,
       main isw (L "INIT a HALT _ L") (L "a") = Some (Done r [10]) /\
       run_outcome r = Halted /\ run_steps r = 1 /\
       tape_pos (run_tape r) = MILL_TAPE_SIZE - 1 /\
       forall i, tape_buf (run_tape r) i = 0).
Proof.
  assert (Hpos : 0 < MILL_TAPE_SIZE) by reflexivity.
  split; [|split; [|split; [|split; [|split]]]].
  - intros buf pos file.
    apply mill_print_tape_spec; [exact Hpos | exact tape_size_divides].
  - intros buf H0. unfold spec_seam.
    rewrite least_from_hit; [reflexivity|]. cbv beta.
    change ((0 - 0) mod MILL_TAPE_SIZE) with 0. now rewrite H0.
  - intros buf. apply spec_seam_first. exact Hpos.
  - intros buf. apply spec_start_nonblank. exact Hpos.
  - intros buf Hb. now apply render_spec_blank.
  - intros isw Hisw. eexists. split; [|split; [|split; [|split]]].
    + rewrite (main_agree isw iswspace_C _ _ Hisw). unfold main.
      rewrite parse_scenario4, read_tape_a, run_scenario4.
      cbn [run_ret run_tape negb Z.eqb].
      unfold with_tape at 1. cbn [tape_size _null tape_of with_tape _Tape].
      rewrite mill_print_tape_spec
        by (exact Hpos || exact tape_size_divides).
      rewrite render_spec_blank;
        [reflexivity | exact Hpos | intros i _; apply blank_scenario4].
    + reflexivity.
    + reflexivity.
    + reflexivity.
    + intros i. apply blank_scenario4.
Qed.

(** ** The machine that never stops *)

Lemma forever_turn tape t cf :
  tape_size tape = MILL_TAPE_SIZE ->
  cf_state cf = 0 ->
  (forall i, cf_buf cf i = 97 \/ cf_buf cf i = 0) ->
  0 <= cf_pos cf < MILL_TAPE_SIZE ->
  exists cf',
    run_turn prog_forever tape t cf = Next cf' /\
    cf_state cf' = 0 /\
    (forall i, cf_buf cf' i = 97 \/ cf_buf cf' i = 0) /\
    0 <= cf_pos cf' < MILL_TAPE_SIZE.
Proof.
  intros Hsize Hst Hbuf Hpos.
  pose proof (head_move_changes (cf_pos cf) HeadMove_right 1 Hpos eq_refl)
    as Hch.
  apply Z.eqb_neq in Hch.
  assert (Hset : forall v, v = 97 \/ v = 0 ->
            forall i, buf_set (cf_buf cf) (cf_pos cf) v i = 97 \/
                      buf_set (cf_buf cf) (cf_pos cf) v i = 0).
  { intros v Hv i. unfold buf_set. destruct (i =? cf_pos cf); auto. }
  unfold run_turn, scan_turn. rewrite Hst, Hsize.
  destruct (Hbuf (cf_pos cf)) as [-> | ->];
    cbn [scan instructions prog_forever instr_matches state_in char_in
         state_out char_out move head_dp symhalt Z.eqb Pos.eqb andb cf_pos];
    rewrite Hch; eexists; (split; [reflexivity|]);
    cbn [cf_state cf_buf cf_pos];
    (split; [reflexivity|]); (split; [apply Hset; auto|]);
    apply head_move_range; reflexivity.
Qed.

Lemma forever_runs tape n t cf :
  tape_size tape = MILL_TAPE_SIZE ->
  cf_state cf = 0 ->
  (forall i, cf_buf cf i = 97 \/ cf_buf cf i = 0) ->
  0 <= cf_pos cf < MILL_TAPE_SIZE ->
  exists cf', run_n n prog_forever tape t cf = Next cf'.
Proof.
  intros Hsize. revert t cf; induction n as [|n IH]; intros t cf Hst Hbuf Hpos.
  - now exists cf.
  - cbn [run_n].
    destruct (forever_turn tape t cf Hsize Hst Hbuf Hpos)
      as (cf1 & -> & Hst1 & Hbuf1 & Hpos1).
    now apply IH.
Qed.

Lemma tape_a_cells i :
  tape_buf (tape_of (L "a")) i = 97 \/ tape_buf (tape_of (L "a")) i = 0.
Proof.
  rewrite tape_of_cell. change (Z.of_nat (length (L "a"))) with 1.
  destruct (Z.leb_spec 0 i), (Z.ltb_spec i 1); cbn [andb]; auto.
  replace i with 0 by lia. now left.
Qed.

(** ** The tape filled to the last cell *)






(** ** Claims about the written region and the step cap *)



(** C5, the example of the claim fails: [INIT a INIT a R] on the tape [a]
    does not run into the step cap; its second turn reads the blank cell 1,
    for which there is no instruction, and the run ends as a stall with
    [*steps = 2]. *)
Lemma selfloop_stalls :
  exists r,
    main iswspace_C (L "INIT a INIT a R") (L "a") = Some (RunFailed r) /\
    r = mill_run prog_scenario3 (tape_of (L "a")) /\
    run_ret r = -1 /\
    run_outcome r = Unhandled (L "INIT") 95 /\
    run_steps r = 2 /\
    run_outcome r <> TimedOut /\ run_steps r <> MILL_STEPS_MAX.
Proof.
  assert (Hrun : mill_run prog_scenario3 (tape_of (L "a")) =
            mkRun (-1)
              (with_tape (tape_of (L "a")) 1
                 (buf_set (tape_buf (tape_of (L "a"))) 0 97))
              2 (Unhandled (L "INIT") 95)).
  { unfold mill_run. apply run_loop_return with (n := 2%nat).
    - unfold MILL_STEPS_MAX. lia.
    - reflexivity. }
  eexists. split; [|split; [reflexivity|]].
  - unfold main. rewrite parse_scenario3, read_tape_a, Hrun.
    cbn [run_ret negb Z.eqb]. now rewrite <- Hrun.
  - rewrite Hrun. repeat split; discriminate.
Qed.

(** ** Instances

    Each statement with premises, applied to a concrete program and
    tape. *)

(** C1 in the "C" locale. *)
Lemma scenario1_end_to_end_witness :
  (forall c, In c (L "INIT a HALT b R") -> iswspace_C c = iswspace_C c) /\
  main iswspace_C (L "INIT a HALT b R") (L "a")
  = Some (Done (mill_run prog_scenario1 (tape_of (L "a"))) (L "b" ++ [10])).
Proof.
  split; [reflexivity|].
  apply (scenario1_end_to_end iswspace_C). reflexivity.
Defined.

(** C4 on Scenario 2: [INIT a HALT b R] on the tape [x] stalls at the first
    turn. *)
Lemma first_match_priority_witness :
  tape_size (tape_of (L "a")) = MILL_TAPE_SIZE /\
  0 <= tape_pos (tape_of (L "a")) < MILL_TAPE_SIZE /\
  nth_error (instructions prog_shadowed) 1
  = Some (mkInstr 0 97 1 99 HeadMove_left) /\
  run_turn prog_shadowed (tape_of (L "a")) 0
    (init_config prog_shadowed (tape_of (L "a")))
  = exec_instr prog_shadowed (tape_of (L "a")) 0
      (init_config prog_shadowed (tape_of (L "a")))
      (mkInstr 0 97 1 98 HeadMove_right) /\
  turn_buf (run_turn prog_shadowed (tape_of (L "a")) 0
              (init_config prog_shadowed (tape_of (L "a")))) 0 = 98.
Proof.
  assert (H1 : tape_size (tape_of (L "a")) = MILL_TAPE_SIZE) by reflexivity.
  assert (H2 : 0 <= tape_pos (tape_of (L "a")) < MILL_TAPE_SIZE)
    by (split; [reflexivity | reflexivity]).
  split; [exact H1|]. split; [exact H2|]. split; [reflexivity|].
  exact (proj2 (proj1 (first_match_priority prog_shadowed (tape_of (L "a"))
                         H1 H2)
                  0%nat (init_config prog_shadowed (tape_of (L "a")))
                  0%nat (mkInstr 0 97 1 98 HeadMove_right)
                  eq_refl eq_refl (conj eq_refl eq_refl)
                  (fun j a Hj _ _ => Nat.nlt_0_r j Hj))).
Defined.

Lemma stall_termination_witness :
  tape_size (tape_of (L "x")) = MILL_TAPE_SIZE /\
  0 <= tape_pos (tape_of (L "x")) < MILL_TAPE_SIZE /\
  (0 < Z.to_nat MILL_STEPS_MAX)%nat /\
  run_n 0 prog_scenario1 (tape_of (L "x")) 0
    (init_config prog_scenario1 (tape_of (L "x")))
  = Next (init_config prog_scenario1 (tape_of (L "x"))) /\
  (forall ins, In ins (instructions prog_scenario1) ->
               ~ (state_in ins = 0 /\ char_in ins = 120)) /\
  mill_run prog_scenario1 (tape_of (L "x")) =
  mkRun (-1) (tape_of (L "x")) 1 (Unhandled (L "INIT") 120).
Proof.
  assert (H1 : tape_size (tape_of (L "x")) = MILL_TAPE_SIZE) by reflexivity.
  assert (H2 : 0 <= tape_pos (tape_of (L "x")) < MILL_TAPE_SIZE)
    by (split; [reflexivity | reflexivity]).
  assert (H3 : (0 < Z.to_nat MILL_STEPS_MAX)%nat)
    by (unfold MILL_STEPS_MAX; lia).
  assert (H4 : forall ins, In ins (instructions prog_scenario1) ->
                           ~ (state_in ins = 0 /\ char_in ins = 120)).
  { intros ins [<-|[]] [_ Hc]. discriminate Hc. }
  repeat (split; [assumption || reflexivity|]).
  exact (proj1 (stall_termination prog_scenario1 (tape_of (L "x")) 0
                  (init_config prog_scenario1 (tape_of (L "x")))
                  H1 H2 H3 eq_refl) H4).
Defined.

(** C5 on the machine that runs to the right for ever. *)
Lemma timeout_at_cap_witness :
  exists cf,
    run_n (Z.to_nat MILL_STEPS_MAX) prog_forever (tape_of (L "a")) 0
      (init_config prog_forever (tape_of (L "a"))) = Next cf /\
    mill_run prog_forever (tape_of (L "a")) =
    mkRun 1 (with_tape (tape_of (L "a")) (cf_pos cf) (cf_buf cf))
      MILL_STEPS_MAX TimedOut.
Proof.
  destruct (forever_runs (tape_of (L "a")) (Z.to_nat MILL_STEPS_MAX) 0
              (init_config prog_forever (tape_of (L "a")))
              eq_refl eq_refl tape_a_cells
              (conj (Z.le_refl 0) eq_refl)) as [cf Hcf].
  exists cf. split; [exact Hcf|].
  apply (timeout_at_cap prog_forever (tape_of (L "a")) cf). exact Hcf.
Defined.

(** C6 on Scenario 4, whose only step moves left from index 0. *)
Lemma head_wraparound_witness :
  tape_size (tape_of (L "a")) = MILL_TAPE_SIZE /\
  0 <= tape_pos (tape_of (L "a")) < MILL_TAPE_SIZE /\
  0 <= tape_pos (run_tape (mill_run prog_scenario4 (tape_of (L "a"))))
    < MILL_TAPE_SIZE.
Proof.
  assert (H1 : tape_size (tape_of (L "a")) = MILL_TAPE_SIZE) by reflexivity.
  assert (H2 : 0 <= tape_pos (tape_of (L "a")) < MILL_TAPE_SIZE)
    by (split; [reflexivity | reflexivity]).
  split; [exact H1|]. split; [exact H2|].
  apply (head_wraparound prog_scenario4 (tape_of (L "a")) H1 H2).
Defined.

(** C8 on the program of Scenario 1. *)
Lemma parsed_moves_valid_witness :
  mill_parse_program iswspace_C (L "INIT a HALT b R")
    = Some (Ok prog_scenario1) /\
  run_outcome (mill_run prog_scenario1 (tape_of (L "a"))) <> InvalidHeadMove.
Proof.
  assert (H : mill_parse_program iswspace_C (L "INIT a HALT b R")
              = Some (Ok prog_scenario1)) by (vm_compute; reflexivity).
  split; [exact H|].
  apply (parsed_moves_valid iswspace_C (L "INIT a HALT b R")
           prog_scenario1 (tape_of (L "a")) H).
Defined.


(** * Further properties of the symbol table *)

Lemma symtable_find_some names symbol i k :
  symtable_find names symbol i = Some k ->
  i <= k /\
  exists s, nth_error names (Z.to_nat (k - i)) = Some s /\
            cstr s = cstr symbol /\
            forall j s', (j < Z.to_nat (k - i))%nat ->
                         nth_error names j = Some s' ->
                         cstr s' <> cstr symbol.
Proof.
  revert i; induction names as [|a names IH]; intros i; simpl.
  - discriminate.
  - unfold wcscmp0 at 1. destruct (wcs_eqb (cstr a) (cstr symbol)) eqn:Ha.
    + intros H. injection H as <-. rewrite Z.sub_diag. simpl.
      split; [lia|]. exists a. apply wcs_eqb_eq in Ha.
      repeat split; auto. intros j s' Hj. lia.
    + intros H. destruct (IH _ H) as (Hle & s & Hnth & Hs & Hbefore).
      split; [lia|]. exists s.
      replace (Z.to_nat (k - i)) with (S (Z.to_nat (k - (i + 1)))) by lia.
      simpl. repeat split; auto.
      intros [|j] s' Hj Hs'; simpl in Hs'.
      * injection Hs' as <-. intros Heq. apply wcs_eqb_eq in Heq. congruence.
      * apply (Hbefore j); [lia | assumption].
Qed.

Lemma symtable_find_none names symbol i :
  symtable_find names symbol i = None <->
  forall s, In s names -> cstr s <> cstr symbol.
Proof.
  revert i; induction names as [|a names IH]; intros i; simpl.
  - split; [intros _ s [] | reflexivity].
  - unfold wcscmp0 at 1. destruct (wcs_eqb (cstr a) (cstr symbol)) eqn:Ha.
    + split; [discriminate|]. intros H. apply wcs_eqb_eq in Ha.
      now destruct (H a (or_introl eq_refl)).
    + rewrite IH. split.
      * intros H s [<-|Hin]; [|now apply H].
        intros Heq. apply wcs_eqb_eq in Heq. congruence.
      * intros H s Hin. apply H. now right.
Qed.

Lemma symtable_insert_index (t : SymTable) (symbol : wcs) (i : Z)
  (t' : SymTable) :
  symtable_insert t symbol = Ok (i, t') ->
  0 <= i < sym_size t' /\
  (exists s, nth_error (symbols t') (Z.to_nat i) = Some s /\
             cstr s = cstr symbol) /\
  (forall j s', (j < Z.to_nat i)%nat ->
                nth_error (symbols t') j = Some s' ->
                cstr s' <> cstr symbol).
Proof.
  unfold symtable_insert, sym_size.
  destruct (symtable_find (symbols t) symbol 0) as [k|] eqn:Hf.
  - intros H. injection H as <- <-.
    apply symtable_find_some in Hf. rewrite Z.sub_0_r in Hf.
    destruct Hf as (Hk & s & Hnth & Hs & Hbefore).
    assert (Hlt : (Z.to_nat k < length (symbols t))%nat)
      by (apply nth_error_Some; congruence).
    split; [lia|]. split; [now exists s | exact Hbefore].
  - destruct (Z.of_nat (length (symbols t)) >=? MILL_STATES_MAX);
      [discriminate|].
    destruct (_ >? _); [discriminate|].
    intros H. injection H as <- <-. cbn [symbols].
    rewrite length_app, Nat2Z.id. simpl length. split; [lia|]. split.
    + exists (cstr symbol). rewrite nth_error_app2 by lia.
      rewrite Nat.sub_diag. split; [reflexivity | apply cstr_idem].
    + intros j s' Hj Hs'. rewrite nth_error_app1 in Hs' by exact Hj.
      apply nth_error_In in Hs'.
      exact (proj1 (symtable_find_none _ _ _) Hf s' Hs').
Qed.

(** X1. The id a successful insertion returns is an index of the table it
    leaves, the name stored there is the inserted C string, and no smaller
    index holds that name. *)
Theorem symtable_insert_lookup (t : SymTable) (symbol : wcs) (i : Z)
  (t' : SymTable) :
  symtable_insert t symbol = Ok (i, t') ->
  0 <= i < sym_size t' /\
  (exists s, nth_error (symbols t') (Z.to_nat i) = Some s /\
             cstr s = cstr symbol) /\
  (forall j s', (j < Z.to_nat i)%nat ->
                nth_error (symbols t') j = Some s' ->
                cstr s' <> cstr symbol).
Proof.
  pose proof (symtable_insert_index t symbol i t') as H.
  exact H.
Qed.

Lemma symtable_insert_appends (t : SymTable) (symbol : wcs) (i : Z)
  (t' : SymTable) :
  symtable_insert t symbol = Ok (i, t') ->
  (forall k s, nth_error (symbols t) k = Some s ->
               nth_error (symbols t') k = Some s) /\
  sym_size t <= sym_size t' <= sym_size t + 1 /\
  (sym_size t' = sym_size t + 1 <-> i = sym_size t) /\
  (sym_size t' = sym_size t -> t' = t).
Proof.
  intros H. pose proof (symtable_insert_index _ _ _ _ H) as (Hi & _ & _).
  revert H Hi. unfold symtable_insert, sym_size.
  destruct (symtable_find (symbols t) symbol 0) as [k|] eqn:Hf.
  - intros H Hi. injection H as <- <-. repeat split; auto; lia.
  - destruct (Z.of_nat (length (symbols t)) >=? MILL_STATES_MAX);
      [discriminate|].
    destruct (_ >? _); [discriminate|].
    intros H Hi. injection H as <- <-. cbn [symbols] in *.
    rewrite length_app in *. simpl length in *. repeat split; try lia.
    intros k s Hk. rewrite nth_error_app1; [exact Hk|].
    apply nth_error_Some. congruence.
Qed.

(** X2. A successful insertion only appends: every id of the old table
    keeps its name, the table grows by at most one name, and it grows
    exactly when the returned id is the old size. *)
Theorem symtable_insert_stable (t : SymTable) (symbol : wcs) (i : Z)
  (t' : SymTable) :
  symtable_insert t symbol = Ok (i, t') ->
  (forall k s, nth_error (symbols t) k = Some s ->
               nth_error (symbols t') k = Some s) /\
  sym_size t <= sym_size t' <= sym_size t + 1 /\
  (sym_size t' = sym_size t + 1 <-> i = sym_size t) /\
  (sym_size t' = sym_size t -> t' = t).
Proof.
  pose proof (symtable_insert_appends t symbol i t') as H.
  exact H.
Qed.

Lemma table_built_facts t :
  table_built t ->
  NoDup (symbols t) /\
  Forall (fun s => cstr s = s /\ Z.of_nat (length s) <= MILL_STATE_MAX)
    (symbols t) /\
  sym_size t <= MILL_STATES_MAX.
Proof.
  induction 1 as [|t symbol i t' _ IH Hlen Hins].
  - cbn. repeat split; [constructor | constructor | unfold sym_size; cbn].
    unfold MILL_STATES_MAX. lia.
  - destruct IH as (Hnd & Hall & Hsize). revert Hins.
    unfold symtable_insert.
    destruct (symtable_find (symbols t) symbol 0) as [k|] eqn:Hf.
    + intros H. injection H as <- <-. auto.
    + destruct (Z.geb_spec (sym_size t) MILL_STATES_MAX) as [|Hroom];
        [discriminate|].
      destruct (_ >? _); [discriminate|].
      intros Hq. injection Hq as <- <-. cbn [symbols]. repeat split.
      * apply NoDup_app; repeat split; auto.
        -- constructor; [intros [] | constructor].
        -- intros s Hs [<-|[]].
           apply (proj1 (symtable_find_none _ _ _) Hf _ Hs).
           rewrite Forall_forall in Hall. now destruct (Hall _ Hs) as [-> _].
      * apply Forall_app. split; [exact Hall|].
        constructor; [|constructor]. split; [apply cstr_idem|exact Hlen].
      * unfold sym_size in *. cbn [symbols]. rewrite length_app.
        simpl length. lia.
Qed.

(** X3. In a table built by insertions the names are pairwise distinct,
    and two names interned one after the other receive the same id exactly
    when they are the same C string. *)
Theorem symtable_ids_injective (t : SymTable) (a b : wcs) (i j : Z)
  (t1 t2 : SymTable) :
  table_built t ->
  wcslen a <= MILL_STATE_MAX ->
  symtable_insert t a = Ok (i, t1) ->
  symtable_insert t1 b = Ok (j, t2) ->
  NoDup (symbols t2) /\ (i = j <-> cstr a = cstr b).
Proof.
  intros Hb Hlen Ha Hb2.
  assert (Hb1 : table_built t1) by (eapply built_insert; eassumption).
  pose proof (symtable_insert_index _ _ _ _ Ha) as (Hi & (sa & Hsa & Ea) & _).
  pose proof (symtable_insert_index _ _ _ _ Hb2)
    as (Hj & (sb & Hsb & Eb) & Hfirst).
  pose proof (symtable_insert_appends _ _ _ _ Hb2) as (Hkeep & _).
  apply Hkeep in Hsa.
  assert (Hnd2 : NoDup (symbols t2)).
  { revert Hb2. unfold symtable_insert.
    destruct (table_built_facts t1 Hb1) as (Hnd & Hall & _).
    destruct (symtable_find (symbols t1) b 0) as [k|] eqn:Hf.
    - intros H. now injection H as <- <-.
    - destruct (_ >=? _); [discriminate|].
      destruct (_ >? _); [discriminate|].
      intros H. injection H as <- <-. cbn [symbols].
      apply NoDup_app; repeat split; auto.
      + constructor; [intros [] | constructor].
      + intros s Hs [<-|[]].
        apply (proj1 (symtable_find_none _ _ _) Hf _ Hs).
        rewrite Forall_forall in Hall. now destruct (Hall _ Hs) as [-> _]. }
  split; [exact Hnd2|]. split.
  - intros <-. congruence.
  - intros Hab.
    destruct (Z.lt_trichotomy i j) as [Hlt|[Heq|Hgt]]; [|exact Heq|].
    + exfalso. apply (Hfirst (Z.to_nat i) sa); [lia|exact Hsa|congruence].
    + exfalso. revert Hb2. unfold symtable_insert.
      destruct (symtable_find (symbols t1) b 0) as [k|] eqn:Hf.
      * intros H. injection H as -> <-.
        apply symtable_find_some in Hf. rewrite Z.sub_0_r in Hf.
        destruct Hf as (_ & s & Hs & _ & _).
        pose proof (symtable_insert_index _ _ _ _ Ha) as (_ & _ & Hfa).
        pose proof (symtable_insert_again _ _ _ _ Ha) as Hagain.
        pose proof (symtable_insert_index _ _ _ _ Hagain) as (_ & _ & Hfa1).
        apply (Hfa1 (Z.to_nat j) s); [lia|exact Hs|congruence].
      * destruct (_ >=? _); [discriminate|].
        destruct (_ >? _); [discriminate|].
        intros H. injection H as <- <-. unfold sym_size in *. lia.
Qed.

(** X4. The arrays of the table never overflow: a table built by
    insertions of names of at most 32 characters holds at most 1024 names
    of at most 32 characters each, none with a terminator inside, in at
    most 1024 * 33 cells of [symdata]. *)
Theorem symtable_within_bounds (t : SymTable) :
  table_built t ->
  sym_size t <= MILL_STATES_MAX /\
  0 <= datasize t <= symdata_max /\
  Forall (fun s => Z.of_nat (length s) <= MILL_STATE_MAX /\ ~ In 0 s)
    (symbols t).
Proof.
  intros Hb. destruct (table_built_facts t Hb) as (_ & Hall & Hsize).
  pose proof (table_built_inv t Hb) as Hinv. unfold tab_inv in Hinv.
  split; [exact Hsize|]. split.
  - split.
    + clear Hall Hsize Hinv. induction Hb as [|t symbol i t' _ IH _ Hins].
      * cbn. lia.
      * revert Hins. unfold symtable_insert.
        destruct (symtable_find _ _ _); [intros H; now injection H as <- <-|].
        destruct (_ >=? _); [discriminate|].
        destruct (_ >? _); [discriminate|].
        intros H. injection H as <- <-. cbn [datasize].
        unfold wcslen. lia.
    + unfold symdata_max, MILL_STATES_MAX, MILL_STATE_MAX in *.
      unfold sym_size in *. nia.
  - eapply Forall_impl; [|exact Hall]. cbv beta. intros s [Hc Hl].
    split; [exact Hl|]. clear Hl. revert Hc. induction s as [|c s IH]; simpl.
    + intros _ [].
    + destruct (Z.eqb_spec c 0); [discriminate|].
      intros Hs. injection Hs as Hs.
      intros [Hc|Hin]; [congruence | exact (IH Hs Hin)].
Qed.

(** * Further properties of [parse_headmove] *)

Lemma parse_headmove_cases (text : wcs) :
  (parse_headmove text = Ok HeadMove_left <-> cstr text = [76]) /\
  (parse_headmove text = Ok HeadMove_right <-> cstr text = [82]) /\
  parse_headmove text <> Ok HeadMove_none /\
  (cstr text <> [76] -> cstr text <> [82] ->
   parse_headmove text = Err (InvalidMove (cstr text))).
Proof.
  unfold parse_headmove, wcslen.
  destruct text as [|c text]; cbn [cstr nth].
  - cbn. repeat split; intros; try discriminate; try congruence.
  - destruct (Z.eqb_spec c 0) as [->|Hc].
    + cbn. repeat split; intros; try discriminate; try congruence.
    + cbn [length]. destruct (cstr text) as [|d rest]; cbn [length].
      * change (negb (Z.of_nat 1 =? 1)) with false. cbv iota.
        destruct (Z.eqb_spec c 76) as [->|H76];
          [|destruct (Z.eqb_spec c 82) as [->|H82]];
          repeat split; intros; try discriminate; try congruence.
      * destruct (Z.eqb_spec (Z.of_nat (S (S (length rest)))) 1) as [E|E];
          [lia|]. cbn [negb].
        repeat split; intros; try discriminate; try congruence.
Qed.

(** X5. [parse_headmove] accepts exactly the C strings ["L"] and ["R"];
    what follows a terminator in the array is not looked at.  Every other
    text is rejected with "invalid move instruction". *)
Theorem parse_headmove_accepts (text : wcs) :
  (parse_headmove text = Ok HeadMove_left <-> cstr text = [76]) /\
  (parse_headmove text = Ok HeadMove_right <-> cstr text = [82]) /\
  parse_headmove text <> Ok HeadMove_none /\
  (cstr text <> [76] -> cstr text <> [82] ->
   parse_headmove text = Err (InvalidMove (cstr text))).
Proof.
  pose proof (parse_headmove_cases text) as H.
  exact H.
Qed.

(** * Further properties of the engine *)

Lemma run_loop_returns_at fuel n prog tape t cf0 cf r :
  (n < fuel)%nat ->
  run_n n prog tape t cf0 = Next cf ->
  run_turn prog tape (t + Z.of_nat n) cf = Return r ->
  run_loop fuel prog tape t cf0 = r.
Proof.
  intros Hlt Hrun Hturn.
  destruct (Nat.le_exists_sub (S n) fuel Hlt) as (m & -> & _).
  replace (m + S n)%nat with (n + S m)%nat by lia.
  rewrite (run_loop_add _ _ _ _ _ _ _ Hrun). cbn [run_loop].
  now rewrite Hturn.
Qed.

Lemma run_turn_return_shape prog tape t cf r :
  run_turn prog tape t cf = Return r ->
  run_steps r = t + 1 /\
  tape_size (run_tape r) = tape_size tape /\
  _null (run_tape r) = _null tape /\
  ((run_ret r = 0 /\ run_outcome r = Halted) \/
   (run_ret r = -1 /\ run_outcome r = InvalidHeadMove) \/
   (run_ret r = -1 /\ exists s c, run_outcome r = Unhandled s c)).
Proof.
  unfold run_turn, scan_turn.
  destruct (scan _ _ _ _) as [[k ins]|].
  - destruct (head_dp (move ins)).
    + destruct (state_out ins =? symhalt prog).
      * intros H. injection H as <-. cbn.
        repeat (split; [reflexivity|]). auto.
      * destruct (_ =? _); [|discriminate].
        intros H. injection H as <-. cbn.
        repeat (split; [reflexivity|]). eauto 8.
    + intros H. injection H as <-. cbn.
        repeat (split; [reflexivity|]). auto.
  - destruct (_ =? _); [|discriminate].
    intros H. injection H as <-. cbn.
        repeat (split; [reflexivity|]). eauto 8.
Qed.

Lemma run_loop_shape fuel prog tape t cf :
  let r := run_loop fuel prog tape t cf in
  tape_size (run_tape r) = tape_size tape /\
  _null (run_tape r) = _null tape /\
  ((run_ret r = 1 /\ run_outcome r = TimedOut /\
    run_steps r = MILL_STEPS_MAX) \/
   (t + 1 <= run_steps r <= t + Z.of_nat fuel /\
    ((run_ret r = 0 /\ run_outcome r = Halted) \/
     (run_ret r = -1 /\ run_outcome r = InvalidHeadMove) \/
     (run_ret r = -1 /\ exists s c, run_outcome r = Unhandled s c)))).
Proof.
  revert t cf; induction fuel as [|fuel IH]; intros t cf; cbn [run_loop].
  - cbv zeta. split; [reflexivity|]. split; [reflexivity|]. left.
    repeat split.
  - destruct (run_turn prog tape t cf) as [cf'|r] eqn:Ht.
    + specialize (IH (t + 1) cf'). cbv zeta in IH.
      destruct IH as (H1 & H2 & [H3|[H3 H4]]); cbv zeta; auto.
      split; [exact H1|]. split; [exact H2|]. right. split; [lia|exact H4].
    + destruct (run_turn_return_shape _ _ _ _ _ Ht) as (H1 & H2 & H3 & H4).
      cbv zeta. split; [exact H2|]. split; [exact H3|]. right.
      split; [lia | exact H4].
Qed.

Lemma mill_run_shape (prog : MillProgram) (tape : MillTape) :
  let r := mill_run prog tape in
  1 <= run_steps r <= MILL_STEPS_MAX /\
  tape_size (run_tape r) = tape_size tape /\
  _null (run_tape r) = _null tape /\
  (run_ret r = 0 <-> run_outcome r = Halted) /\
  (run_ret r = 1 <-> run_outcome r = TimedOut) /\
  (run_ret r = -1 <->
   run_outcome r = InvalidHeadMove \/
   exists s c, run_outcome r = Unhandled s c) /\
  (run_outcome r = TimedOut -> run_steps r = MILL_STEPS_MAX).
Proof.
  unfold mill_run.
  pose proof (run_loop_shape (Z.to_nat MILL_STEPS_MAX) prog tape 0
                (init_config prog tape)) as H.
  cbv zeta in *. destruct H as (H1 & H2 & H3).
  set (r := run_loop _ _ _ _ _) in *.
  rewrite Z2Nat.id in H3 by (unfold MILL_STEPS_MAX; lia).
  split; [|split; [exact H1|split; [exact H2|]]].
  - destruct H3 as [(_ & _ & ->)|[Hs _]]; unfold MILL_STEPS_MAX in *; lia.
  - destruct H3 as [(Hr & Ho & Hs)|(_ & [[Hr Ho]|[[Hr Ho]|(Hr & s & c & Ho)]])];
      rewrite Hr, Ho; repeat split; intros; try discriminate; try lia;
      try congruence; auto;
      try match goal with
          | H : _ \/ _ |- _ => destruct H as [H|(? & ? & H)]; discriminate
          end.
    right. eauto.
Qed.

(** X6. What [mill_run] returns, for every program and every tape of
    [main]'s size with the head on it: between 1 and 1,000,000 steps; a
    tape of the same size; the return value 0 exactly for a halt, 1
    exactly for the timeout (then with 1,000,000 steps) and -1 exactly for
    a stall or an invalid head movement. *)
Theorem mill_run_result (prog : MillProgram) (tape : MillTape) :
  tape_size tape = MILL_TAPE_SIZE ->
  0 <= tape_pos tape < MILL_TAPE_SIZE ->
  let r := mill_run prog tape in
  1 <= run_steps r <= MILL_STEPS_MAX /\
  tape_size (run_tape r) = tape_size tape /\
  _null (run_tape r) = _null tape /\
  (run_ret r = 0 <-> run_outcome r = Halted) /\
  (run_ret r = 1 <-> run_outcome r = TimedOut) /\
  (run_ret r = -1 <->
   run_outcome r = InvalidHeadMove \/
   exists s c, run_outcome r = Unhandled s c) /\
  (run_outcome r = TimedOut -> run_steps r = MILL_STEPS_MAX).
Proof.
  intros _ _.
  pose proof (mill_run_shape prog tape) as H.
  exact H.
Qed.

(** X7. The halting step, on a tape of [main]'s size with the head on it:
    when the instruction selected at a turn within the cap moves left or
    right and leads to [HALT], the run returns 0 at that turn with the
    cell written and the head moved; [*steps] is the turn's counter plus
    one. *)
Theorem halting_step (prog : MillProgram) (tape : MillTape) (n : nat)
  (cf : Config) (k : Z) (ins : MillInstr) (dp : Z) :
  tape_size tape = MILL_TAPE_SIZE ->
  0 <= tape_pos tape < MILL_TAPE_SIZE ->
  (n < Z.to_nat MILL_STEPS_MAX)%nat ->
  run_n n prog tape 0 (init_config prog tape) = Next cf ->
  scan (instructions prog) 0 (cf_state cf) (cf_buf cf (cf_pos cf))
    = Some (k, ins) ->
  head_dp (move ins) = Some dp ->
  state_out ins = symhalt prog ->
  mill_run prog tape =
  mkRun 0
    (with_tape tape (head_move MILL_TAPE_SIZE (cf_pos cf) dp)
       (buf_set (cf_buf cf) (cf_pos cf) (char_out ins)))
    (Z.of_nat n + 1) Halted /\
  0 <= tape_pos (run_tape (mill_run prog tape)) < MILL_TAPE_SIZE.
Proof.
  intros Hsize Hpos Hn Hrun Hscan Hdp Hhalt.
  assert (Hcf : 0 <= cf_pos cf < MILL_TAPE_SIZE)
    by (eapply run_n_pos; [exact Hsize| |exact Hrun]; exact Hpos).
  assert (Hret : mill_run prog tape =
    mkRun 0
      (with_tape tape (head_move MILL_TAPE_SIZE (cf_pos cf) dp)
         (buf_set (cf_buf cf) (cf_pos cf) (char_out ins)))
      (Z.of_nat n + 1) Halted).
  { unfold mill_run.
    apply (run_loop_returns_at _ _ _ _ _ _ _ _ Hn Hrun).
    unfold run_turn, scan_turn.
    rewrite Hscan, Hdp, Hhalt, Z.eqb_refl, Hsize.
    reflexivity. }
  split; [exact Hret|].
  rewrite Hret. cbn [run_tape tape_pos with_tape].
  apply head_move_range. unfold MILL_TAPE_SIZE. lia.
Qed.

(** X8. The defensive branch: when the instruction selected at a turn has
    no head movement, the run returns -1 with "invalid head movement" at
    that turn; the cell has been written already and the head stays. *)
Theorem invalid_move_step (prog : MillProgram) (tape : MillTape) (n : nat)
  (cf : Config) (k : Z) (ins : MillInstr) :
  (n < Z.to_nat MILL_STEPS_MAX)%nat ->
  run_n n prog tape 0 (init_config prog tape) = Next cf ->
  scan (instructions prog) 0 (cf_state cf) (cf_buf cf (cf_pos cf))
    = Some (k, ins) ->
  move ins = HeadMove_none ->
  mill_run prog tape =
  mkRun (-1)
    (with_tape tape (cf_pos cf)
       (buf_set (cf_buf cf) (cf_pos cf) (char_out ins)))
    (Z.of_nat n + 1) InvalidHeadMove.
Proof.
  intros Hn Hrun Hscan Hmove. unfold mill_run.
  apply (run_loop_returns_at _ _ _ _ _ _ _ _ Hn Hrun).
  unfold run_turn, scan_turn. rewrite Hscan, Hmove. reflexivity.
Qed.

(** X9. No turn is taken in the state [HALT]: when [syminit] differs from
    [symhalt], every configuration the loop goes on with is in another
    state, so an instruction with [state_in = HALT] is selected at no
    turn. *)
Theorem halt_state_never_scanned (prog : MillProgram) (tape : MillTape)
  (n : nat) (cf : Config) :
  syminit prog <> symhalt prog ->
  run_n n prog tape 0 (init_config prog tape) = Next cf ->
  cf_state cf <> symhalt prog /\
  forall k ins,
    scan (instructions prog) 0 (cf_state cf) (cf_buf cf (cf_pos cf))
      = Some (k, ins) ->
    state_in ins <> symhalt prog.
Proof.
  intros Hne Hrun.
  assert (Hst : cf_state cf <> symhalt prog).
  { revert Hrun. generalize 0 at 1.
    assert (H0 : cf_state (init_config prog tape) <> symhalt prog)
      by exact Hne.
    revert H0. generalize (init_config prog tape).
    induction n as [|n IH]; intros cf0 H0 t; cbn [run_n].
    - intros H. now injection H as <-.
    - destruct (run_turn prog tape t cf0) as [cf1|r] eqn:Ht; [|discriminate].
      apply IH. revert Ht. unfold run_turn, scan_turn.
      destruct (scan _ _ _ _) as [[k ins]|].
      + destruct (head_dp (move ins)); [|discriminate].
        destruct (Z.eqb_spec (state_out ins) (symhalt prog)); [discriminate|].
        destruct (_ =? _); [discriminate|].
        intros H. now injection H as <-.
      + destruct (_ =? _); [discriminate|].
        intros H. now injection H as <-. }
  split; [exact Hst|]. intros k ins Hs. apply scan_some in Hs.
  destruct Hs as (_ & _ & Hm & _). unfold instr_matches in Hm.
  apply andb_true_iff in Hm. destruct Hm as [Hm _].
  apply Z.eqb_eq in Hm. congruence.
Qed.

Lemma run_turn_frame prog tape t cf i :
  i <> cf_pos cf ->
  turn_buf (run_turn prog tape t cf) i = cf_buf cf i.
Proof.
  intros Hi. apply Z.eqb_neq in Hi.
  assert (Hset : forall v, buf_set (cf_buf cf) (cf_pos cf) v i = cf_buf cf i)
    by (intros v; unfold buf_set; now rewrite Hi).
  unfold run_turn, scan_turn.
  destruct (scan _ _ _ _) as [[k ins]|].
  - destruct (head_dp (move ins)) as [dp|]; [|apply Hset].
    destruct (state_out ins =? symhalt prog); [apply Hset|].
    cbn [cf_pos cf_state cf_buf].
    destruct (head_move (tape_size tape) (cf_pos cf) dp =? cf_pos cf);
      apply Hset.
  - rewrite Z.eqb_refl. reflexivity.
Qed.

Lemma run_n_frame n prog tape t cf i :
  (forall m cfm, (m < n)%nat -> run_n m prog tape t cf = Next cfm ->
                 cf_pos cfm <> i) ->
  turn_buf (run_n n prog tape t cf) i = cf_buf cf i.
Proof.
  revert t cf; induction n as [|n IH]; intros t cf Hvis; cbn [run_n].
  - reflexivity.
  - assert (H0 : i <> cf_pos cf).
    { intros ->. apply (Hvis 0%nat cf); [lia | reflexivity | reflexivity]. }
    pose proof (run_turn_frame prog tape t cf i H0) as Hf.
    destruct (run_turn prog tape t cf) as [cf1|r] eqn:Ht.
    + cbn [turn_buf] in Hf. rewrite <- Hf. apply IH.
      intros m cfm Hm Hr.
      apply (Hvis (S m) cfm); [lia|]. cbn [run_n]. now rewrite Ht.
    + exact Hf.
Qed.

(** X10. Cells the head never stood on keep their content: on a tape of
    [main]'s size with the head on it, a cell on which the head is at none
    of the turns of the run, which are those below the step cap, holds in
    the returned tape what it held before the run. *)
Theorem unvisited_cells_unchanged (prog : MillProgram) (tape : MillTape)
  (i : Z) :
  tape_size tape = MILL_TAPE_SIZE ->
  0 <= tape_pos tape < MILL_TAPE_SIZE ->
  (forall m cfm,
     (m < Z.to_nat MILL_STEPS_MAX)%nat ->
     run_n m prog tape 0 (init_config prog tape) = Next cfm ->
     cf_pos cfm <> i) ->
  tape_buf (run_tape (mill_run prog tape)) i = tape_buf tape i.
Proof.
  intros _ _ Hvis. unfold mill_run. rewrite run_loop_buf.
  rewrite run_n_frame; [reflexivity|].
  intros m cfm Hm. apply Hvis. exact Hm.
Qed.

(** * Further properties of the tape loader and the tape printer *)

Lemma fgetws_take_split n file :
  file = fst (fgetws_take n file) ++ snd (fgetws_take n file).
Proof.
  revert n; induction file as [|c file IH]; intros n; simpl.
  - reflexivity.
  - destruct (n <=? 1); [reflexivity|].
    destruct (c =? 10); [reflexivity|].
    specialize (IH (n - 1)).
    destruct (fgetws_take (n - 1) file) as [cs rest]. simpl in *.
    now rewrite <- IH.
Qed.

(** A newline is the last character read, if it is read at all. *)
Lemma fgetws_take_newline n file i :
  (S i < length (fst (fgetws_take n file)))%nat ->
  nth i (fst (fgetws_take n file)) 0 <> 10.
Proof.
  revert n i; induction file as [|c file IH]; intros n i; simpl.
  - lia.
  - destruct (n <=? 1); [simpl; lia|].
    destruct (Z.eqb_spec c 10) as [->|Hc]; [simpl; lia|].
    specialize (IH (n - 1)).
    destruct (fgetws_take (n - 1) file) as [cs rest]. simpl in *.
    destruct i as [|i]; [intros _; exact Hc|].
    intros Hi. apply IH. lia.
Qed.

(** The reading stops behind a newline, at the end of the file, or when
    [n - 1] characters are read. *)
Lemma fgetws_take_stop n file :
  1 <= n ->
  let cs := fst (fgetws_take n file) in
  (exists cs', cs = cs' ++ [10]) \/
  snd (fgetws_take n file) = [] \/
  Z.of_nat (length cs) = n - 1.
Proof.
  revert n; induction file as [|c file IH]; intros n Hn; simpl.
  - auto.
  - destruct (Z.leb_spec n 1); [simpl; right; right; lia|].
    destruct (Z.eqb_spec c 10) as [->|Hc]; [simpl; left; now exists []|].
    specialize (IH (n - 1) ltac:(lia)).
    destruct (fgetws_take (n - 1) file) as [cs rest]. simpl in *.
    destruct IH as [[cs' ->]|[->|Hl]].
    + left. now exists (c :: cs').
    + auto.
    + right. right. lia.
Qed.

Lemma fgetws_take_nonempty n c file :
  1 < n -> (1 <= length (fst (fgetws_take n (c :: file))))%nat.
Proof.
  intros Hn. cbn [fgetws_take].
  destruct (Z.leb_spec n 1); [lia|].
  destruct (c =? 10); [cbn; lia|].
  destruct (fgetws_take (n - 1) file). cbn. lia.
Qed.

Lemma mill_read_tape_cells (file : wcs) :
  (mill_read_tape file _Tape = None <-> file = []) /\
  forall tape,
    mill_read_tape file _Tape = Some tape ->
    let cs := fst (fgetws_take MILL_TAPE_SIZE file) in
    let len := Z.of_nat (length cs) in
    1 <= len <= MILL_TAPE_SIZE - 1 /\
    file = cs ++ snd (fgetws_take MILL_TAPE_SIZE file) /\
    ((exists cs', cs = cs' ++ [10]) \/
     snd (fgetws_take MILL_TAPE_SIZE file) = [] \/
     len = MILL_TAPE_SIZE - 1) /\
    (forall i, (S i < length cs)%nat -> nth i cs 0 <> 10) /\
    (forall i, 0 <= i < len -> tape_buf tape i = nth (Z.to_nat i) cs 0) /\
    (forall i, ~ 0 <= i < len -> tape_buf tape i = 0) /\
    tape_pos tape = 0 /\ tape_size tape = MILL_TAPE_SIZE /\ _null tape = 0.
Proof.
  split.
  - unfold mill_read_tape, fgetws. cbn [tape_size tape_buf _Tape].
    change (MILL_TAPE_SIZE <=? 0) with false. cbv iota.
    destruct file as [|c file]; [tauto|].
    destruct (fgetws_take MILL_TAPE_SIZE (c :: file)). cbn [fst].
    split; discriminate.
  - intros tape Hread cs len.
    assert (Hlen : 1 <= len <= MILL_TAPE_SIZE - 1).
    { subst len cs. pose proof (fgetws_take_length MILL_TAPE_SIZE file) as [_ Hl].
      specialize (Hl ltac:(unfold MILL_TAPE_SIZE; lia)). split; [|exact Hl].
      revert Hread. unfold mill_read_tape, fgetws.
      cbn [tape_size tape_buf _Tape].
      destruct file as [|c file]; [discriminate|]. intros _.
      pose proof (fgetws_take_nonempty MILL_TAPE_SIZE c file
                    ltac:(unfold MILL_TAPE_SIZE; lia)).
      lia. }
    revert Hread. unfold mill_read_tape, fgetws.
    cbn [tape_size tape_buf tape_pos _Tape].
    change (MILL_TAPE_SIZE <=? 0) with false. cbv iota.
    destruct file as [|c file]; [discriminate|].
    pose proof (fgetws_take_split MILL_TAPE_SIZE (c :: file)) as Hsplit.
    pose proof (fgetws_take_stop MILL_TAPE_SIZE (c :: file)
                  ltac:(unfold MILL_TAPE_SIZE; lia)) as Hstop.
    pose proof (fgetws_take_newline MILL_TAPE_SIZE (c :: file)) as Hnl.
    fold cs in Hsplit, Hstop, Hnl. cbv zeta in Hstop. fold cs in Hstop.
    fold len in Hstop.
    destruct (fgetws_take MILL_TAPE_SIZE (c :: file)) as [cs0 rest] eqn:Hf.
    cbn [fst snd] in *. subst cs. intros H. injection H as <-.
    cbn [tape_buf tape_pos tape_size _null with_tape _Tape].
    split; [exact Hlen|]. split; [exact Hsplit|]. split; [exact Hstop|].
    split; [exact Hnl|]. split; [|split; [|repeat split]].
    + intros i Hi. rewrite store_wcs_spec, length_app, Z.sub_0_r.
      simpl length.
      destruct (Z.leb_spec 0 i), (Z.ltb_spec i (0 + Z.of_nat (length cs0 + 1)));
        cbn [andb]; try lia.
      apply app_nth1. lia.
    + intros i Hi. rewrite store_wcs_spec, length_app, Z.sub_0_r.
      simpl length.
      destruct (Z.leb_spec 0 i), (Z.ltb_spec i (0 + Z.of_nat (length cs0 + 1)));
        cbn [andb]; try reflexivity.
      rewrite app_nth2 by lia.
      replace (Z.to_nat i - length cs0)%nat with 0%nat by lia. reflexivity.
Qed.

(** X11. [mill_read_tape] fails exactly on the empty file.  Otherwise the
    tape holds the first line of the file from index 0, its newline
    included, at most [MILL_TAPE_SIZE - 1] characters of it, every other
    cell is blank, and the head and the size are as before. *)
Theorem mill_read_tape_content (file : wcs) :
  (mill_read_tape file _Tape = None <-> file = []) /\
  forall tape,
    mill_read_tape file _Tape = Some tape ->
    let cs := fst (fgetws_take MILL_TAPE_SIZE file) in
    let len := Z.of_nat (length cs) in
    1 <= len <= MILL_TAPE_SIZE - 1 /\
    file = cs ++ snd (fgetws_take MILL_TAPE_SIZE file) /\
    ((exists cs', cs = cs' ++ [10]) \/
     snd (fgetws_take MILL_TAPE_SIZE file) = [] \/
     len = MILL_TAPE_SIZE - 1) /\
    (forall i, (S i < length cs)%nat -> nth i cs 0 <> 10) /\
    (forall i, 0 <= i < len -> tape_buf tape i = nth (Z.to_nat i) cs 0) /\
    (forall i, ~ 0 <= i < len -> tape_buf tape i = 0) /\
    tape_pos tape = 0 /\ tape_size tape = MILL_TAPE_SIZE /\ _null tape = 0.
Proof.
  pose proof (mill_read_tape_cells file) as H.
  exact H.
Qed.

Lemma nonblank_run_text buf i cs n :
  (forall j, (j < length cs)%nat -> buf (i + Z.of_nat j) = nth j cs 0) ->
  ~ In 0 cs ->
  (buf (i + Z.of_nat (length cs)) = 0 \/ n = length cs) ->
  (length cs <= n)%nat ->
  nonblank_run buf i n = cs.
Proof.
  revert i n; induction cs as [|c cs IH]; intros i n Hcells Hnz Hend Hn.
  - simpl in Hend. rewrite Z.add_0_r in Hend.
    destruct n as [|n]; [reflexivity|]. cbn [nonblank_run].
    destruct Hend as [->|Hn0]; [reflexivity | discriminate].
  - destruct n as [|n]; [simpl in Hn; lia|]. cbn [nonblank_run].
    pose proof (Hcells 0%nat ltac:(simpl; lia)) as H0.
    rewrite Z.add_0_r in H0. simpl in H0. rewrite H0.
    destruct (Z.eqb_spec c 0) as [->|Hc]; [exfalso; apply Hnz; now left|].
    f_equal. apply IH.
    + intros j Hj. specialize (Hcells (S j) ltac:(simpl; lia)).
      simpl nth in Hcells. rewrite <- Hcells. f_equal. lia.
    + intros Hin. apply Hnz. now right.
    + destruct Hend as [He|He].
      * left. rewrite <- He. f_equal. simpl length. lia.
      * right. simpl in He. lia.
    + simpl in Hn. lia.
Qed.

Lemma least_from_first p k n r :
  (forall j, k <= j < r -> p j = false) -> p r = true ->
  k <= r < k + Z.of_nat n ->
  least_from p k n = r.
Proof.
  intros Hmiss Hhit Hr.
  destruct (least_from_spec p k n) as (Hb & Hh & Hm).
  destruct (Z.lt_trichotomy (least_from p k n) r) as [Hlt|[Heq|Hgt]].
  - specialize (Hh ltac:(lia)). rewrite Hmiss in Hh by lia. discriminate.
  - exact Heq.
  - rewrite Hm in Hhit by lia. discriminate.
Qed.

Section RenderCases.

Variable sz : Z.
Variable buf : Z -> wchar_t.
Hypothesis sz_big : 1 < sz.

Lemma render_start_origin :
  buf 0 <> 0 -> buf (sz - 1) = 0 -> spec_start sz buf = 0.
Proof.
  intros H0 Hlast. unfold spec_start.
  assert (Hseam : spec_seam sz buf = sz - 1).
  { unfold spec_seam. rewrite (least_from_first _ 0 _ 1).
    - apply neg_mod; lia.
    - intros j Hj. replace j with 0 by lia.
      change ((0 - 0) mod sz) with 0. now apply Z.eqb_neq.
    - rewrite neg_mod by lia. now apply Z.eqb_eq.
    - lia. }
  rewrite Hseam. cbv zeta. rewrite (least_from_first _ 0 _ 1).
  - replace (sz - 1 + 1) with (0 + 1 * sz) by lia.
    now rewrite Z.mod_add by lia.
  - intros j Hj. replace j with 0 by lia. rewrite Z.add_0_r.
    rewrite Z.mod_small by lia. now rewrite Hlast.
  - replace (sz - 1 + 1) with (0 + 1 * sz) by lia.
    rewrite Z.mod_add by lia. change (0 mod sz) with 0.
    apply negb_true_iff. now apply Z.eqb_neq.
  - lia.
Qed.

Lemma render_spec_origin :
  buf 0 <> 0 -> buf (sz - 1) = 0 ->
  render_spec sz buf = spec_run sz buf 0 ++ [10].
Proof.
  intros H0 Hlast. unfold render_spec.
  rewrite (render_start_origin H0 Hlast). reflexivity.
Qed.

Lemma render_spec_joined l :
  0 < l < sz ->
  buf 0 <> 0 -> buf (sz - l - 1) = 0 ->
  (forall j, sz - l <= j < sz -> buf j <> 0) ->
  render_spec sz buf = spec_run sz buf (sz - l) ++ spec_run sz buf 0 ++ [10].
Proof.
  intros Hl H0 Hblank Hleft. unfold render_spec.
  assert (Hseam : spec_seam sz buf = sz - l - 1).
  { unfold spec_seam.
    destruct (Z.eq_dec (l + 1) sz) as [Hfull|Hfull].
    - (* the blank cell is index 0: excluded by [buf 0 <> 0] *)
      exfalso. apply H0. rewrite <- Hblank. f_equal. lia.
    - rewrite (least_from_first _ 0 _ (l + 1)).
      + rewrite neg_mod by lia. lia.
      + intros j Hj. apply Z.eqb_neq.
        destruct (Z.eq_dec j 0) as [->|Hj0]; [exact H0|].
        rewrite neg_mod by lia. apply Hleft. lia.
      + rewrite neg_mod by lia. apply Z.eqb_eq.
        now replace (sz - (l + 1)) with (sz - l - 1) by lia.
      + lia. }
  assert (Hstart : spec_start sz buf = sz - l).
  { unfold spec_start. rewrite Hseam. cbv zeta.
    rewrite (least_from_first _ 0 _ 1).
    - replace (sz - l - 1 + 1) with (sz - l) by lia.
      apply Z.mod_small. lia.
    - intros j Hj. replace j with 0 by lia. rewrite Z.add_0_r.
      assert (sz - l - 1 <> -1) by lia.
      destruct (Z.eq_dec (l + 1) sz) as [Hfull|Hfull].
      + exfalso. apply H0. rewrite <- Hblank. f_equal. lia.
      + rewrite Z.mod_small by lia. now rewrite Hblank.
    - replace (sz - l - 1 + 1) with (sz - l) by lia.
      rewrite Z.mod_small by lia. apply negb_true_iff, Z.eqb_neq.
      apply Hleft. lia.
    - lia. }
  rewrite Hstart.
  destruct (Z.ltb_spec 0 (sz - l)); [|lia].
  destruct (Z.eqb_spec (buf 0) 0); [contradiction|]. reflexivity.
Qed.

End RenderCases.

Lemma mill_print_tape_main file pos buf :
  mill_print_tape file (mkTape MILL_TAPE_SIZE pos buf 0)
  = Some (file ++ render_spec MILL_TAPE_SIZE buf).
Proof.
  apply mill_print_tape_spec; [reflexivity | exact tape_size_divides].
Qed.

Lemma spec_run_text buf i cs :
  0 <= i -> i + Z.of_nat (length cs) <= MILL_TAPE_SIZE ->
  (forall j, (j < length cs)%nat -> buf (i + Z.of_nat j) = nth j cs 0) ->
  ~ In 0 cs ->
  (buf (i + Z.of_nat (length cs)) = 0 \/
   i + Z.of_nat (length cs) = MILL_TAPE_SIZE) ->
  spec_run MILL_TAPE_SIZE buf i = cs.
Proof.
  intros Hi Hfit Hcells Hnz Hend. unfold spec_run.
  apply nonblank_run_text; auto; [|lia].
  destruct Hend as [He|He]; [now left | right; lia].
Qed.

(** X12. Load and print without a run in between: when the first line of
    the tape file holds no terminator character, [mill_print_tape] on the
    tape [mill_read_tape] delivers writes that line, with the newline it
    may end in, followed by a newline. *)
Theorem load_print_roundtrip (file out : wcs) (tape : MillTape) :
  mill_read_tape file _Tape = Some tape ->
  ~ In 0 (fst (fgetws_take MILL_TAPE_SIZE file)) ->
  mill_print_tape out tape
  = Some (out ++ fst (fgetws_take MILL_TAPE_SIZE file) ++ [10]).
Proof.
  intros Hread Hnz.
  destruct (mill_read_tape_cells file) as [_ Hc].
  specialize (Hc tape Hread). cbv zeta in Hc.
  destruct Hc as (Hlen & _ & _ & _ & Hin & Hout & Hpos & Hsize & Hnull).
  destruct tape as [size pos buf nul]. cbn in Hin, Hout, Hpos, Hsize, Hnull.
  subst size nul. rewrite mill_print_tape_main. f_equal. f_equal.
  set (cs := fst (fgetws_take MILL_TAPE_SIZE file)) in *.
  assert (H0 : buf 0 <> 0).
  { rewrite Hin by lia. intros Hz. apply Hnz. rewrite <- Hz.
    apply nth_In. lia. }
  assert (Hlast : buf (MILL_TAPE_SIZE - 1) = 0).
  { destruct (Z.eq_dec (Z.of_nat (length cs)) MILL_TAPE_SIZE); [lia|].
    apply Hout. lia. }
  rewrite render_spec_origin; [|reflexivity|exact H0|exact Hlast].
  f_equal. apply spec_run_text; try lia; auto.
  - intros j Hj. rewrite Hin by lia. f_equal. lia.
  - left. apply Hout. lia.
Qed.

(** X13. The two segments are joined: when the cells at the end of the
    array hold [left] behind a blank cell and the cells from index 0 hold
    [right] before a blank cell, the tape is printed as [left], [right]
    and a newline, whatever the head position. *)
Theorem print_joins_segments (buf : Z -> wchar_t) (pos : Z)
  (out left right : wcs) :
  left <> [] -> right <> [] -> ~ In 0 left -> ~ In 0 right ->
  Z.of_nat (length left) + Z.of_nat (length right) < MILL_TAPE_SIZE ->
  (forall j, (j < length right)%nat -> buf (Z.of_nat j) = nth j right 0) ->
  buf (Z.of_nat (length right)) = 0 ->
  (forall j, (j < length left)%nat ->
     buf (MILL_TAPE_SIZE - Z.of_nat (length left) + Z.of_nat j)
     = nth j left 0) ->
  buf (MILL_TAPE_SIZE - Z.of_nat (length left) - 1) = 0 ->
  mill_print_tape out (mkTape MILL_TAPE_SIZE pos buf 0)
  = Some (out ++ left ++ right ++ [10]).
Proof.
  intros Hl Hr Hnzl Hnzr Hfit Hright Hrend Hleft Hlend.
  rewrite mill_print_tape_main. f_equal. f_equal.
  assert (Hll : (0 < length left)%nat)
    by (destruct left; simpl; [congruence|lia]).
  assert (Hrl : (0 < length right)%nat)
    by (destruct right; simpl; [congruence|lia]).
  assert (H0 : buf 0 <> 0).
  { pose proof (Hright 0%nat Hrl) as H00. change (Z.of_nat 0) with 0 in H00.
    rewrite H00. intros Hz. apply Hnzr. rewrite <- Hz. now apply nth_In. }
  rewrite (render_spec_joined MILL_TAPE_SIZE buf ltac:(reflexivity)
             (Z.of_nat (length left))); auto; try lia.
  - rewrite (spec_run_text buf _ left); try lia; auto.
    rewrite (spec_run_text buf 0 right); try lia; auto.
  - intros j Hj.
    replace j with (MILL_TAPE_SIZE - Z.of_nat (length left)
                    + Z.of_nat (Z.to_nat (j - (MILL_TAPE_SIZE
                                               - Z.of_nat (length left)))))
      by lia.
    rewrite Hleft by lia. intros Hz. apply Hnzl. rewrite <- Hz.
    apply nth_In. lia.
Qed.

(** X14. Output stops at the first blank cell: when cell 0 starts the
    non-blank cells [text], the cell behind them is blank and the last
    cell of the array is blank, only [text] and a newline are written;
    what the cells in between hold does not reach the output. *)
Theorem print_truncates_at_blank (buf : Z -> wchar_t) (pos : Z)
  (out text : wcs) :
  text <> [] -> ~ In 0 text ->
  Z.of_nat (length text) < MILL_TAPE_SIZE ->
  (forall j, (j < length text)%nat -> buf (Z.of_nat j) = nth j text 0) ->
  buf (Z.of_nat (length text)) = 0 ->
  buf (MILL_TAPE_SIZE - 1) = 0 ->
  mill_print_tape out (mkTape MILL_TAPE_SIZE pos buf 0)
  = Some (out ++ text ++ [10]).
Proof.
  intros Hne Hnz Hfit Hcells Hend Hlast.
  rewrite mill_print_tape_main. f_equal. f_equal.
  assert (Hl : (0 < length text)%nat)
    by (destruct text; simpl; [congruence|lia]).
  assert (H0 : buf 0 <> 0).
  { pose proof (Hcells 0%nat Hl) as H00. change (Z.of_nat 0) with 0 in H00.
    rewrite H00. intros Hz. apply Hnz. rewrite <- Hz. now apply nth_In. }
  rewrite render_spec_origin; [|reflexivity|exact H0|exact Hlast].
  f_equal. apply spec_run_text; try lia; auto.
Qed.

(** * Further properties of [main] *)



(** * Further properties of the parser *)

Lemma wcscmp0_not_comment a t : a <> 47 -> wcscmp0 (a :: t) (L "//") = false.
Proof.
  intros Ha. unfold wcscmp0. change (cstr (L "//")) with [47; 47].
  cbn [cstr]. destruct (a =? 0); [reflexivity|]. cbn [wcs_eqb].
  now rewrite (proj2 (Z.eqb_neq a 47) Ha).
Qed.

Section Lexing.

Variable isw : wchar_t -> bool.

Lemma lex_loop_cons l c file :
  state_num (lx_state l) < 100 ->
  lex_loop isw l (c :: file) =
  match lex_char isw l c with
  | Ok l' => lex_loop isw l' file
  | Err e => (Err e, file)
  end.
Proof.
  intros H. cbn [lex_loop].
  now rewrite (proj2 (Z.ltb_lt _ _) H).
Qed.

Lemma lex_skip st tok d tab ws file :
  skipping st = true ->
  Forall (fun c => isw c = true) ws ->
  lex_loop isw (mkLexer st tok d tab) (ws ++ file)
  = lex_loop isw (mkLexer st tok d tab) file.
Proof.
  intros Hst Hws. induction Hws as [|w ws Hw _ IH]; [reflexivity|].
  cbn [app]. rewrite lex_loop_cons by (destruct st; cbn; lia || discriminate).
  destruct st; try discriminate; unfold lex_char;
    cbn [lx_state lx_token lx_data lx_symtable]; rewrite Hw; cbn [negb];
    exact IH.
Qed.

Lemma lex_start st st' tok d tab c file :
  (st, st') = (S0, S1) \/ (st, st') = (S2, S3) \/ (st, st') = (S4, S5) \/
  (st, st') = (S6, S7) \/ (st, st') = (S8, S9) ->
  isw c = false ->
  lex_loop isw (mkLexer st tok d tab) (c :: file)
  = lex_loop isw (mkLexer st' (tok ++ [c]) d tab) file.
Proof.
  intros Hst Hc.
  destruct Hst as [H|[H|[H|[H|H]]]]; injection H as -> ->;
    rewrite lex_loop_cons by (cbn; lia); unfold lex_char;
    cbn [lx_state lx_token lx_data lx_symtable]; rewrite Hc; reflexivity.
Qed.

Lemma lex_name1 a tok cs d tab file :
  a <> 47 ->
  Forall (fun c => isw c = false) cs ->
  Z.of_nat (length (a :: tok ++ cs)) <= MILL_STATE_MAX ->
  lex_loop isw (mkLexer S1 (a :: tok) d tab) (cs ++ file)
  = lex_loop isw (mkLexer S1 (a :: tok ++ cs) d tab) file.
Proof.
  intros Ha Hcs. revert tok.
  induction Hcs as [|c cs Hc _ IH]; intros tok Hlen.
  - now rewrite app_nil_r.
  - cbn [app]. rewrite lex_loop_cons by (cbn; lia). unfold lex_char, toksize.
    cbn [lx_state lx_token lx_data lx_symtable]. rewrite Hc.
    cbn [length] in Hlen. rewrite length_app in Hlen. cbn [length] in Hlen.
    destruct (Z.geb_spec (Z.of_nat (length (a :: tok))) MILL_STATE_MAX)
      as [Hge|_]; [cbn [length] in Hge; lia|].
    change ((a :: tok) ++ [c]) with (a :: (tok ++ [c])).
    rewrite wcscmp0_not_comment by exact Ha. rewrite andb_false_r.
    rewrite (IH (tok ++ [c])).
    + now rewrite <- app_assoc.
    + cbn [length]. rewrite <- app_assoc. cbn [app].
      rewrite length_app. cbn [length]. lia.
Qed.

Lemma lex_name5 tok cs d tab file :
  Forall (fun c => isw c = false) cs ->
  Z.of_nat (length (tok ++ cs)) <= MILL_STATE_MAX ->
  lex_loop isw (mkLexer S5 tok d tab) (cs ++ file)
  = lex_loop isw (mkLexer S5 (tok ++ cs) d tab) file.
Proof.
  intros Hcs. revert tok.
  induction Hcs as [|c cs Hc _ IH]; intros tok Hlen.
  - now rewrite app_nil_r.
  - cbn [app]. rewrite lex_loop_cons by (cbn; lia). unfold lex_char, toksize.
    cbn [lx_state lx_token lx_data lx_symtable]. rewrite Hc.
    rewrite length_app in Hlen. cbn [length] in Hlen.
    destruct (Z.geb_spec (Z.of_nat (length tok)) MILL_STATE_MAX)
      as [Hge|_]; [lia|].
    rewrite (IH (tok ++ [c])).
    + now rewrite <- app_assoc.
    + rewrite <- app_assoc. cbn [app]. rewrite length_app.
      cbn [length]. lia.
Qed.

(** The first field: a state name, interned when the white space behind
    it is read. *)
Lemma lex_state_in ws0 s_in w d tab i tab' file :
  Forall (fun c => isw c = true) ws0 ->
  word isw s_in -> hd 0 s_in <> 47 -> isw w = true ->
  symtable_insert tab s_in = Ok (i, tab') ->
  lex_loop isw (mkLexer S0 [] d tab) (ws0 ++ s_in ++ w :: file)
  = lex_loop isw (mkLexer S2 [] (set_state_in d i) tab') file.
Proof.
  intros Hws0 (Hne & Htok & Hlen) Hhd Hw Hins.
  destruct s_in as [|a cs]; [congruence|]. cbn [hd] in Hhd.
  inversion Htok as [|? ? Ha Hcs]; subst.
  rewrite lex_skip by (reflexivity || assumption). cbn [app].
  rewrite (lex_start S0 S1) by auto. cbn [app].
  rewrite (lex_name1 a [] cs) by (assumption || exact Hlen). cbn [app].
  rewrite lex_loop_cons by (cbn; lia). unfold lex_char.
  cbn [lx_state lx_token lx_data lx_symtable]. rewrite Hw, Hins. reflexivity.
Qed.

(** The third field: a state name again, without the test for a comment. *)
Lemma lex_state_out ws s_out w d tab i tab' file :
  Forall (fun c => isw c = true) ws ->
  word isw s_out -> isw w = true ->
  symtable_insert tab s_out = Ok (i, tab') ->
  lex_loop isw (mkLexer S4 [] d tab) (ws ++ s_out ++ w :: file)
  = lex_loop isw (mkLexer S6 [] (set_state_out d i) tab') file.
Proof.
  intros Hws (Hne & Htok & Hlen) Hw Hins.
  destruct s_out as [|a cs]; [congruence|].
  inversion Htok as [|? ? Ha Hcs]; subst.
  rewrite lex_skip by (reflexivity || assumption). cbn [app].
  rewrite (lex_start S4 S5) by auto. cbn [app].
  rewrite (lex_name5 [a] cs) by (assumption || exact Hlen). cbn [app].
  rewrite lex_loop_cons by (cbn; lia). unfold lex_char.
  cbn [lx_state lx_token lx_data lx_symtable]. rewrite Hw, Hins. reflexivity.
Qed.

(** The second and the fourth field: one character. *)
Lemma lex_char_in ws c w d tab file :
  Forall (fun c => isw c = true) ws -> isw c = false -> isw w = true ->
  lex_loop isw (mkLexer S2 [] d tab) (ws ++ c :: w :: file)
  = lex_loop isw (mkLexer S4 [] (set_char_in d (blank_of c)) tab) file.
Proof.
  intros Hws Hc Hw.
  rewrite lex_skip by (reflexivity || assumption).
  rewrite (lex_start S2 S3) by auto. cbn [app].
  rewrite lex_loop_cons by (cbn; lia). unfold lex_char.
  cbn [lx_state lx_token lx_data lx_symtable]. now rewrite Hw.
Qed.

Lemma lex_char_out ws c w d tab file :
  Forall (fun c => isw c = true) ws -> isw c = false -> isw w = true ->
  lex_loop isw (mkLexer S6 [] d tab) (ws ++ c :: w :: file)
  = lex_loop isw (mkLexer S8 [] (set_char_out d (blank_of c)) tab) file.
Proof.
  intros Hws Hc Hw.
  rewrite lex_skip by (reflexivity || assumption).
  rewrite (lex_start S6 S7) by auto. cbn [app].
  rewrite lex_loop_cons by (cbn; lia). unfold lex_char.
  cbn [lx_state lx_token lx_data lx_symtable]. now rewrite Hw.
Qed.

(** The four fields before the move, each followed by white space. *)
Lemma lex_four_fields tab ws0 s_in ws1 c_in ws2 s_out ws3 c_out ws4
  i1 tab1 i2 tab2 file :
  Forall (fun c => isw c = true) ws0 ->
  blanks isw ws1 -> blanks isw ws2 -> blanks isw ws3 -> blanks isw ws4 ->
  word isw s_in -> hd 0 s_in <> 47 -> word isw s_out ->
  isw c_in = false -> isw c_out = false ->
  symtable_insert tab s_in = Ok (i1, tab1) ->
  symtable_insert tab1 s_out = Ok (i2, tab2) ->
  lex_loop isw (mkLexer S0 [] instr_zero tab)
    (ws0 ++ s_in ++ ws1 ++ [c_in] ++ ws2 ++ s_out ++ ws3 ++ [c_out]
     ++ ws4 ++ file)
  = lex_loop isw
      (mkLexer S8 []
         (mkInstr i1 (blank_of c_in) i2 (blank_of c_out) HeadMove_none) tab2)
      file.
Proof.
  intros Hws0 [Hn1 Hws1] [Hn2 Hws2] [Hn3 Hws3] [Hn4 Hws4]
    Hin Hhd Hout Hcin Hcout Hins1 Hins2.
  destruct ws1 as [|w1 ws1]; [congruence|].
  destruct ws2 as [|w2 ws2]; [congruence|].
  destruct ws3 as [|w3 ws3]; [congruence|].
  destruct ws4 as [|w4 ws4]; [congruence|].
  inversion Hws1; inversion Hws2; inversion Hws3; inversion Hws4; subst.
  cbn [app].
  rewrite (lex_state_in ws0 s_in w1 _ tab i1 tab1) by assumption.
  rewrite (lex_char_in ws1 c_in w2) by assumption.
  rewrite (lex_state_out ws2 s_out w3 _ tab1 i2 tab2) by assumption.
  rewrite (lex_char_out ws3 c_out w4) by assumption.
  rewrite lex_skip by (reflexivity || assumption). reflexivity.
Qed.

End Lexing.

Lemma parse_loop_fuel isw fuel fuel' file prog :
  tab_inv (symtable prog) ->
  (length file < fuel)%nat -> (length file < fuel')%nat ->
  parse_loop isw fuel file prog = parse_loop isw fuel' file prog.
Proof.
  revert fuel' file prog; induction fuel as [|fuel IH];
    intros fuel' file prog Htab Hf Hf'; [lia|].
  destruct fuel' as [|fuel']; [lia|]. cbn [parse_loop].
  pose proof (mill_parse_instruction_inv isw file (symtable prog) Htab) as Hp.
  destruct (mill_parse_instruction isw file (symtable prog))
    as [[[[instr|] tab']|e] rest]; try reflexivity.
  destruct Hp as (Htab' & _ & Hinstr).
  destruct (instr_count prog >=? MILL_INSTR_MAX); [reflexivity|].
  destruct (Hinstr instr eq_refl) as [_ Hlen].
  apply IH; [exact Htab' | lia | lia].
Qed.

(** X16. A well-formed line parses to its instruction: five fields
    separated by white space (two state names of at most 32 characters,
    the first not starting with a slash, two one-character symbols with
    ['_'] for the blank, a move [L] or [R]), ended by a newline or by the
    end of the file, yield the instruction whose state ids are those the
    symbol table gives the names, in the order [state_in], [state_out],
    and leave what follows the newline unread. *)
Theorem parse_instruction_line (isw : wchar_t -> bool) (tab : SymTable)
  (ws0 s_in ws1 : wcs) (c_in : wchar_t) (ws2 s_out ws3 : wcs)
  (c_out : wchar_t) (ws4 : wcs) (mv : wchar_t) (rest : wcs)
  (i1 : Z) (tab1 : SymTable) (i2 : Z) (tab2 : SymTable) (m : HeadMove) :
  Forall (fun c => isw c = true) ws0 ->
  blanks isw ws1 -> blanks isw ws2 -> blanks isw ws3 -> blanks isw ws4 ->
  word isw s_in -> hd 0 s_in <> 47 -> word isw s_out ->
  isw c_in = false -> isw c_out = false ->
  isw mv = false -> isw 10 = true ->
  symtable_insert tab s_in = Ok (i1, tab1) ->
  symtable_insert tab1 s_out = Ok (i2, tab2) ->
  parse_headmove [mv] = Ok m ->
  let fields :=
    ws0 ++ s_in ++ ws1 ++ [c_in] ++ ws2 ++ s_out ++ ws3 ++ [c_out] ++ ws4 in
  let instr := mkInstr i1 (blank_of c_in) i2 (blank_of c_out) m in
  mill_parse_instruction isw (fields ++ mv :: 10 :: rest) tab
    = (Ok (Some instr, tab2), rest) /\
  mill_parse_instruction isw (fields ++ [mv]) tab
    = (Ok (Some instr, tab2), []).
Proof.
  intros Hws0 Hb1 Hb2 Hb3 Hb4 Hin Hhd Hout Hcin Hcout Hmv Hnl Hi1 Hi2 Hm
    fields instr.
  assert (Hfields : forall file,
    lex_loop isw (mkLexer S0 [] instr_zero tab) (fields ++ file)
    = lex_loop isw
        (mkLexer S8 []
           (mkInstr i1 (blank_of c_in) i2 (blank_of c_out) HeadMove_none)
           tab2) file).
  { intros file. subst fields. rewrite <- !app_assoc.
    apply (lex_four_fields isw tab ws0 s_in ws1 c_in ws2 s_out ws3 c_out ws4
             i1 tab1 i2 tab2); assumption. }
  unfold mill_parse_instruction. rewrite !Hfields. split.
  - rewrite (lex_start isw S8 S9) by auto. cbn [app].
    rewrite lex_loop_cons by (cbn; lia). unfold lex_char.
    cbn [lx_state lx_token lx_data lx_symtable]. rewrite Hnl, Hm.
    cbn [bind]. rewrite Z.eqb_refl.
    destruct rest; cbn [lex_loop state_num lx_state Z.ltb Z.compare negb
                        Pos.compare Pos.compare_cont bind lex_finish
                        lx_data lx_symtable set_move state_in char_in
                        state_out char_out];
      reflexivity.
  - rewrite (lex_start isw S8 S9) by auto. cbn [app].
    cbn [lex_loop state_num lx_state Z.ltb Z.compare negb Pos.compare
         Pos.compare_cont bind lex_finish lx_token].
    rewrite Hm. reflexivity.
Qed.

(** X17. An incomplete or ill-formed line: when the file ends behind the
    fourth field, with or without white space, the parse fails with
    "expecting a token"; when the fifth field is one character other than
    [L] and [R], it fails with "invalid move instruction" on that
    character. *)
Theorem parse_instruction_bad_tail (isw : wchar_t -> bool) (tab : SymTable)
  (ws0 s_in ws1 : wcs) (c_in : wchar_t) (ws2 s_out ws3 : wcs)
  (c_out : wchar_t) (ws4 : wcs) (mv : wchar_t) (rest : wcs)
  (i1 : Z) (tab1 : SymTable) (i2 : Z) (tab2 : SymTable) :
  Forall (fun c => isw c = true) ws0 ->
  blanks isw ws1 -> blanks isw ws2 -> blanks isw ws3 ->
  Forall (fun c => isw c = true) ws4 ->
  word isw s_in -> hd 0 s_in <> 47 -> word isw s_out ->
  isw c_in = false -> isw c_out = false ->
  isw mv = false -> isw 10 = true -> mv <> 76 -> mv <> 82 ->
  symtable_insert tab s_in = Ok (i1, tab1) ->
  symtable_insert tab1 s_out = Ok (i2, tab2) ->
  let fields := ws0 ++ s_in ++ ws1 ++ [c_in] ++ ws2 ++ s_out ++ ws3 in
  mill_parse_instruction isw (fields ++ [c_out] ++ ws4) tab
    = (Err ExpectingToken, []) /\
  (ws4 <> [] ->
   mill_parse_instruction isw
     (fields ++ [c_out] ++ ws4 ++ mv :: 10 :: rest) tab
   = (Err (InvalidMove (cstr [mv])), rest)).
Proof.
  intros Hws0 Hb1 Hb2 Hb3 Hws4 Hin Hhd Hout Hcin Hcout Hmv Hnl H76 H82
    Hi1 Hi2 fields.
  assert (Hfields : ws4 <> [] -> forall file,
    lex_loop isw (mkLexer S0 [] instr_zero tab)
      (fields ++ [c_out] ++ ws4 ++ file)
    = lex_loop isw
        (mkLexer S8 []
           (mkInstr i1 (blank_of c_in) i2 (blank_of c_out) HeadMove_none)
           tab2) file).
  { intros Hn4 file. subst fields. rewrite <- !app_assoc.
    apply (lex_four_fields isw tab ws0 s_in ws1 c_in ws2 s_out ws3 c_out
             ws4 i1 tab1 i2 tab2); try assumption. now split. }
  unfold mill_parse_instruction. split.
  - destruct ws4 as [|w ws4].
    + (* the file ends in the fourth field *)
      destruct Hb1 as [Hn1 Hws1], Hb2 as [Hn2 Hws2], Hb3 as [Hn3 Hws3].
      destruct ws1 as [|w1 ws1]; [congruence|].
      destruct ws2 as [|w2 ws2]; [congruence|].
      destruct ws3 as [|w3 ws3]; [congruence|].
      inversion Hws1; inversion Hws2; inversion Hws3; subst. subst fields.
      rewrite <- !app_assoc. cbn [app].
      rewrite (lex_state_in isw ws0 s_in w1 _ tab i1 tab1) by assumption.
      rewrite (lex_char_in isw ws1 c_in w2) by assumption.
      rewrite (lex_state_out isw ws2 s_out w3 _ tab1 i2 tab2) by assumption.
      rewrite lex_skip by (reflexivity || assumption).
      rewrite (lex_start isw S6 S7) by auto. reflexivity.
    + (* the file ends in the white space behind it *)
      rewrite <- (app_nil_r (w :: ws4)).
      rewrite Hfields by discriminate. reflexivity.
  - intros Hn4. rewrite (Hfields Hn4).
    rewrite (lex_start isw S8 S9) by auto. cbn [app].
    rewrite lex_loop_cons by (cbn; lia). unfold lex_char.
    cbn [lx_state lx_token lx_data lx_symtable]. rewrite Hnl.
    destruct (parse_headmove_cases [mv]) as (_ & _ & _ & Herr).
    rewrite Herr.
    + reflexivity.
    + cbn [cstr]. destruct (mv =? 0); congruence.
    + cbn [cstr]. destruct (mv =? 0); congruence.
Qed.

(** X18. Fields that are too long: a state name of more than 32
    characters is rejected with "symbol is too long" on its first 32
    characters when the 33rd is read, and a symbol field of more than one
    character is rejected on its first character when the second is
    read. *)
Theorem parse_instruction_too_long (isw : wchar_t -> bool) (tab : SymTable)
  (ws0 name : wcs) (c : wchar_t) (ws1 : wcs) (c1 c2 : wchar_t) (file : wcs)
  (i : Z) (tab1 : SymTable) :
  Forall (fun c => isw c = true) ws0 ->
  Forall (fun c => isw c = false) name -> hd 0 name <> 47 ->
  isw c = false -> isw c1 = false -> isw c2 = false ->
  (Z.of_nat (length name) = MILL_STATE_MAX ->
   mill_parse_instruction isw (ws0 ++ name ++ c :: file) tab
   = (Err (SymbolTooLong (cstr name)), file)) /\
  (word isw name -> blanks isw ws1 ->
   symtable_insert tab name = Ok (i, tab1) ->
   mill_parse_instruction isw (ws0 ++ name ++ ws1 ++ c1 :: c2 :: file) tab
   = (Err (SymbolTooLong (cstr [c1])), file)).
Proof.
  intros Hws0 Hname Hhd Hc Hc1 Hc2. unfold mill_parse_instruction. split.
  - intros Hlen. destruct name as [|a cs]; [discriminate Hlen|].
    cbn [hd] in Hhd. inversion Hname as [|? ? Ha Hcs]; subst.
    rewrite lex_skip by (reflexivity || assumption). cbn [app].
    rewrite (lex_start isw S0 S1) by auto. cbn [app].
    rewrite (lex_name1 isw a [] cs) by (assumption || (cbn [app]; lia)).
    cbn [app]. rewrite lex_loop_cons by (cbn; lia). unfold lex_char, toksize.
    cbn [lx_state lx_token lx_data lx_symtable]. rewrite Hc.
    destruct (Z.geb_spec (Z.of_nat (length (a :: cs))) MILL_STATE_MAX);
      [reflexivity | lia].
  - intros Hword [Hn1 Hws1] Hins.
    destruct ws1 as [|w1 ws1]; [congruence|].
    inversion Hws1; subst. cbn [app].
    rewrite (lex_state_in isw ws0 name w1 _ tab i tab1) by assumption.
    rewrite lex_skip by (reflexivity || assumption).
    rewrite (lex_start isw S2 S3) by auto. cbn [app].
    rewrite lex_loop_cons by (cbn; lia). unfold lex_char.
    cbn [lx_state lx_token lx_data lx_symtable]. rewrite Hc2. reflexivity.
Qed.

Lemma lex_comment_body isw text d tab rest :
  ~ In 10 text ->
  lex_loop isw (mkLexer S20 [] d tab) (text ++ 10 :: rest)
  = lex_loop isw (mkLexer S0 [] d tab) rest /\
  lex_loop isw (mkLexer S20 [] d tab) text
  = (Ok (mkLexer S20 [] d tab), []).
Proof.
  induction text as [|c text IH]; intros Hnl.
  - split; [|reflexivity]. cbn [app].
    rewrite lex_loop_cons by (cbn; lia). reflexivity.
  - assert (Hc : (c =? 10) = false)
      by (apply Z.eqb_neq; intros ->; apply Hnl; now left).
    destruct IH as [IH1 IH2]; [intros Hin; apply Hnl; now right|].
    split; cbn [app]; rewrite lex_loop_cons by (cbn; lia); unfold lex_char;
      cbn [lx_state lx_token lx_data lx_symtable]; rewrite Hc; assumption.
Qed.

Lemma lex_comment isw ws text d tab :
  Forall (fun c => isw c = true) ws -> isw 47 = false -> ~ In 10 text ->
  (forall rest,
     lex_loop isw (mkLexer S0 [] d tab) (ws ++ 47 :: 47 :: text ++ 10 :: rest)
     = lex_loop isw (mkLexer S0 [] d tab) rest) /\
  lex_loop isw (mkLexer S0 [] d tab) (ws ++ 47 :: 47 :: text)
  = (Ok (mkLexer S20 [] d tab), []).
Proof.
  intros Hws Hsl Hnl.
  assert (Hopen : forall file,
    lex_loop isw (mkLexer S0 [] d tab) (ws ++ 47 :: 47 :: file)
    = lex_loop isw (mkLexer S20 [] d tab) file).
  { intros file. rewrite lex_skip by (reflexivity || assumption).
    rewrite (lex_start isw S0 S1) by auto. cbn [app].
    rewrite lex_loop_cons by (cbn; lia). unfold lex_char, toksize.
    cbn [lx_state lx_token lx_data lx_symtable]. rewrite Hsl. reflexivity. }
  split.
  - intros rest. rewrite Hopen. now apply lex_comment_body.
  - rewrite Hopen. now apply lex_comment_body.
Qed.

Lemma parse_loop_same_start isw file file' prog :
  tab_inv (symtable prog) ->
  mill_parse_instruction isw file (symtable prog)
  = mill_parse_instruction isw file' (symtable prog) ->
  parse_loop isw (S (length file)) file prog
  = parse_loop isw (S (length file')) file' prog.
Proof.
  intros Htab Heq. cbn [parse_loop].
  pose proof (mill_parse_instruction_inv isw file (symtable prog) Htab) as Hp.
  pose proof (mill_parse_instruction_inv isw file' (symtable prog) Htab)
    as Hp'.
  rewrite <- Heq in *.
  destruct (mill_parse_instruction isw file (symtable prog))
    as [[[[instr|] tab']|e] rest]; try reflexivity.
  destruct (instr_count prog >=? MILL_INSTR_MAX); [reflexivity|].
  destruct Hp as (Htab' & _ & Hi). destruct Hp' as (_ & _ & Hi').
  apply parse_loop_fuel; [exact Htab'| |].
  - now destruct (Hi instr eq_refl).
  - now destruct (Hi' instr eq_refl).
Qed.

(** X19. White space and full-line comments before an instruction do not
    change the parse: leading white space and a line that starts with two
    slashes are skipped up to its newline, by [mill_parse_instruction] and
    hence by [mill_parse_program]; a comment that the end of the file
    cuts off yields no instruction and no error. *)
Theorem parse_skips_comment (isw : wchar_t -> bool) (ws text rest : wcs) :
  Forall (fun c => isw c = true) ws -> isw 47 = false -> ~ In 10 text ->
  (forall tab,
     mill_parse_instruction isw (ws ++ 47 :: 47 :: text ++ 10 :: rest) tab
     = mill_parse_instruction isw rest tab) /\
  (forall tab,
     mill_parse_instruction isw (ws ++ rest) tab
     = mill_parse_instruction isw rest tab) /\
  (forall tab,
     mill_parse_instruction isw (ws ++ 47 :: 47 :: text) tab
     = (Ok (None, tab), [])) /\
  mill_parse_program isw (ws ++ 47 :: 47 :: text ++ 10 :: rest)
  = mill_parse_program isw rest /\
  mill_parse_program isw (ws ++ rest) = mill_parse_program isw rest.
Proof.
  intros Hws Hsl Hnl.
  assert (H1 : forall tab,
    mill_parse_instruction isw (ws ++ 47 :: 47 :: text ++ 10 :: rest) tab
    = mill_parse_instruction isw rest tab).
  { intros tab. unfold mill_parse_instruction.
    destruct (lex_comment isw ws text instr_zero tab Hws Hsl Hnl) as [Hc _].
    now rewrite Hc. }
  assert (H2 : forall tab,
    mill_parse_instruction isw (ws ++ rest) tab
    = mill_parse_instruction isw rest tab).
  { intros tab. unfold mill_parse_instruction.
    now rewrite lex_skip by (reflexivity || assumption). }
  split; [exact H1|]. split; [exact H2|]. split; [|split].
  - intros tab. unfold mill_parse_instruction.
    destruct (lex_comment isw ws text instr_zero tab Hws Hsl Hnl) as [_ Hc].
    now rewrite Hc.
  - rewrite !mill_parse_program_start. apply parse_loop_same_start.
    + apply prog_inv_start.
    + apply H1.
  - rewrite !mill_parse_program_start. apply parse_loop_same_start.
    + apply prog_inv_start.
    + apply H2.
Qed.

(** ** The state ids of a parsed program *)

Lemma tab_ext_size t0 t : tab_ext t0 t -> sym_size t0 <= sym_size t.
Proof.
  intros [more H]. unfold sym_size. rewrite H, length_app. lia.
Qed.

Lemma ids_ok_ext d t0 t : ids_ok d t0 -> tab_ext t0 t -> ids_ok d t.
Proof.
  intros [H1 H2] Hext. apply tab_ext_size in Hext. unfold ids_ok. lia.
Qed.

Section ParsedIds.

Variable isw : wchar_t -> bool.

Lemma lex_char_ids l c :
  lex_inv l -> table_built (lx_symtable l) ->
  ids_ok (lx_data l) (lx_symtable l) ->
  match lex_char isw l c with
  | Ok l' => table_built (lx_symtable l') /\ ids_ok (lx_data l') (lx_symtable l')
  | Err _ => True
  end.
Proof.
  destruct l as [st tok data tab]. unfold lex_inv, toksize.
  cbn [lx_state lx_token lx_data lx_symtable].
  intros (Htok & Htab & Hst) Hbuilt Hids.
  assert (Hname : wcslen tok <= MILL_STATE_MAX)
    by (pose proof (wcslen_le tok); lia).
  assert (Hins : forall i tab',
    symtable_insert tab tok = Ok (i, tab') ->
    table_built tab' /\ 0 <= i < sym_size tab' /\ ids_ok data tab').
  { intros i tab' H. split; [eapply built_insert; eassumption|].
    pose proof (symtable_insert_index _ _ _ _ H) as (Hi & _).
    split; [exact Hi|]. eapply ids_ok_ext; [exact Hids|].
    pose proof (symtable_insert_inv tab tok Htab Hname) as Hx.
    rewrite H in Hx. tauto. }
  unfold lex_char, toksize; cbn [lx_state lx_token lx_data lx_symtable];
  destruct st; cbn [bind];
  repeat (first
    [ match goal with
      | |- context [symtable_insert tab tok] =>
          destruct (symtable_insert tab tok) as [[? ?]|?]; cbn [bind];
          [destruct (Hins _ _ eq_refl) as (? & ? & [? ?])|]
      | |- context [parse_headmove ?t] =>
          destruct (parse_headmove t); cbn [bind]
      | |- context [if ?b then _ else _] => destruct b
      end ]);
  cbn [lx_state lx_token lx_data lx_symtable]; try exact I;
  try (split; [assumption|]);
  unfold ids_ok in *;
  cbn [state_in state_out set_state_in set_char_in set_state_out
       set_char_out set_move] in *; lia.
Qed.

Lemma lex_loop_ids l file :
  lex_inv l -> table_built (lx_symtable l) ->
  ids_ok (lx_data l) (lx_symtable l) ->
  match lex_loop isw l file with
  | (Ok l', _) => table_built (lx_symtable l') /\
                  ids_ok (lx_data l') (lx_symtable l')
  | (Err _, _) => True
  end.
Proof.
  revert l; induction file as [|c rest IH]; intros l Hinv Hb Hids; simpl.
  - destruct (negb (state_num (lx_state l) <? 100)); auto.
  - destruct (negb (state_num (lx_state l) <? 100)); [auto|].
    pose proof (lex_char_inv isw l c Hinv) as Hc.
    pose proof (lex_char_ids l c Hinv Hb Hids) as Hc'.
    destruct (lex_char isw l c) as [l1|e]; [|exact I].
    destruct Hc as [Hinv1 _]. destruct Hc' as [Hb1 Hids1].
    now apply IH.
Qed.

Lemma mill_parse_instruction_ids file tab :
  table_built tab -> 0 < sym_size tab ->
  match mill_parse_instruction isw file tab with
  | (Ok (oi, tab'), _) =>
      table_built tab' /\ forall i, oi = Some i -> ids_ok i tab'
  | (Err _, _) => True
  end.
Proof.
  intros Hb Hpos. unfold mill_parse_instruction.
  assert (Hinit : lex_inv (mkLexer S0 [] instr_zero tab)).
  { unfold lex_inv, toksize. simpl. unfold MILL_STATE_MAX.
    repeat split; auto; try lia. now apply table_built_inv. }
  assert (Hids : ids_ok instr_zero tab) by (unfold ids_ok; cbn; lia).
  pose proof (lex_loop_inv isw _ file Hinit) as Hloop.
  pose proof (lex_loop_ids _ file Hinit Hb Hids) as Hloop'.
  destruct (lex_loop isw _ file) as [[l'|e] rest]; cbn [bind]; [|exact I].
  destruct Hloop' as [Hb' Hids']. destruct l' as [st tok data tab'].
  unfold lex_finish. cbn [lx_state lx_token lx_data lx_symtable] in *.
  destruct st; cbn [bind]; try exact I;
    try (split; [assumption|]; intros i Hi; try discriminate;
         injection Hi as <-; assumption).
  destruct (parse_headmove tok); cbn [bind]; [|exact I].
  split; [assumption|]. intros i Hi. injection Hi as <-. exact Hids'.
Qed.

Lemma parse_loop_ids fuel file prog :
  table_built (symtable prog) -> 0 < sym_size (symtable prog) ->
  Forall (fun i => ids_ok i (symtable prog)) (instructions prog) ->
  instr_count prog <= MILL_INSTR_MAX ->
  match parse_loop isw fuel file prog with
  | Some (Ok p) =>
      table_built (symtable p) /\
      Forall (fun i => ids_ok i (symtable p)) (instructions p) /\
      instr_count p <= MILL_INSTR_MAX
  | _ => True
  end.
Proof.
  revert file prog; induction fuel as [|fuel IH];
    intros file prog Hb Hpos Hall Hcount; simpl; [exact I|].
  pose proof (mill_parse_instruction_inv isw file (symtable prog)
                (table_built_inv _ Hb)) as Hp.
  pose proof (mill_parse_instruction_ids file (symtable prog) Hb Hpos) as Hq.
  destruct (mill_parse_instruction isw file (symtable prog))
    as [[[[instr|] tab']|e] rest]; [| |exact I].
  - destruct Hp as (_ & Hext & _). destruct Hq as (Hb' & Hi).
    destruct (Z.geb_spec (instr_count prog) MILL_INSTR_MAX); [exact I|].
    apply IH; cbn [symtable instructions].
    + exact Hb'.
    + pose proof (tab_ext_size _ _ Hext). lia.
    + apply Forall_app. split.
      * eapply Forall_impl; [|exact Hall]. intros a Ha.
        exact (ids_ok_ext _ _ _ Ha Hext).
      * constructor; [now apply Hi | constructor].
    + unfold instr_count in *. cbn [instructions]. rewrite length_app.
      simpl length. lia.
  - destruct Hp as (_ & Hext & _). destruct Hq as (Hb' & _).
    cbn [symtable instructions]. split; [exact Hb'|]. split; [|exact Hcount].
    eapply Forall_impl; [|exact Hall]. intros a Ha.
    exact (ids_ok_ext _ _ _ Ha Hext).
Qed.

Lemma symtable_base_built : table_built symtable_base.
Proof.
  apply (built_insert (mkSymTable [L "INIT"] 5) (L "HALT") 1).
  - apply (built_insert symtable_zero (L "INIT") 0).
    + constructor.
    + vm_compute. discriminate.
    + reflexivity.
  - vm_compute. discriminate.
  - reflexivity.
Qed.

Lemma mill_parse_program_ids file prog :
  mill_parse_program isw file = Some (Ok prog) ->
  table_built (symtable prog) /\
  Forall (fun i => ids_ok i (symtable prog)) (instructions prog) /\
  instr_count prog <= MILL_INSTR_MAX.
Proof.
  intros Hp. rewrite mill_parse_program_start in Hp.
  pose proof (parse_loop_ids (S (length file)) file
                (mkProgram symtable_base 0 1 [])) as H.
  rewrite Hp in H. apply H; cbn [symtable instructions].
  - exact symtable_base_built.
  - reflexivity.
  - constructor.
  - unfold instr_count, MILL_INSTR_MAX. cbn. lia.
Qed.

End ParsedIds.

Lemma parse_program_ids_range (isw : wchar_t -> bool) (file : wcs)
  (prog : MillProgram) :
  mill_parse_program isw file = Some (Ok prog) ->
  2 <= sym_size (symtable prog) <= MILL_STATES_MAX /\
  NoDup (symbols (symtable prog)) /\
  instr_count prog <= MILL_INSTR_MAX /\
  Forall (fun i => 0 <= state_in i < sym_size (symtable prog) /\
                   0 <= state_out i < sym_size (symtable prog))
    (instructions prog).
Proof.
  intros Hp.
  destruct (mill_parse_program_ids isw file prog Hp) as (Hb & Hids & Hcount).
  destruct (table_built_facts _ Hb) as (Hnd & _ & Hsize).
  pose proof (mill_parse_program_inv isw file) as Hinv. rewrite Hp in Hinv.
  destruct Hinv as (_ & Hext & _). apply tab_ext_size in Hext.
  change (sym_size symtable_base) with 2 in Hext.
  repeat split; auto; lia.
Qed.

(** X20. A program that parses is well formed: its table holds between 2
    and 1024 pairwise distinct names, at most 65536 instructions were
    read, and the [state_in] and [state_out] of every instruction are
    indices of the table. *)
Theorem parsed_program_wellformed (isw : wchar_t -> bool) (file : wcs)
  (prog : MillProgram) :
  mill_parse_program isw file = Some (Ok prog) ->
  2 <= sym_size (symtable prog) <= MILL_STATES_MAX /\
  NoDup (symbols (symtable prog)) /\
  instr_count prog <= MILL_INSTR_MAX /\
  Forall (fun i => 0 <= state_in i < sym_size (symtable prog) /\
                   0 <= state_out i < sym_size (symtable prog))
    (instructions prog).
Proof.
  pose proof (parse_program_ids_range isw file prog) as H.
  exact H.
Qed.

(** X21. In a run of a program that parses, the state is an index of the
    symbol table at every turn, so the name looked up for the diagnostic
    of a stall is one of the table: the name of the state the machine is
    in. *)
Theorem run_state_is_symbol (isw : wchar_t -> bool) (file : wcs)
  (prog : MillProgram) (tape : MillTape) :
  mill_parse_program isw file = Some (Ok prog) ->
  (forall n cf,
     run_n n prog tape 0 (init_config prog tape) = Next cf ->
     0 <= cf_state cf < sym_size (symtable prog) /\
     nth_error (symbols (symtable prog)) (Z.to_nat (cf_state cf))
     = Some (symbol_name prog (cf_state cf))) /\
  (forall s c,
     run_outcome (mill_run prog tape) = Unhandled s c ->
     In s (symbols (symtable prog))).
Proof.
  intros Hp.
  destruct (parse_program_ids_range isw file prog Hp)
    as (Hsize & _ & _ & Hids).
  pose proof (mill_parse_program_inv isw file) as Hinv. rewrite Hp in Hinv.
  destruct Hinv as (_ & _ & Hinit & _).
  assert (Hname : forall st, 0 <= st < sym_size (symtable prog) ->
    nth_error (symbols (symtable prog)) (Z.to_nat st)
    = Some (symbol_name prog st)).
  { intros st Hst. unfold symbol_name. apply nth_error_nth'.
    unfold sym_size in Hst. lia. }
  assert (Hturn : forall t cf,
    0 <= cf_state cf < sym_size (symtable prog) ->
    match run_turn prog tape t cf with
    | Next cf' => 0 <= cf_state cf' < sym_size (symtable prog)
    | Return r => forall s c, run_outcome r = Unhandled s c ->
                              In s (symbols (symtable prog))
    end).
  { intros t cf Hst. unfold run_turn, scan_turn.
    destruct (scan _ _ _ _) as [[k ins]|] eqn:Hs.
    - apply scan_in in Hs. rewrite Forall_forall in Hids.
      destruct (Hids ins Hs) as [_ Hout].
      destruct (head_dp (move ins)); [|discriminate].
      destruct (state_out ins =? symhalt prog); [discriminate|].
      cbn [cf_pos cf_state cf_buf].
      destruct (_ =? _); [|exact Hout].
      intros s c H. injection H as <- _.
      eapply nth_error_In. now apply Hname.
    - rewrite Z.eqb_refl. intros s c H. injection H as <- _.
      eapply nth_error_In. now apply Hname. }
  assert (Hrun : forall n t cf,
    0 <= cf_state cf < sym_size (symtable prog) ->
    match run_n n prog tape t cf with
    | Next cf' => 0 <= cf_state cf' < sym_size (symtable prog)
    | Return r => forall s c, run_outcome r = Unhandled s c ->
                              In s (symbols (symtable prog))
    end).
  { induction n as [|n IH]; intros t cf Hst; cbn [run_n]; [exact Hst|].
    specialize (Hturn t cf Hst).
    destruct (run_turn prog tape t cf) as [cf'|r]; [now apply IH|exact Hturn]. }
  assert (H0 : 0 <= cf_state (init_config prog tape)
               < sym_size (symtable prog)).
  { cbn [cf_state init_config]. rewrite Hinit. lia. }
  split.
  - intros n cf Hn. specialize (Hrun n 0 _ H0). rewrite Hn in Hrun.
    split; [exact Hrun | now apply Hname].
  - intros s c. unfold mill_run. rewrite run_loop_run_n.
    specialize (Hrun (Z.to_nat MILL_STEPS_MAX) 0 _ H0).
    destruct (run_n _ _ _ _ _) as [cf|r]; [discriminate|]. apply Hrun.
Qed.

(** X22. The parse looks at the locale only through the classification of
    the characters the program text consists of: two classifications that
    agree on them yield the same parse and the same result of [main]. *)
Theorem parse_locale_independent (isw isw' : wchar_t -> bool)
  (program_file tape_file : wcs) :
  (forall c, In c program_file -> isw c = isw' c) ->
  mill_parse_program isw program_file = mill_parse_program isw' program_file
  /\ main isw program_file tape_file = main isw' program_file tape_file.
Proof.
  intros H. split.
  - now apply mill_parse_program_agree.
  - now apply main_agree.
Qed.

(** * Properties of [parse_args] *)

Lemma args_loop_app st args a b :
  args_loop st args (a ++ b) =
  args_loop (fst (args_loop st args a)) (snd (args_loop st args a)) b.
Proof.
  revert st args; induction a as [|x a IH]; intros st args; cbn [app args_loop].
  - reflexivity.
  - destruct (parse_arg st args x) as [st' args']. apply IH.
Qed.

Lemma parse_arg_inv st args a :
  args_inv args ->
  args_inv (snd (parse_arg st args a)) /\
  (needs_help args = 1 -> needs_help (snd (parse_arg st args a)) = 1).
Proof.
  unfold args_inv. intros (Hp & Ht & Ho). destruct st; cbn [parse_arg].
  - repeat match goal with
           | |- context [if ?b then _ else _] => destruct b
           end; cbn; auto.
  - destruct (String.eqb a "-"); cbn; auto.
  - destruct (String.eqb a "-"); cbn; auto.
  - destruct (String.eqb a "-"); cbn; auto.
Qed.

Lemma args_loop_inv st args argv :
  args_inv args ->
  args_inv (snd (args_loop st args argv)) /\
  (needs_help args = 1 -> needs_help (snd (args_loop st args argv)) = 1).
Proof.
  revert st args; induction argv as [|a argv IH]; intros st args Hinv;
    cbn [args_loop].
  - auto.
  - destruct (parse_arg_inv st args a Hinv) as [Hinv' Hh].
    destruct (parse_arg st args a) as [st' args']. cbn [snd] in *.
    destruct (IH st' args' Hinv') as [Hinv'' Hh']. auto.
Qed.

Lemma args_zero_inv : args_inv args_zero.
Proof. unfold args_inv. cbn. auto. Qed.

(** X23. After a successful [parse_args] without the help flag, [main] can
    open its three files: the program has a file name, and the tape and
    the output have a file name or are preset to [stdin] and [stdout]; the
    program and the tape are not both [stdin]. *)
Theorem parse_args_files_preset (argv : list string) (args : AppArgs)
  (e : option ArgError) :
  parse_args argv = (0, args, e) ->
  needs_help args = 0 ->
  e = None /\
  arg_program args <> None /\
  (arg_tape args = None -> arg_tape_file args = FileStdin) /\
  (arg_output args = None -> arg_output_file args = FileStdout) /\
  ~ (arg_program_file args = FileStdin /\ arg_tape_file args = FileStdin) /\
  args_inv args.
Proof.
  unfold parse_args.
  destruct (args_loop_inv A0 args_zero argv args_zero_inv) as [Hinv _].
  set (a := snd (args_loop A0 args_zero argv)) in *.
  destruct a as [h s p t o pf tf outf]. unfold args_inv in Hinv.
  cbn [needs_help log_steps arg_program arg_tape arg_output arg_program_file
       arg_tape_file arg_output_file] in *.
  destruct Hinv as ([-> | ->] & [-> | ->] & [-> | ->]);
    destruct (h =? 0) eqn:Hh; cbn [negb];
    destruct p, t, o; cbn; intros H; try discriminate;
    injection H as <- <-; cbn; intros Hn;
    try (apply Z.eqb_neq in Hh; contradiction);
    unfold args_inv; cbn;
    repeat split; try discriminate; try tauto;
    try (intros [Ha Hb]; discriminate).
Qed.

(** X24. Help wins: when [-h] or [--help] stands where an option is
    expected, [parse_args] returns 0 with the help flag set and reports no
    error, whatever else is or is not on the command line. *)
Theorem parse_args_help (pre post : list string) (h : string) :
  fst (args_loop A0 args_zero pre) = A0 ->
  arg_is h "-h" "--help" = true ->
  exists args,
    parse_args (pre ++ h :: post) = (0, args, None) /\ needs_help args = 1.
Proof.
  intros Hpre Hh. unfold parse_args. rewrite args_loop_app, Hpre.
  cbn [args_loop parse_arg]. rewrite Hh.
  destruct (args_loop_inv A0 args_zero pre args_zero_inv) as [Hinv _].
  set (a0 := snd (args_loop A0 args_zero pre)) in *.
  set (a1 := mkArgs 1 _ _ _ _ _ _ _).
  assert (Hinv1 : args_inv a1) by exact Hinv.
  destruct (args_loop_inv A0 a1 post Hinv1) as [_ Hkeep].
  specialize (Hkeep eq_refl). rewrite Hkeep. cbn [Z.eqb negb].
  eexists. split; [reflexivity | exact Hkeep].
Qed.

Lemma parse_arg_unknown args x :
  known_option x = false -> parse_arg A0 args x = (A0, args).
Proof.
  unfold known_option. cbn [parse_arg].
  destruct (arg_is x "-h" "--help"), (arg_is x "-p" "--program"),
    (arg_is x "-s" "--steps"), (arg_is x "-t" "--tape"),
    (arg_is x "-o" "--output"); cbn [orb]; intros H;
    (discriminate H || reflexivity).
Qed.

Lemma parse_arg_takes_value args x :
  takes_value x = true ->
  snd (parse_arg A0 args x) = args /\ fst (parse_arg A0 args x) <> A0.
Proof.
  unfold takes_value, arg_is. intros H.
  repeat (apply orb_true_iff in H; destruct H as [H|H]);
    apply String.eqb_eq in H; subst x; cbn; split;
    (reflexivity || discriminate).
Qed.

(** X25. In the place of an option, a string that is none of the ten
    option names is skipped without an error, and a value-taking option
    that ends the command line has no effect. *)
Theorem parse_args_ignores (pre post : list string) (x : string) :
  fst (args_loop A0 args_zero pre) = A0 ->
  (known_option x = false ->
   parse_args (pre ++ x :: post) = parse_args (pre ++ post)) /\
  (takes_value x = true -> parse_args (pre ++ [x]) = parse_args pre).
Proof.
  intros Hpre. split.
  - intros Hx. unfold parse_args. rewrite !args_loop_app, Hpre.
    cbn [args_loop]. now rewrite (parse_arg_unknown _ x Hx).
  - intros Hx. unfold parse_args. rewrite args_loop_app, Hpre.
    cbn [args_loop].
    destruct (parse_arg_takes_value (snd (args_loop A0 args_zero pre)) x Hx)
      as [Hs _].
    destruct (parse_arg A0 _ x) as [st' args']. cbn [snd] in *.
    now rewrite Hs.
Qed.

(** X26. The argument behind [-p] is the program text, whatever it looks
    like; a dash makes [stdin] the program file, and any other value
    leaves the program file as it is, also when an earlier dash has set
    it. *)
Theorem parse_args_program_value (pre : list string) (opt x : string) :
  fst (args_loop A0 args_zero pre) = A0 ->
  arg_is opt "-p" "--program" = true ->
  let before := snd (args_loop A0 args_zero pre) in
  let after := snd (args_loop A0 args_zero (pre ++ [opt; x])) in
  fst (args_loop A0 args_zero (pre ++ [opt; x])) = A0 /\
  arg_program after = Some x /\
  arg_program_file after =
    (if String.eqb x "-" then FileStdin else arg_program_file before) /\
  arg_tape after = arg_tape before /\
  arg_output after = arg_output before /\
  needs_help after = needs_help before.
Proof.
  intros Hpre Hopt before after. subst after.
  rewrite args_loop_app, Hpre. fold before.
  assert (Hstep : parse_arg A0 before opt = (A1, before)).
  { unfold arg_is in Hopt. apply orb_true_iff in Hopt.
    destruct Hopt as [H|H]; apply String.eqb_eq in H; subst opt;
      reflexivity. }
  cbn [args_loop]. rewrite Hstep. cbn. repeat split.
Qed.

(** * Instances of the further properties *)

Ltac fields_C :=
  repeat match goal with
         | |- blanks _ _ => split; [discriminate|]
         | |- word _ _ =>
             split; [discriminate|]; split; [|vm_compute; discriminate]
         | |- Forall _ _ => repeat constructor
         | |- _ <> _ => vm_compute; discriminate
         | |- _ = _ => reflexivity
         end.

Lemma symtable_insert_lookup_witness :
  symtable_insert symtable_base (L "A")
    = Ok (2, mkSymTable [L "INIT"; L "HALT"; L "A"] 12) /\
  exists s,
    nth_error [L "INIT"; L "HALT"; L "A"] 2 = Some s /\ cstr s = cstr (L "A").
Proof.
  assert (H : symtable_insert symtable_base (L "A")
              = Ok (2, mkSymTable [L "INIT"; L "HALT"; L "A"] 12))
    by reflexivity.
  split; [exact H|].
  exact (proj1 (proj2 (symtable_insert_lookup _ _ _ _ H))).
Defined.

Lemma symtable_insert_stable_witness :
  symtable_insert symtable_base (L "A")
    = Ok (2, mkSymTable [L "INIT"; L "HALT"; L "A"] 12) /\
  forall k s,
    nth_error (symbols symtable_base) k = Some s ->
    nth_error [L "INIT"; L "HALT"; L "A"] k = Some s.
Proof.
  assert (H : symtable_insert symtable_base (L "A")
              = Ok (2, mkSymTable [L "INIT"; L "HALT"; L "A"] 12))
    by reflexivity.
  split; [exact H|].
  exact (proj1 (symtable_insert_stable _ _ _ _ H)).
Defined.

Lemma symtable_ids_injective_witness :
  table_built symtable_base /\
  wcslen (L "A") <= MILL_STATE_MAX /\
  symtable_insert symtable_base (L "A")
    = Ok (2, mkSymTable [L "INIT"; L "HALT"; L "A"] 12) /\
  symtable_insert (mkSymTable [L "INIT"; L "HALT"; L "A"] 12) (L "B")
    = Ok (3, mkSymTable [L "INIT"; L "HALT"; L "A"; L "B"] 14) /\
  (2 = 3 <-> cstr (L "A") = cstr (L "B")).
Proof.
  assert (H1 : wcslen (L "A") <= MILL_STATE_MAX) by (vm_compute; discriminate).
  split; [exact symtable_base_built|]. split; [exact H1|].
  split; [reflexivity|]. split; [reflexivity|].
  exact (proj2 (symtable_ids_injective symtable_base (L "A") (L "B") 2 3 _ _
                  symtable_base_built H1 eq_refl eq_refl)).
Defined.

Lemma symtable_within_bounds_witness :
  table_built symtable_base /\ sym_size symtable_base <= MILL_STATES_MAX.
Proof.
  split; [exact symtable_base_built|].
  exact (proj1 (symtable_within_bounds symtable_base symtable_base_built)).
Defined.

Lemma halting_step_witness :
  tape_size (tape_of (L "a")) = MILL_TAPE_SIZE /\
  0 <= tape_pos (tape_of (L "a")) < MILL_TAPE_SIZE /\
  (0 < Z.to_nat MILL_STEPS_MAX)%nat /\
  scan (instructions prog_scenario1) 0 0 97
    = Some (0, mkInstr 0 97 1 98 HeadMove_right) /\
  mill_run prog_scenario1 (tape_of (L "a")) =
  mkRun 0
    (with_tape (tape_of (L "a")) (head_move MILL_TAPE_SIZE 0 1)
       (buf_set (tape_buf (tape_of (L "a"))) 0 98)) 1 Halted.
Proof.
  assert (H1 : tape_size (tape_of (L "a")) = MILL_TAPE_SIZE) by reflexivity.
  assert (H2 : 0 <= tape_pos (tape_of (L "a")) < MILL_TAPE_SIZE)
    by (split; [reflexivity | reflexivity]).
  assert (H : (0 < Z.to_nat MILL_STEPS_MAX)%nat)
    by (unfold MILL_STEPS_MAX; lia).
  split; [exact H1|]. split; [exact H2|].
  split; [exact H|]. split; [reflexivity|].
  exact (proj1 (halting_step prog_scenario1 (tape_of (L "a")) 0
                  (init_config prog_scenario1 (tape_of (L "a"))) 0
                  (mkInstr 0 97 1 98 HeadMove_right) 1
                  H1 H2 H eq_refl eq_refl eq_refl eq_refl)).
Defined.

Lemma mill_run_result_witness :
  tape_size (tape_of (L "a")) = MILL_TAPE_SIZE /\
  0 <= tape_pos (tape_of (L "a")) < MILL_TAPE_SIZE /\
  1 <= run_steps (mill_run prog_scenario1 (tape_of (L "a")))
    <= MILL_STEPS_MAX.
Proof.
  assert (H1 : tape_size (tape_of (L "a")) = MILL_TAPE_SIZE) by reflexivity.
  assert (H2 : 0 <= tape_pos (tape_of (L "a")) < MILL_TAPE_SIZE)
    by (split; [reflexivity | reflexivity]).
  split; [exact H1|]. split; [exact H2|].
  exact (proj1 (mill_run_result prog_scenario1 (tape_of (L "a")) H1 H2)).
Defined.

Lemma invalid_move_step_witness :
  (0 < Z.to_nat MILL_STEPS_MAX)%nat /\
  move (mkInstr 0 97 1 98 HeadMove_none) = HeadMove_none /\
  mill_run prog_nomove (tape_of (L "a")) =
  mkRun (-1)
    (with_tape (tape_of (L "a")) 0
       (buf_set (tape_buf (tape_of (L "a"))) 0 98)) 1 InvalidHeadMove.
Proof.
  assert (H : (0 < Z.to_nat MILL_STEPS_MAX)%nat)
    by (unfold MILL_STEPS_MAX; lia).
  split; [exact H|]. split; [reflexivity|].
  exact (invalid_move_step prog_nomove (tape_of (L "a")) 0
           (init_config prog_nomove (tape_of (L "a"))) 0
           (mkInstr 0 97 1 98 HeadMove_none) H eq_refl eq_refl eq_refl).
Defined.

Lemma halt_state_never_scanned_witness :
  syminit prog_forever <> symhalt prog_forever /\
  run_n 2 prog_forever (tape_of (L "a")) 0
    (init_config prog_forever (tape_of (L "a")))
  = Next (mkConfig 2 0
            (buf_set (buf_set (tape_buf (tape_of (L "a"))) 0 97) 1 0)) /\
  cf_state (mkConfig 2 0
              (buf_set (buf_set (tape_buf (tape_of (L "a"))) 0 97) 1 0))
  <> symhalt prog_forever /\
  forall k ins,
    scan (instructions prog_forever) 0 0 0 = Some (k, ins) ->
    state_in ins <> symhalt prog_forever.
Proof.
  assert (H : syminit prog_forever <> symhalt prog_forever)
    by discriminate.
  assert (Hrun : run_n 2 prog_forever (tape_of (L "a")) 0
                   (init_config prog_forever (tape_of (L "a")))
                 = Next (mkConfig 2 0
                           (buf_set (buf_set (tape_buf (tape_of (L "a")))
                                       0 97) 1 0)))
    by reflexivity.
  split; [exact H|]. split; [exact Hrun|].
  exact (halt_state_never_scanned prog_forever (tape_of (L "a")) 2
           (mkConfig 2 0
              (buf_set (buf_set (tape_buf (tape_of (L "a"))) 0 97) 1 0))
           H Hrun).
Defined.

Lemma unvisited_cells_unchanged_witness :
  tape_size (tape_of (L "a")) = MILL_TAPE_SIZE /\
  0 <= tape_pos (tape_of (L "a")) < MILL_TAPE_SIZE /\
  (forall m cfm,
     (m < Z.to_nat MILL_STEPS_MAX)%nat ->
     run_n m prog_scenario1 (tape_of (L "a")) 0
       (init_config prog_scenario1 (tape_of (L "a"))) = Next cfm ->
     cf_pos cfm <> 5) /\
  tape_buf (run_tape (mill_run prog_scenario1 (tape_of (L "a")))) 5
  = tape_buf (tape_of (L "a")) 5.
Proof.
  assert (H1 : tape_size (tape_of (L "a")) = MILL_TAPE_SIZE) by reflexivity.
  assert (H2 : 0 <= tape_pos (tape_of (L "a")) < MILL_TAPE_SIZE)
    by (split; [reflexivity | reflexivity]).
  assert (H : forall m cfm,
    (m < Z.to_nat MILL_STEPS_MAX)%nat ->
    run_n m prog_scenario1 (tape_of (L "a")) 0
      (init_config prog_scenario1 (tape_of (L "a"))) = Next cfm ->
    cf_pos cfm <> 5).
  { intros [|m] cfm _ Hm.
    - injection Hm as <-. discriminate.
    - discriminate Hm. }
  split; [exact H1|]. split; [exact H2|]. split; [exact H|].
  exact (unvisited_cells_unchanged prog_scenario1 (tape_of (L "a")) 5
           H1 H2 H).
Defined.

Lemma load_print_roundtrip_witness :
  mill_read_tape (L "ab") _Tape = Some (tape_of (L "ab")) /\
  ~ In 0 (fst (fgetws_take MILL_TAPE_SIZE (L "ab"))) /\
  mill_print_tape [] (tape_of (L "ab")) = Some (L "ab" ++ [10]).
Proof.
  assert (H1 : mill_read_tape (L "ab") _Tape = Some (tape_of (L "ab")))
    by reflexivity.
  assert (H2 : ~ In 0 (fst (fgetws_take MILL_TAPE_SIZE (L "ab"))))
    by (intros [H|[H|[]]]; discriminate H).
  split; [exact H1|]. split; [exact H2|].
  exact (load_print_roundtrip (L "ab") [] (tape_of (L "ab")) H1 H2).
Defined.

Lemma print_joins_segments_witness :
  let buf := buf_set (buf_set (fun _ => 0) 0 121) (MILL_TAPE_SIZE - 1) 120 in
  mill_print_tape [] (mkTape MILL_TAPE_SIZE 7 buf 0) = Some [120; 121; 10].
Proof.
  intros buf.
  apply (print_joins_segments buf 7 [] [120] [121]).
  - discriminate.
  - discriminate.
  - intros [H|[]]. discriminate H.
  - intros [H|[]]. discriminate H.
  - reflexivity.
  - intros [|j] Hj; [reflexivity | simpl in Hj; lia].
  - reflexivity.
  - intros [|j] Hj; [reflexivity | simpl in Hj; lia].
  - reflexivity.
Defined.

Lemma print_truncates_at_blank_witness :
  let buf := store_wcs (fun _ => 0) 0 [97; 98; 0; 99] in
  mill_print_tape [] (mkTape MILL_TAPE_SIZE 0 buf 0) = Some [97; 98; 10].
Proof.
  intros buf.
  apply (print_truncates_at_blank buf 0 [] [97; 98]).
  - discriminate.
  - intros [H|[H|[]]]; discriminate H.
  - reflexivity.
  - intros [|[|j]] Hj; [reflexivity | reflexivity | simpl in Hj; lia].
  - reflexivity.
  - reflexivity.
Defined.

Lemma parse_instruction_line_witness :
  mill_parse_instruction iswspace_C
    (L "INIT a HALT b R" ++ 10 :: L "next") symtable_base
  = (Ok (Some (mkInstr 0 97 1 98 HeadMove_right), symtable_base), L "next").
Proof.
  apply (parse_instruction_line iswspace_C symtable_base
           [] (L "INIT") [32] 97 [32] (L "HALT") [32] 98 [32] 82 (L "next")
           0 symtable_base 1 symtable_base HeadMove_right); fields_C.
Defined.

Lemma parse_instruction_bad_tail_witness :
  mill_parse_instruction iswspace_C (L "INIT a HALT b ") symtable_base
    = (Err ExpectingToken, []) /\
  mill_parse_instruction iswspace_C
    (L "INIT a HALT b X" ++ 10 :: L "next") symtable_base
    = (Err (InvalidMove [88]), L "next").
Proof.
  destruct (parse_instruction_bad_tail iswspace_C symtable_base
              [] (L "INIT") [32] 97 [32] (L "HALT") [32] 98 [32] 88
              (L "next") 0 symtable_base 1 symtable_base) as [H1 H2];
    fields_C.
  split; [exact H1 | apply H2; discriminate].
Defined.

Lemma parse_instruction_too_long_witness :
  mill_parse_instruction iswspace_C
    (repeat 97 32 ++ 97 :: L " a") symtable_base
    = (Err (SymbolTooLong (repeat 97 32)), L " a").
Proof.
  destruct (parse_instruction_too_long iswspace_C symtable_base
              [] (repeat 97 32) 97 [32] 97 98 (L " a") 0 symtable_base)
    as [H1 _]; [fields_C .. | apply H1; reflexivity].
Defined.

Lemma parse_skips_comment_witness :
  mill_parse_program iswspace_C
    (L " // note" ++ 10 :: L "INIT a HALT b R")
  = mill_parse_program iswspace_C (L "INIT a HALT b R").
Proof.
  destruct (parse_skips_comment iswspace_C [32] (L " note")
              (L "INIT a HALT b R")) as (_ & _ & _ & H & _).
  - repeat constructor.
  - reflexivity.
  - intros [H|[H|[H|[H|[H|[]]]]]]; discriminate H.
  - exact H.
Defined.

Lemma parsed_program_wellformed_witness :
  mill_parse_program iswspace_C (L "INIT a HALT b R")
    = Some (Ok prog_scenario1) /\
  instr_count prog_scenario1 <= MILL_INSTR_MAX.
Proof.
  assert (H : mill_parse_program iswspace_C (L "INIT a HALT b R")
              = Some (Ok prog_scenario1)) by (vm_compute; reflexivity).
  split; [exact H|].
  exact (proj1 (proj2 (proj2
           (parsed_program_wellformed iswspace_C _ _ H)))).
Defined.

Lemma run_state_is_symbol_witness :
  mill_parse_program iswspace_C (L "INIT a HALT b R")
    = Some (Ok prog_scenario1) /\
  forall s c,
    run_outcome (mill_run prog_scenario1 (tape_of (L "x"))) = Unhandled s c ->
    In s (symbols (symtable prog_scenario1)).
Proof.
  assert (H : mill_parse_program iswspace_C (L "INIT a HALT b R")
              = Some (Ok prog_scenario1)) by (vm_compute; reflexivity).
  split; [exact H|].
  exact (proj2 (run_state_is_symbol iswspace_C _ _ (tape_of (L "x")) H)).
Defined.

Lemma parse_locale_independent_witness :
  (forall c, In c (L "INIT a HALT b R") ->
             iswspace_C c = iswspace_wide c) /\
  iswspace_C 12288 <> iswspace_wide 12288 /\
  main iswspace_C (L "INIT a HALT b R") (L "a")
  = main iswspace_wide (L "INIT a HALT b R") (L "a").
Proof.
  assert (H : forall c, In c (L "INIT a HALT b R") ->
                        iswspace_C c = iswspace_wide c).
  { intros c Hc. cbn in Hc.
    repeat (destruct Hc as [<-|Hc]; [reflexivity|]). destruct Hc. }
  split; [exact H|]. split; [discriminate|].
  exact (proj2 (parse_locale_independent iswspace_C iswspace_wide _
                  (L "a") H)).
Defined.

Lemma parse_args_files_preset_witness :
  parse_args ["-p"; "prog"]%string
    = (0, mkArgs 0 0 (Some "prog"%string) None None FileNull FileStdin
            FileStdout, None) /\
  arg_tape_file
    (mkArgs 0 0 (Some "prog"%string) None None FileNull FileStdin FileStdout)
  = FileStdin.
Proof.
  assert (H : parse_args ["-p"; "prog"]%string
              = (0, mkArgs 0 0 (Some "prog"%string) None None FileNull
                      FileStdin FileStdout, None)) by reflexivity.
  split; [exact H|].
  destruct (parse_args_files_preset _ _ _ H eq_refl) as (_ & _ & Ht & _).
  apply Ht. reflexivity.
Defined.

Lemma parse_args_help_witness :
  exists args,
    parse_args ["-t"; "-h"; "--help"; "-o"]%string = (0, args, None) /\
    needs_help args = 1.
Proof.
  apply (parse_args_help ["-t"; "-h"]%string ["-o"]%string "--help"%string);
    reflexivity.
Defined.

Lemma parse_args_ignores_witness :
  parse_args ["--bogus"; "-p"; "prog"]%string
  = parse_args ["-p"; "prog"]%string.
Proof.
  destruct (parse_args_ignores [] ["-p"; "prog"]%string "--bogus"%string
              eq_refl) as [H _].
  apply H. reflexivity.
Defined.

Lemma parse_args_program_value_witness :
  arg_program_file
    (snd (args_loop A0 args_zero ["-p"; "-"; "-p"; "prog"]%string))
  = FileStdin.
Proof.
  destruct (parse_args_program_value ["-p"; "-"]%string "-p"%string
              "prog"%string eq_refl eq_refl) as (_ & _ & H & _).
  exact H.
Defined.
